(** * Jumpserve front end: the chart engine of the emulated-run explorer

    A shallow embedding of the pure computations of
    [app/components/emulated-runs-dashboard.tsx] (scale builder, series
    normalizer, coordinate projector, throughput-sum synthesizer, slice
    hit-test, pin/hover state, axis ticks and tooltips, grouping of the runs
    and stats), of the parent-run merge and the row normalization of
    [app/page.tsx], and of the theme preference of
    [app/components/theme-toggle.tsx].

    Numeric model.  A JavaScript [number] is either a finite value or one of
    NaN, +Infinity, -Infinity.  Finite values are modelled as exact rationals
    ([Q], compared with [==]): arithmetic is the exact arithmetic that the
    IEEE operations of the source approximate, so rounding error and overflow
    are outside the model.  [null] is [None].

    Where the outcome of the source hangs on the rounding of one double
    operation, the source and the model can part: a fraction that the
    rounding of [10 ** n] carries across 1, 2 or 5 makes [getNiceStep] return
    the next nice number; a quotient that rounds to an integer moves the
    [Math.floor] or [Math.ceil] of [buildNiceYTicks] by one step; and between
    ends so large that adding the step does not change them, or that
    overflow, the loop of [buildNiceYTicks] does not come to its end.  The
    theorems on what the scale builder returns are therefore stated so that
    they hold for whichever nice step is taken, and under hypotheses that
    keep the ends within reach of the step; a lemma that names the step of
    the model speaks of the model. *)

From Stdlib Require Import ZArith QArith Qabs Qround Qpower Qminmax.
From Stdlib Require Import List Bool String Lia Lqa.
From Stdlib Require Import Sorted Permutation SetoidList SetoidPermutation.
Import ListNotations.

Local Open Scope Q_scope.

(** ** JavaScript numbers *)

Inductive number : Type :=
| Fin (q : Q)
| NaN
| PosInf
| NegInf.

(** [Number.isFinite(v)] for a value of type [number | null]. *)
Definition Number_isFinite (v : option number) : bool :=
  match v with
  | Some (Fin _) => true
  | _ => false
  end.

(** [a ?? b] *)
Definition nullish {A : Type} (a : option A) (b : option A) : option A :=
  match a with
  | Some _ => a
  | None => b
  end.

(** [10 ** n] for an integer exponent. *)
Definition pow10 (n : Z) : Q := (10 # 1) ^ n.

(** [Math.floor(Math.log10(q))] for a positive [q]: the search climbs from an
    exponent whose power of ten is below [q] until the next power exceeds
    [q]. *)
Fixpoint log10_search (fuel : nat) (n : Z) (q : Q) : Z :=
  match fuel with
  | O => n
  | S f => if Qle_bool (pow10 (n + 1)) q then log10_search f (n + 1) q else n
  end.

Definition log10_lo (q : Q) : Z := - (Z.log2 (Zpos (Qden q)) + 1).
Definition log10_hi (q : Q) : Z := Z.log2 (Qnum q) + 1.

Definition floor_log10 (q : Q) : Z :=
  log10_search (Z.to_nat (log10_hi q - log10_lo q)) (log10_lo q) q.

(** [Number(x.toFixed(d))]: [toFixed] rounds the magnitude of [x] to [d]
    decimals, a tie going to the larger magnitude, and switches to exponent
    notation (which reads back as [x]) from [1e21] on. *)
Definition toFixedNumber (d : Z) (x : Q) : Q :=
  if Qle_bool (pow10 21) (Qabs x) then x
  else
    let n := Qfloor (Qabs x * pow10 d + (1 # 2)) in
    if Qle_bool 0 x then inject_Z n / pow10 d
    else - (inject_Z n / pow10 d).

(** ** Scale builder *)

(** In exact arithmetic: [magnitude] is the power of ten at or below
    [rawStep], and [fraction] lies in [1, 10).  The doubles of the source can
    put [fraction] just across 1, 2 or 5; the source then returns the next
    nice number. *)
Definition getNiceStep (rawStep : number) : Q :=
  match rawStep with
  | Fin r =>
      if Qle_bool r 0 then 1
      else
        let magnitude := pow10 (floor_log10 r) in
        let fraction := r / magnitude in
        if Qle_bool fraction 1 then magnitude
        else if Qle_bool fraction 2 then 2 * magnitude
        else if Qle_bool fraction 5 then 5 * magnitude
        else 10 * magnitude
  | _ => 1
  end.

Module Scale.
Record t : Type := mk { min : Q; max : Q; ticks : list Q }.
End Scale.

(** The [for] loop of [buildNiceYTicks]:
    [for (value = niceMin; value <= limit; value += step) ticks.push(...)].
    [fuel] bounds the number of iterations; [tickFuel] is the bound used by
    [buildNiceYTicks], and [tickLoop_fuel_enough] below shows that with a
    positive step the loop leaves through its own condition before the bound
    is reached: in exact arithmetic [value + step] is always above
    [value]. *)
Fixpoint tickLoop (fuel : nat) (value limit step : Q) : list Q :=
  match fuel with
  | O => []
  | S f =>
      if Qle_bool value limit
      then toFixedNumber 10 value :: tickLoop f (value + step) limit step
      else []
  end.

Definition tickFuel (start limit step : Q) : nat :=
  S (Z.to_nat (Qfloor ((limit - start) / step) + 1)).

(** In exact arithmetic: [niceMin] and [niceMax] are the multiples of [step]
    next to the two ends, and the loop runs from one to the other. *)
Definition buildNiceYTicks (minValue maxValue : number) (count : Q) : Scale.t :=
  match minValue, maxValue with
  | Fin lo0, Fin hi0 =>
      let delta := if Qeq_bool lo0 0 then 1 else Qabs lo0 * (2 # 10) in
      let lo := if Qeq_bool lo0 hi0 then lo0 - delta else lo0 in
      let hi := if Qeq_bool lo0 hi0 then hi0 + delta else hi0 in
      let rawStep := (hi - lo) / Qmax (count - 1) 1 in
      let step := getNiceStep (Fin rawStep) in
      let niceMin := inject_Z (Qfloor (lo / step)) * step in
      let niceMax := inject_Z (Qceiling (hi / step)) * step in
      let limit := niceMax + step * (5 # 10) in
      Scale.mk niceMin niceMax
        (tickLoop (tickFuel niceMin limit step) niceMin limit step)
  | _, _ => Scale.mk 0 1 [0; 1]
  end.

(** The default value of the [count] parameter. *)
Definition defaultCount : Q := 6.

(** ** Data model *)

Record EmulatedPerSecondStat : Type := {
  id : Z;
  emulatedRunId : Z;
  snapshotIndex : option number;
  elapsedSeconds : option number;
  megabitsPerSecond : option number;
  roundTripTimeMs : option number;
  bottleneckQueuingDelayMs : option number;
  inFlightPackets : option number;
  congestionWindowBytes : option number
}.

Record ChartSeries : Type := {
  runId : Z;
  shortLabel : string;
  label : string;
  clientSummary : string;
  color : string;
  data : list EmulatedPerSecondStat
}.

(** A normalized point [{ xValue, yValue }]. *)
Module Pt.
Record t : Type := mk { xValue : Q; yValue : Q }.
End Pt.

(** A projected point [{ xValue, yValue, x, y }]. *)
Module Svg.
Record t : Type := mk { xValue : Q; yValue : Q; x : Q; y : Q }.
End Svg.

(** [{ ...runSeries, points }] *)
Module NSeries.
Record t : Type := mk { series : ChartSeries; points : list Pt.t }.
End NSeries.

(** One segment of the path string: ["M x y"] for the first point of a
    series and ["L x y"] for the others. *)
Inductive PathCommand : Type := M | L.

(** An element of [interactiveSeriesForRender].  The [points] copied by the
    spread of [seriesForRender] are not read again and are left out. *)
Module RSeries.
Record t : Type := mk {
  runId : Z;
  label : string;
  shortLabel : string;
  clientSummary : string;
  color : string;
  data : list EmulatedPerSecondStat;
  svgPoints : list Svg.t;
  path : list (PathCommand * Q * Q)
}.
End RSeries.

Module HoveredChartPoint.
Record t : Type := mk {
  runId : Z;
  runSummary : string;
  color : string;
  x : Q;
  y : Q;
  xValue : Q;
  yValue : Q
}.
End HoveredChartPoint.

Module HoveredSliceValue.
Record t : Type := mk {
  runId : Z;
  shortLabel : string;
  color : string;
  yValue : Q;
  pointX : Q;
  pointY : Q
}.
End HoveredSliceValue.

Module HoveredSlice.
Record t : Type := mk {
  x : Q;
  xValue : Q;
  values : list HoveredSliceValue.t
}.
End HoveredSlice.

Definition THROUGHPUT_AXIS_MAX_MBPS : Q := 120.
Definition THROUGHPUT_AXIS_TICK_STEP_MBPS : Q := 40.
Definition THROUGHPUT_SUM_SERIES_ID : Z := -1.

(** ** Array and Math helpers *)

(** [array.map((element, index) => f(element, index))] *)
Fixpoint mapi_from {A B : Type} (start : nat) (f : A -> nat -> B) (l : list A)
  : list B :=
  match l with
  | [] => []
  | a :: rest => f a start :: mapi_from (S start) f rest
  end.

Definition mapi {A B : Type} (f : A -> nat -> B) (l : list A) : list B :=
  mapi_from 0 f l.

(** [array.filter((point) => point !== null)] followed by the cast that
    forgets the [null] alternative. *)
Fixpoint filterNotNull {A : Type} (l : list (option A)) : list A :=
  match l with
  | [] => []
  | Some a :: rest => a :: filterNotNull rest
  | None :: rest => filterNotNull rest
  end.

(** [array.reduce(f)] without an initial value: the first element starts the
    accumulator; on an empty array the call throws ([None]). *)
Definition reduce1 {A : Type} (f : A -> A -> A) (l : list A) : option A :=
  match l with
  | [] => None
  | a :: rest => Some (fold_left f rest a)
  end.

(** [Array.from({ length }, (_, index) => f(index))] *)
Definition Array_from (length : nat) (f : nat -> Q) : list Q :=
  map f (seq 0 length).

(** [Math.max(...args)] and [Math.min(...args)] on finite arguments. *)
Definition Math_max (args : list Q) : number :=
  match args with
  | [] => NegInf
  | a :: rest => Fin (fold_left Qmax rest a)
  end.

Definition Math_min (args : list Q) : number :=
  match args with
  | [] => PosInf
  | a :: rest => Fin (fold_left Qmin rest a)
  end.

(** [Array.prototype.sort(compare)]: the sort is stable, and an element [a]
    stays before [b] unless [compare(a, b) > 0].  Insertion from the right
    end is the reference stable sort; [compare_le a b] reads
    [!(compare(a, b) > 0)]. *)
Section Sort.
Context {A : Type} (compare_le : A -> A -> bool).

Fixpoint sort_insert (a : A) (sorted : list A) : list A :=
  match sorted with
  | [] => [a]
  | b :: rest =>
      if compare_le a b then a :: b :: rest
      else b :: sort_insert a rest
  end.

Definition Array_sort (l : list A) : list A :=
  fold_right sort_insert [] l.
End Sort.

(** ** A [Map<number, number>] in insertion order *)

Module NumMap.
Definition t : Type := list (Q * Q).

Fixpoint get (m : t) (key : Q) : option Q :=
  match m with
  | [] => None
  | (k, v) :: rest => if Qeq_bool k key then Some v else get rest key
  end.

(** [set] keeps the position (and the stored key) of an existing entry and
    appends a new one. *)
Fixpoint set (m : t) (key value : Q) : t :=
  match m with
  | [] => [(key, value)]
  | (k, v) :: rest =>
      if Qeq_bool k key then (k, value) :: rest
      else (k, v) :: set rest key value
  end.

Definition entries (m : t) : list (Q * Q) := m.
End NumMap.

(** ** Values shared by the event handlers *)

Definition Qlt_bool (a b : Q) : bool := negb (Qle_bool b a).

(** The result of a call that may throw. *)
Inductive outcome (A : Type) : Type :=
| Returned (a : A)
| Threw.
Arguments Returned {A} a.
Arguments Threw {A}.

(** [svgElement.getBoundingClientRect()] *)
Module DOMRect.
Record t : Type := mk { left : Q; top : Q; width : Q; height : Q }.
End DOMRect.

Module ChartState.
Record t : Type := mk {
  hoveredRunId : option Z;
  hoveredPoint : option HoveredChartPoint.t;
  hoveredSlice : option HoveredSlice.t;
  pinnedRunId : option Z;
  pinnedPoint : option HoveredChartPoint.t
}.

Definition initial : t := mk None None None None None.

Definition setHoveredRunId (s : t) (v : option Z) : t :=
  mk v (hoveredPoint s) (hoveredSlice s) (pinnedRunId s) (pinnedPoint s).
Definition setHoveredPoint (s : t) (v : option HoveredChartPoint.t) : t :=
  mk (hoveredRunId s) v (hoveredSlice s) (pinnedRunId s) (pinnedPoint s).
Definition setHoveredSlice (s : t) (v : option HoveredSlice.t) : t :=
  mk (hoveredRunId s) (hoveredPoint s) v (pinnedRunId s) (pinnedPoint s).
Definition setPinnedRunId (s : t) (v : option Z) : t :=
  mk (hoveredRunId s) (hoveredPoint s) (hoveredSlice s) v (pinnedPoint s).
Definition setPinnedPoint (s : t) (v : option HoveredChartPoint.t) : t :=
  mk (hoveredRunId s) (hoveredPoint s) (hoveredSlice s) (pinnedRunId s) v.
End ChartState.

(** The events a chart instance listens to: the capture-phase [pointerdown]
    listener on [document], the handlers of the [svg] element, of the wide
    transparent hit path of a series, of the hit circle of a point, of a
    legend chip and of the card. *)
Inductive ChartEvent : Type :=
| DocumentPointerDown
| SvgMouseMove (clientX clientY : Q) (svgElement : option DOMRect.t)
| SvgMouseLeave
| PathMouseEnter (runSeries : RSeries.t)
| PathMouseMove (runSeries : RSeries.t) (clientX : Q)
    (svgElement : option DOMRect.t)
| PathMouseLeave
| PathClick (runSeries : RSeries.t) (clientX : Q)
    (svgElement : option DOMRect.t)
| MarkerMouseEnter (runSeries : RSeries.t) (point : Svg.t)
| MarkerMouseMove (runSeries : RSeries.t) (point : Svg.t)
| MarkerMouseLeave
| MarkerClick (runSeries : RSeries.t) (point : Svg.t)
| LegendMouseEnter (runSeries : RSeries.t)
| LegendMouseLeave
| LegendClick (runSeries : RSeries.t)
| CardMouseLeave.

(** ** The metric chart *)

Inductive Size : Type := default | expanded.

Definition isExpandedSize (size : Size) : bool :=
  match size with
  | expanded => true
  | default => false
  end.

Section MetricChart.
Variable metricId : string.
Variable series : list ChartSeries.
Variable accessor : EmulatedPerSecondStat -> option number.
Variable size : Size.

Definition isExpanded : bool := isExpandedSize size.
Definition chartWidth : Q := if isExpanded then 1200 else 460.
Definition chartHeight : Q := if isExpanded then 620 else 220.
Definition leftPadding : Q := if isExpanded then 78 else 56.
Definition rightPadding : Q := if isExpanded then 28 else 18.
Definition topPadding : Q := if isExpanded then 26 else 18.
Definition bottomPadding : Q := if isExpanded then 94 else 52.
Definition plotWidth : Q := chartWidth - leftPadding - rightPadding.
Definition plotHeight : Q := chartHeight - topPadding - bottomPadding.

(** The callback of [runSeries.data.map]. *)
Definition normalizePoint (point : EmulatedPerSecondStat) (index : nat)
  : option Pt.t :=
  let xValue :=
    nullish (elapsedSeconds point)
      (nullish (snapshotIndex point)
         (Some (Fin (inject_Z (Z.of_nat index))))) in
  let yValue := accessor point in
  if negb (Number_isFinite xValue) || negb (Number_isFinite yValue)
  then None
  else
    match xValue, yValue with
    | Some (Fin xq), Some (Fin yq) => Some (Pt.mk xq yq)
    | _, _ => None
    end.

Definition normalizedSeries : list NSeries.t :=
  filter
    (fun runSeries => (0 <? List.length (NSeries.points runSeries))%nat)
    (map
       (fun runSeries =>
          NSeries.mk runSeries
            (filterNotNull (mapi normalizePoint (data runSeries))))
       series).

Definition xValues : list Q :=
  flat_map (fun runSeries => map Pt.xValue (NSeries.points runSeries))
    normalizedSeries.

Definition yValues : list Q :=
  flat_map (fun runSeries => map Pt.yValue (NSeries.points runSeries))
    normalizedSeries.

Definition xMin : Q := 0.

(** [Math.max(...xValues, 0)]: the argument list is never empty. *)
Definition xMax : Q := fold_right Qmax 0 xValues.

(** [yMaxRaw] and [yMinRaw] are finite when [yValues] is not empty.  On an
    empty list they are [-Infinity] and [Infinity]: their difference and
    its product with [0.12] are [-Infinity], so [yPadding] is [0.001],
    [yMaxRaw + yPadding] is [-Infinity] and the upper argument of
    [buildNiceYTicks] is [0.001]. *)
Definition yScale : Scale.t :=
  if String.eqb metricId "mbps"
  then
    Scale.mk 0 THROUGHPUT_AXIS_MAX_MBPS
      (Array_from
         (Z.to_nat
            (Qfloor
               (THROUGHPUT_AXIS_MAX_MBPS / THROUGHPUT_AXIS_TICK_STEP_MBPS
                + 1)))
         (fun index =>
            inject_Z (Z.of_nat index) * THROUGHPUT_AXIS_TICK_STEP_MBPS))
  else
    match Math_min yValues, Math_max yValues with
    | Fin yMinRaw, Fin yMaxRaw =>
        let yPadding := Qmax ((yMaxRaw - yMinRaw) * (12 # 100)) (1 # 1000) in
        buildNiceYTicks (Fin 0) (Fin (Qmax (yMaxRaw + yPadding) (1 # 1000)))
          defaultCount
    | _, _ => buildNiceYTicks (Fin 0) (Fin (1 # 1000)) defaultCount
    end.

Definition yMin : Q := Scale.min yScale.
Definition yMax : Q := Scale.max yScale.
Definition yTicks : list Q := Scale.ticks yScale.
Definition xDenominator : Q := if Qeq_bool xMax xMin then 1 else xMax - xMin.
Definition yDenominator : Q := if Qeq_bool yMax yMin then 1 else yMax - yMin.

(** The callback of [points.map] in [seriesForRender] and in
    [throughputSumForRender]. *)
Definition toSvgPoint (point : Pt.t) : Svg.t :=
  let boundedXValue := Qmax xMin (Qmin xMax (Pt.xValue point)) in
  let boundedYValue := Qmax yMin (Qmin yMax (Pt.yValue point)) in
  Svg.mk (Pt.xValue point) (Pt.yValue point)
    (leftPadding + ((boundedXValue - xMin) / xDenominator) * plotWidth)
    (chartHeight - bottomPadding
     - ((boundedYValue - yMin) / yDenominator) * plotHeight).

Definition toPath (svgPoints : list Svg.t) : list (PathCommand * Q * Q) :=
  mapi
    (fun point index =>
       ((if Nat.eqb index 0 then M else L), Svg.x point, Svg.y point))
    svgPoints.

Definition seriesForRender : list RSeries.t :=
  map
    (fun runSeries =>
       let svgPoints := map toSvgPoint (NSeries.points runSeries) in
       let s := NSeries.series runSeries in
       RSeries.mk (runId s) (label s) (shortLabel s) (clientSummary s)
         (color s) (data s) svgPoints (toPath svgPoints))
    normalizedSeries.

(** The two nested [for] loops that fill [sumByX]. *)
Definition sumByX : NumMap.t :=
  fold_left
    (fun sums runSeries =>
       fold_left
         (fun sums point =>
            let roundedX := toFixedNumber 3 (Pt.xValue point) in
            let current :=
              match NumMap.get sums roundedX with
              | Some v => v
              | None => 0
              end in
            NumMap.set sums roundedX (current + Pt.yValue point))
         (NSeries.points runSeries) sums)
    normalizedSeries [].

Definition sumPoints : list Pt.t :=
  Array_sort
    (fun a b => Qle_bool (Pt.xValue a - Pt.xValue b) 0)
    (map (fun entry => Pt.mk (fst entry) (snd entry))
       (NumMap.entries sumByX)).

Definition throughputSumForRender : option RSeries.t :=
  if String.eqb metricId "mbps"
  then
    let points := sumPoints in
    if (List.length points =? 0)%nat then None
    else
      let svgPoints := map toSvgPoint points in
      Some
        (RSeries.mk THROUGHPUT_SUM_SERIES_ID "sum Mbps" "sum Mbps"
           "sum Mbps" "#eab308" [] svgPoints (toPath svgPoints))
  else None.

Definition interactiveSeriesForRender : list RSeries.t :=
  match throughputSumForRender with
  | Some sumSeries => seriesForRender ++ [sumSeries]
  | None => seriesForRender
  end.

(** *** Hit-testing *)

Definition toHoveredPoint (runSeries : RSeries.t) (point : Svg.t)
  : HoveredChartPoint.t :=
  HoveredChartPoint.mk (RSeries.runId runSeries)
    (RSeries.clientSummary runSeries) (RSeries.color runSeries)
    (Svg.x point) (Svg.y point) (Svg.xValue point) (Svg.yValue point).

Definition getClosestPointFromMouse (runSeries : RSeries.t) (clientX : Q)
    (svgElement : option DOMRect.t) : option Svg.t :=
  match svgElement with
  | None => None
  | Some rect =>
      if (List.length (RSeries.svgPoints runSeries) =? 0)%nat then None
      else if Qle_bool (DOMRect.width rect) 0 then None
      else
        let relativeX :=
          ((clientX - DOMRect.left rect) / DOMRect.width rect) * chartWidth in
        reduce1
          (fun closest point =>
             if Qlt_bool (Qabs (Svg.x point - relativeX))
                  (Qabs (Svg.x closest - relativeX))
             then point else closest)
          (RSeries.svgPoints runSeries)
  end.

(** The [reduce] of the slice hit-test: the point of one series nearest to
    the domain value [xValue]. *)
Definition nearestPointAt (xValue : Q) (svgPoints : list Svg.t)
  : option Svg.t :=
  reduce1
    (fun closest point =>
       if Qlt_bool (Qabs (Svg.xValue point - xValue))
            (Qabs (Svg.xValue closest - xValue))
       then point else closest)
    svgPoints.

(** [interactiveSeriesForRender.map(...)] of the slice hit-test; the [map]
    is abandoned when a [reduce] throws. *)
Fixpoint sliceValues (xValue : Q) (rendered : list RSeries.t)
  : outcome (list HoveredSliceValue.t) :=
  match rendered with
  | [] => Returned []
  | runSeries :: rest =>
      match nearestPointAt xValue (RSeries.svgPoints runSeries) with
      | None => Threw
      | Some nearestPoint =>
          match sliceValues xValue rest with
          | Threw => Threw
          | Returned values =>
              Returned
                (HoveredSliceValue.mk (RSeries.runId runSeries)
                   (RSeries.shortLabel runSeries) (RSeries.color runSeries)
                   (Svg.yValue nearestPoint) (Svg.x nearestPoint)
                   (Svg.y nearestPoint)
                 :: values)
          end
      end
  end.

Definition getHoveredSliceFromMouse (clientX clientY : Q)
    (svgElement : option DOMRect.t) : outcome (option HoveredSlice.t) :=
  match svgElement with
  | None => Returned None
  | Some rect =>
      if (List.length interactiveSeriesForRender =? 0)%nat then Returned None
      else if Qle_bool (DOMRect.width rect) 0
              || Qle_bool (DOMRect.height rect) 0
      then Returned None
      else
        let relativeX :=
          ((clientX - DOMRect.left rect) / DOMRect.width rect) * chartWidth in
        let relativeY :=
          ((clientY - DOMRect.top rect) / DOMRect.height rect) * chartHeight in
        let minX := leftPadding in
        let maxX := chartWidth - rightPadding in
        let minY := topPadding in
        let maxY := chartHeight - bottomPadding in
        if Qlt_bool relativeX minX || Qlt_bool maxX relativeX
           || Qlt_bool relativeY minY || Qlt_bool maxY relativeY
        then Returned None
        else
          let boundedX := Qmax minX (Qmin maxX relativeX) in
          let xValue :=
            xMin + ((boundedX - minX) / Qmax plotWidth 1) * xDenominator in
          match sliceValues xValue interactiveSeriesForRender with
          | Threw => Threw
          | Returned values =>
              Returned (Some (HoveredSlice.mk boundedX xValue values))
          end
  end.

(** *** Hover and pin state

    The five [useState] cells of one chart instance, and one transition per
    event handler of the chart.  A handler reads the state of the render it
    was created in and calls setters; [handle] is that update. *)

Definition setHoveredPointForRun (current : option HoveredChartPoint.t)
    (runSeries : RSeries.t) (point : Svg.t) : option HoveredChartPoint.t :=
  match current with
  | Some c =>
      if (HoveredChartPoint.runId c =? RSeries.runId runSeries)%Z
         && Qeq_bool (HoveredChartPoint.xValue c) (Svg.xValue point)
         && Qeq_bool (HoveredChartPoint.yValue c) (Svg.yValue point)
      then current
      else Some (toHoveredPoint runSeries point)
  | None => Some (toHoveredPoint runSeries point)
  end.

Definition clearPinnedSelection (s : ChartState.t) : ChartState.t :=
  ChartState.mk None None None None None.

Definition handle (s : ChartState.t) (e : ChartEvent) : ChartState.t :=
  let pinnedRunId := ChartState.pinnedRunId s in
  match e with
  | DocumentPointerDown =>
      (* the listener is registered while [pinnedRunId !== null] *)
      match pinnedRunId with
      | None => s
      | Some _ => clearPinnedSelection s
      end
  | SvgMouseMove clientX clientY svgElement =>
      match getHoveredSliceFromMouse clientX clientY svgElement with
      | Threw => s
      | Returned nextSlice => ChartState.setHoveredSlice s nextSlice
      end
  | SvgMouseLeave => ChartState.setHoveredSlice s None
  | PathMouseEnter runSeries =>
      match pinnedRunId with
      | Some pinned =>
          if (pinned =? RSeries.runId runSeries)%Z
          then ChartState.setHoveredRunId s (Some (RSeries.runId runSeries))
          else s
      | None => ChartState.setHoveredRunId s (Some (RSeries.runId runSeries))
      end
  | PathMouseMove runSeries clientX svgElement =>
      match pinnedRunId with
      | Some pinned =>
          if negb (pinned =? RSeries.runId runSeries)%Z then s
          else
            match getClosestPointFromMouse runSeries clientX svgElement with
            | Some closestPoint =>
                let pinned := toHoveredPoint runSeries closestPoint in
                ChartState.setHoveredPoint
                  (ChartState.setHoveredRunId
                     (ChartState.setPinnedPoint s (Some pinned))
                     (Some (RSeries.runId runSeries)))
                  (Some pinned)
            | None => s
            end
      | None =>
          let s1 :=
            ChartState.setHoveredRunId s (Some (RSeries.runId runSeries)) in
          match getClosestPointFromMouse runSeries clientX svgElement with
          | Some closestPoint =>
              ChartState.setHoveredPoint s1
                (setHoveredPointForRun (ChartState.hoveredPoint s1)
                   runSeries closestPoint)
          | None => s1
          end
      end
  | PathMouseLeave =>
      ChartState.setHoveredPoint (ChartState.setHoveredRunId s None) None
  | PathClick runSeries clientX svgElement =>
      match pinnedRunId with
      | Some _ => s
      | None =>
          let s1 :=
            ChartState.setHoveredRunId
              (ChartState.setPinnedRunId s (Some (RSeries.runId runSeries)))
              (Some (RSeries.runId runSeries)) in
          match getClosestPointFromMouse runSeries clientX svgElement with
          | Some closestPoint =>
              let pinned := toHoveredPoint runSeries closestPoint in
              ChartState.setHoveredPoint
                (ChartState.setPinnedPoint s1 (Some pinned)) (Some pinned)
          | None => ChartState.setPinnedPoint s1 None
          end
      end
  | MarkerMouseEnter runSeries point
  | MarkerMouseMove runSeries point =>
      match pinnedRunId with
      | Some pinned =>
          if (pinned =? RSeries.runId runSeries)%Z
          then
            let pinned := toHoveredPoint runSeries point in
            ChartState.setHoveredPoint
              (ChartState.setHoveredRunId
                 (ChartState.setPinnedPoint s (Some pinned))
                 (Some (RSeries.runId runSeries)))
              (Some pinned)
          else s
      | None =>
          let s1 :=
            ChartState.setHoveredRunId s (Some (RSeries.runId runSeries)) in
          ChartState.setHoveredPoint s1
            (setHoveredPointForRun (ChartState.hoveredPoint s1) runSeries
               point)
      end
  | MarkerMouseLeave => ChartState.setHoveredPoint s None
  | MarkerClick runSeries point =>
      match pinnedRunId with
      | Some _ => s
      | None =>
          let pinned := toHoveredPoint runSeries point in
          ChartState.setHoveredPoint
            (ChartState.setHoveredRunId
               (ChartState.setPinnedPoint
                  (ChartState.setPinnedRunId s
                     (Some (RSeries.runId runSeries)))
                  (Some pinned))
               (Some (RSeries.runId runSeries)))
            (Some pinned)
      end
  | LegendMouseEnter runSeries =>
      match pinnedRunId with
      | Some _ => s
      | None =>
          ChartState.setHoveredPoint
            (ChartState.setHoveredRunId s (Some (RSeries.runId runSeries)))
            None
      end
  | LegendMouseLeave =>
      match pinnedRunId with
      | Some _ => s
      | None =>
          ChartState.setHoveredPoint (ChartState.setHoveredRunId s None) None
      end
  | LegendClick runSeries =>
      match pinnedRunId with
      | Some _ => s
      | None =>
          ChartState.setHoveredPoint
            (ChartState.setHoveredRunId
               (ChartState.setPinnedPoint
                  (ChartState.setPinnedRunId s
                     (Some (RSeries.runId runSeries)))
                  None)
               (Some (RSeries.runId runSeries)))
            None
      end
  | CardMouseLeave =>
      ChartState.setHoveredSlice
        (ChartState.setHoveredPoint (ChartState.setHoveredRunId s None) None)
        None
  end.

Definition handleAll (s : ChartState.t) (events : list ChartEvent)
  : ChartState.t :=
  fold_left handle events s.

Definition activeRunId (s : ChartState.t) : option Z :=
  nullish (ChartState.pinnedRunId s) (ChartState.hoveredRunId s).

Definition displayedPoint (s : ChartState.t) : option HoveredChartPoint.t :=
  nullish (ChartState.pinnedPoint s) (ChartState.hoveredPoint s).
End MetricChart.

(** ** [app/page.tsx]: merging and ordering the parent runs *)

Module Page.
Record EmulatedParentRun : Type := mkParentRun {
  id : Z;
  createdAt : option string
}.

Record EmulatedRun : Type := mkRun {
  run_id : Z;
  run_createdAt : string;
  parentRunId : option Z;
  clientNumber : option number;
  delayAddedMs : option number;
  congestionControlAlgorithmId : option Z;
  congestionControlAlgorithmName : option string
}.

(** [Map<number, EmulatedParentRun>] in insertion order. *)
Module Lookup.
Definition t : Type := list (Z * EmulatedParentRun).

Fixpoint has (m : t) (key : Z) : bool :=
  match m with
  | [] => false
  | (k, _) :: rest => if (k =? key)%Z then true else has rest key
  end.

Fixpoint set (m : t) (key : Z) (value : EmulatedParentRun) : t :=
  match m with
  | [] => [(key, value)]
  | (k, v) :: rest =>
      if (k =? key)%Z then (k, value) :: rest
      else (k, v) :: set rest key value
  end.

Definition values (m : t) : list EmulatedParentRun := map snd m.
End Lookup.

(** The truthiness test [a.createdAt]: [null] and the empty string are
    falsy. *)
Definition truthy (createdAt : option string) : bool :=
  match createdAt with
  | Some s => negb (String.eqb s "")
  | None => false
  end.

(** Subtraction of two [number]s. *)
Definition number_sub (a b : number) : number :=
  match a, b with
  | Fin p, Fin q => Fin (p - q)
  | NaN, _ | _, NaN => NaN
  | PosInf, PosInf | NegInf, NegInf => NaN
  | PosInf, _ | _, NegInf => PosInf
  | NegInf, _ | _, PosInf => NegInf
  end.

(** [v > 0] *)
Definition positive (v : number) : bool :=
  match v with
  | Fin q => Qlt_bool 0 q
  | PosInf => true
  | NaN | NegInf => false
  end.

Section Merge.
(** [Date.parse]: the time value of a date string, or [NaN]. *)
Variable Date_parse : string -> number.

Definition parseCreatedAt (createdAt : option string) : number :=
  match createdAt with
  | Some s => Date_parse s
  | None => NaN
  end.

(** The comparator handed to [sort]. *)
Definition compareParentRuns (a b : EmulatedParentRun) : number :=
  if truthy (createdAt a) && truthy (createdAt b)
  then number_sub (parseCreatedAt (createdAt b))
         (parseCreatedAt (createdAt a))
  else if truthy (createdAt a) then Fin (-1)
  else if truthy (createdAt b) then Fin 1
  else Fin (inject_Z (id b) - inject_Z (id a)).

Definition parentRunLookup (parentRuns : list EmulatedParentRun)
    (runs : list EmulatedRun) : Lookup.t :=
  let lookup :=
    fold_left
      (fun lookup parentRun => Lookup.set lookup (id parentRun) parentRun)
      parentRuns [] in
  fold_left
    (fun lookup run =>
       match parentRunId run with
       | Some parent =>
           if negb (Lookup.has lookup parent)
           then Lookup.set lookup parent (mkParentRun parent None)
           else lookup
       | None => lookup
       end)
    runs lookup.

Definition mergedParentRuns (parentRuns : list EmulatedParentRun)
    (runs : list EmulatedRun) : list EmulatedParentRun :=
  Array_sort
    (fun a b => negb (positive (compareParentRuns a b)))
    (Lookup.values (parentRunLookup parentRuns runs)).
End Merge.
End Page.

(** ** Axis ticks, reference line and tooltips of the chart *)

(** [Math.round(x)]: the nearest integer, a tie going up. *)
Definition Math_round (x : Q) : Z := Qfloor (x + (1 # 2)).

(** The greatest length of an array, [2^32 - 1]: [new Array(length)], and
    with it [Array.from({ length })], throws a [RangeError] above it. *)
Definition MAX_ARRAY_LENGTH : Z := 4294967295.

Section ChartDecorations.
Variable metricId : string.
Variable series : list ChartSeries.
Variable accessor : EmulatedPerSecondStat -> option number.
Variable size : Size.

Definition xTickStart : Z := Qceiling xMin.
Definition xTickEnd : Z := Qfloor (xMax series accessor).

Definition xTicks : outcome (list Q) :=
  if (xTickStart <=? xTickEnd)%Z
  then
    let length := (xTickEnd - xTickStart + 1)%Z in
    if (length <=? MAX_ARRAY_LENGTH)%Z
    then
      Returned
        (Array_from (Z.to_nat length)
           (fun index => inject_Z xTickStart + inject_Z (Z.of_nat index)))
    else Threw
  else Returned [inject_Z (Math_round xMin)].

(** The [x] of the grid line of an x tick. *)
Definition xTickPosition (tick : Q) : Q :=
  leftPadding size
  + ((tick - xMin) / xDenominator series accessor) * plotWidth size.

(** The [y] of the grid line of a y tick. *)
Definition yTickPosition (tick : Q) : Q :=
  chartHeight size - bottomPadding size
  - ((tick - yMin metricId series accessor)
     / yDenominator metricId series accessor)
    * plotHeight size.

Definition throughputReferenceLineY : option Q :=
  if String.eqb metricId "mbps"
  then
    Some
      (Qmax (topPadding size)
         (Qmin (chartHeight size - bottomPadding size)
            (chartHeight size - bottomPadding size
             - ((100 - yMin metricId series accessor)
                / yDenominator metricId series accessor)
               * plotHeight size)))
  else None.

Definition tooltipWidth : Q := if isExpanded size then 140 else 116.
Definition tooltipHeight : Q := if isExpanded size then 50 else 44.
Definition sliceTooltipWidth : Q := if isExpanded size then 260 else 220.

(** [hoveredSlice?.x ?? displayedPoint?.x ?? null] *)
Definition crosshairX (s : ChartState.t) : option Q :=
  nullish (option_map HoveredSlice.x (ChartState.hoveredSlice s))
    (nullish (option_map HoveredChartPoint.x (displayedPoint s)) None).




(** The corner of the tooltip of the displayed point. *)
Definition pointTooltipX (crosshair : Q) : Q :=
  let tooltipX := crosshair + 12 in
  let tooltipX :=
    if Qlt_bool (chartWidth size - rightPadding size) (tooltipX + tooltipWidth)
    then crosshair - tooltipWidth - 12
    else tooltipX in
  Qmax (leftPadding size + 4)
    (Qmin (chartWidth size - rightPadding size - tooltipWidth - 2) tooltipX).

Definition pointTooltipY (pointY : Q) : Q :=
  let tooltipY := pointY - tooltipHeight - 12 in
  let tooltipY :=
    if Qlt_bool tooltipY (topPadding size + 4) then pointY + 12
    else tooltipY in
  Qmax (topPadding size + 4)
    (Qmin (chartHeight size - bottomPadding size - tooltipHeight - 4)
       tooltipY).
End ChartDecorations.

(** ** The dashboard: grouping of runs and stats *)

(** A [Map<number, T[]>] in insertion order, filled by
    [const list = grouped.get(key); if (list) list.push(item); else
    grouped.set(key, [item])]. *)
Module Grouped.
Definition t (A : Type) : Type := list (Z * list A).

Fixpoint get {A : Type} (m : t A) (key : Z) : option (list A) :=
  match m with
  | [] => None
  | (k, items) :: rest => if (k =? key)%Z then Some items else get rest key
  end.

Fixpoint add {A : Type} (m : t A) (key : Z) (item : A) : t A :=
  match m with
  | [] => [(key, [item])]
  | (k, items) :: rest =>
      if (k =? key)%Z then (k, items ++ [item]) :: rest
      else (k, items) :: add rest key item
  end.

(** [for (const value of grouped.values()) value.sort(compare)] *)
Definition sortValues {A : Type} (compare_le : A -> A -> bool) (m : t A)
  : t A :=
  map (fun entry => (fst entry, Array_sort compare_le (snd entry))) m.
End Grouped.

Definition MAX_SAFE_INTEGER : Q := 9007199254740991.

(** [a === b] on numbers. *)
Definition number_eqb (a b : number) : bool :=
  match a, b with
  | Fin p, Fin q => Qeq_bool p q
  | PosInf, PosInf | NegInf, NegInf => true
  | _, _ => false
  end.

(** [value ?? MAX_SAFE_INTEGER] *)
Definition orMaxSafe (value : option number) : number :=
  match value with
  | Some v => v
  | None => Fin MAX_SAFE_INTEGER
  end.

Module Dashboard.
Definition compareRunsById (a b : Page.EmulatedRun) : number :=
  Fin (inject_Z (Page.run_id a) - inject_Z (Page.run_id b)).

Definition runsByParent (runs : list Page.EmulatedRun)
  : Grouped.t Page.EmulatedRun :=
  Grouped.sortValues
    (fun a b => negb (Page.positive (compareRunsById a b)))
    (fold_left
       (fun grouped run =>
          match Page.parentRunId run with
          | None => grouped
          | Some parent => Grouped.add grouped parent run
          end)
       runs []).

Definition compareStats (a b : EmulatedPerSecondStat) : number :=
  let aIndex := orMaxSafe (snapshotIndex a) in
  let bIndex := orMaxSafe (snapshotIndex b) in
  if number_eqb aIndex bIndex
  then
    let aElapsed := orMaxSafe (elapsedSeconds a) in
    let bElapsed := orMaxSafe (elapsedSeconds b) in
    Page.number_sub aElapsed bElapsed
  else Page.number_sub aIndex bIndex.

Definition statsByRun (stats : list EmulatedPerSecondStat)
  : Grouped.t EmulatedPerSecondStat :=
  Grouped.sortValues
    (fun a b => negb (Page.positive (compareStats a b)))
    (fold_left
       (fun grouped stat => Grouped.add grouped (emulatedRunId stat) stat)
       stats []).

(** The truthiness test [selectedParentRunId ? ... : ...] of a value of
    type [number | null]. *)
Definition truthyId (selected : option Z) : bool :=
  match selected with
  | Some selectedId => negb (selectedId =? 0)%Z
  | None => false
  end.

Definition selectedRuns (runs : list Page.EmulatedRun)
    (selectedParentRunId : option Z) : list Page.EmulatedRun :=
  if truthyId selectedParentRunId
  then
    match selectedParentRunId with
    | Some selectedId =>
        match Grouped.get (runsByParent runs) selectedId with
        | Some children => children
        | None => []
        end
    | None => []
    end
  else [].

Definition SERIES_COLORS : list string :=
  ["#0d9488"; "#dc2626"; "#4f46e5"; "#ca8a04";
   "#7c3aed"; "#0f766e"; "#db2777"; "#0369a1"]%string.

Section Labels.
(** The text of a number in a template string, [`${value}`]. *)
Variable numberText : number -> string.
Variable idText : Z -> string.

(** [run.congestionControlAlgorithmName ??
    (run.congestionControlAlgorithmId !== null ? `id ${...}` : "n/a")] *)
Definition ccaLabelOf (run : Page.EmulatedRun) : string :=
  match Page.congestionControlAlgorithmName run with
  | Some name => name
  | None =>
      match Page.congestionControlAlgorithmId run with
      | Some algorithm => ("id " ++ idText algorithm)%string
      | None => "n/a"%string
      end
  end.

Definition delayLabelOf (run : Page.EmulatedRun) : string :=
  match Page.delayAddedMs run with
  | Some delay => (numberText delay ++ "ms")%string
  | None => "n/a"%string
  end.

Definition formatClientSummary (run : option Page.EmulatedRun) : string :=
  match run with
  | None => "n/a"%string
  | Some r => (ccaLabelOf r ++ ", " ++ delayLabelOf r)%string
  end.

Definition formatClientDropdownSummary (run : option Page.EmulatedRun)
  : string :=
  match run with
  | None => "n/a"%string
  | Some r => (ccaLabelOf r ++ " " ++ delayLabelOf r)%string
  end.

(** [SERIES_COLORS[index % SERIES_COLORS.length]]; the index is always
    in range, so the default of [nth] is never read. *)
Definition colorAt (index : nat) : string :=
  nth (index mod List.length SERIES_COLORS) SERIES_COLORS ""%string.

Definition chartSeries (runs : list Page.EmulatedRun)
    (stats : list EmulatedPerSecondStat)
    (selectedParentRunId : option Z) : list ChartSeries :=
  mapi
    (fun run index =>
       let ccaLabel := ccaLabelOf run in
       {| runId := Page.run_id run;
          shortLabel := ccaLabel;
          label := ccaLabel;
          clientSummary := formatClientSummary (Some run);
          color := colorAt index;
          data :=
            match Grouped.get (statsByRun stats) (Page.run_id run) with
            | Some rows => rows
            | None => []
            end |})
    (selectedRuns runs selectedParentRunId).

Definition totalSampleCount (series : list ChartSeries) : nat :=
  fold_left (fun total runSeries => (total + List.length (data runSeries))%nat)
    series 0%nat.

(** [childRuns.find((run) => run.clientNumber === n) ?? null] *)
Definition findClient (clientNumber : Q) (childRuns : list Page.EmulatedRun)
  : option Page.EmulatedRun :=
  find
    (fun run =>
       match Page.clientNumber run with
       | Some client => number_eqb client (Fin clientNumber)
       | None => false
       end)
    childRuns.

Record ParentOption : Type := {
  id : Z;
  createdAt : option string;
  childRunCount : nat;
  client1Summary : string;
  client2Summary : string
}.

Definition parentOptions (parentRuns : list Page.EmulatedParentRun)
    (runs : list Page.EmulatedRun) : list ParentOption :=
  map
    (fun parentRun =>
       let childRuns :=
         match Grouped.get (runsByParent runs) (Page.id parentRun) with
         | Some children => children
         | None => []
         end in
       {| id := Page.id parentRun;
          createdAt := Page.createdAt parentRun;
          childRunCount := List.length childRuns;
          client1Summary :=
            formatClientDropdownSummary (findClient 1 childRuns);
          client2Summary :=
            formatClientDropdownSummary (findClient 2 childRuns) |})
    parentRuns.

(** [parentOptions.find((parentRun) => parentRun.id ===
    selectedParentRunId) ?? null] *)
Definition selectedParentRun (parentRuns : list Page.EmulatedParentRun)
    (runs : list Page.EmulatedRun) (selectedParentRunId : option Z)
  : option ParentOption :=
  find
    (fun parentRun =>
       match selectedParentRunId with
       | Some selectedId => (id parentRun =? selectedId)%Z
       | None => false
       end)
    (parentOptions parentRuns runs).
End Labels.
End Dashboard.

(** ** [app/page.tsx]: the rows of [emulated_per_second_stats] *)

(** [type NumericLike = string | number | null] *)
Inductive NumericLike : Type :=
| NumericNull
| NumericNumber (value : number)
| NumericString (text : string).

(** [type RawStat] *)
Record RawStat : Type := {
  raw_id : Z;
  emulated_run_id : Z;
  snapshot_index : option number;
  elapsed_seconds : NumericLike;
  megabits_per_second : NumericLike;
  round_trip_time_ms : NumericLike;
  bottleneck_queuing_delay_ms : NumericLike;
  in_flight_packets : option number;
  congestion_window_bytes : NumericLike
}.

Section RowNormalization.
(** [Number(value)] on a string. *)
Variable Number_ofString : string -> number.

Definition toNumber (value : NumericLike) : option number :=
  match value with
  | NumericNull => None
  | NumericNumber n =>
      let parsed := n in
      if Number_isFinite (Some parsed) then Some parsed else None
  | NumericString s =>
      let parsed := Number_ofString s in
      if Number_isFinite (Some parsed) then Some parsed else None
  end.

(** The callback of [statsData.map]. *)
Definition toStat (stat : RawStat) : EmulatedPerSecondStat :=
  {| id := raw_id stat;
     emulatedRunId := emulated_run_id stat;
     snapshotIndex := snapshot_index stat;
     elapsedSeconds := toNumber (elapsed_seconds stat);
     megabitsPerSecond := toNumber (megabits_per_second stat);
     roundTripTimeMs := toNumber (round_trip_time_ms stat);
     bottleneckQueuingDelayMs := toNumber (bottleneck_queuing_delay_ms stat);
     inFlightPackets := in_flight_packets stat;
     congestionWindowBytes := toNumber (congestion_window_bytes stat) |}.

(** [stats]: empty when there is no run id to query for, otherwise the
    returned rows ([statsData ?? []]) mapped. *)
Definition loadStats (runs : list Page.EmulatedRun)
    (statsData : option (list RawStat)) : list EmulatedPerSecondStat :=
  let runIds := map Page.run_id runs in
  if (0 <? List.length runIds)%nat
  then
    map toStat
      (match statsData with
       | Some rows => rows
       | None => []
       end)
  else [].
End RowNormalization.

(** [type MetricSpec] and the table [METRICS]. *)
Module MetricSpec.
Record t : Type := mk {
  id : string;
  title : string;
  unit : string;
  accessor : EmulatedPerSecondStat -> option number
}.
End MetricSpec.

Definition METRICS : list MetricSpec.t :=
  [ MetricSpec.mk "mbps" "Throughput" "Mbps" megabitsPerSecond;
    MetricSpec.mk "rtt" "Round-trip Time" "ms" roundTripTimeMs;
    MetricSpec.mk "queue" "Queueing Delay" "ms" bottleneckQueuingDelayMs
  ]%string.

(** ** [app/components/theme-toggle.tsx] *)

Module Theme.
(** [type ThemePreference = "light" | "dark" | "system"] *)
Inductive ThemePreference : Type :=
| light
| dark
| system.

(** The string that a preference is. *)
Definition toString (preference : ThemePreference) : string :=
  match preference with
  | light => "light"
  | dark => "dark"
  | system => "system"
  end.

Definition STORAGE_KEY : string := "theme-preference".

(** [window.localStorage]: the items in insertion order. *)
Module Storage.
Definition t : Type := list (string * string).

Fixpoint getItem (items : t) (key : string) : option string :=
  match items with
  | [] => None
  | (k, v) :: rest => if String.eqb k key then Some v else getItem rest key
  end.

Fixpoint setItem (items : t) (key value : string) : t :=
  match items with
  | [] => [(key, value)]
  | (k, v) :: rest =>
      if String.eqb k key then (k, value) :: rest
      else (k, v) :: setItem rest key value
  end.

Definition removeItem (items : t) (key : string) : t :=
  filter (fun entry => negb (String.eqb (fst entry) key)) items.
End Storage.

(** What the component reads and writes of the browser: the local
    storage, whether [(prefers-color-scheme: dark)] matches, whether the
    root element has the class [dark], and its [style.colorScheme]. *)
Record Window : Type := mkWindow {
  localStorage : Storage.t;
  prefersDark : bool;
  darkClass : bool;
  colorScheme : string
}.

Definition parsePreference (value : option string) : ThemePreference :=
  match value with
  | Some text =>
      if String.eqb text "light" then light
      else if String.eqb text "dark" then dark
      else if String.eqb text "system" then system
      else system
  | None => system
  end.

(** [typeof window === "undefined"] is the case [None]. *)
Definition readPreference (window : option Window) : ThemePreference :=
  match window with
  | None => system
  | Some w => parsePreference (Storage.getItem (localStorage w) STORAGE_KEY)
  end.

Definition resolveDarkMode (preference : ThemePreference) (w : Window)
  : bool :=
  match preference with
  | dark => true
  | light => false
  | system => prefersDark w
  end.

Definition applyTheme (preference : ThemePreference) (w : Window) : Window :=
  let darkMode := resolveDarkMode preference w in
  {| localStorage := localStorage w;
     prefersDark := prefersDark w;
     darkClass := darkMode;
     colorScheme := if darkMode then "dark" else "light" |}.

(** The two handlers that [subscribe] registers.  The calls of the
    listeners, here and in [setThemePreference], make React read the
    snapshot again and change nothing of the window. *)
Definition handleSystemThemeChange (w : Window) : Window :=
  match readPreference (Some w) with
  | system => applyTheme system w
  | _ => w
  end.

Definition handleStorageChange (key : option string) (w : Window) : Window :=
  match key with
  | Some k =>
      if String.eqb k STORAGE_KEY
      then applyTheme (readPreference (Some w)) w
      else w
  | None => w
  end.

Definition getServerSnapshot : ThemePreference := system.

Definition setThemePreference (nextPreference : ThemePreference)
    (window : option Window) : option Window :=
  match window with
  | None => None
  | Some w =>
      let stored :=
        {| localStorage :=
             Storage.setItem (localStorage w) STORAGE_KEY
               (toString nextPreference);
           prefersDark := prefersDark w;
           darkClass := darkClass w;
           colorScheme := colorScheme w |} in
      Some (applyTheme nextPreference stored)
  end.

(** What happens to the window of a mounted toggle: a click on one of the
    three buttons; the system theme changes and the media query fires
    [change]; another document sets or removes an item, or clears the
    storage ([event.key] is then [null]), and the window fires
    [storage]. *)
Inductive ThemeEvent : Type :=
| Click (preference : ThemePreference)
| SystemThemeChanged (matches : bool)
| ItemSet (key value : string)
| ItemRemoved (key : string)
| StorageCleared.

Definition withPrefersDark (matches : bool) (w : Window) : Window :=
  {| localStorage := localStorage w;
     prefersDark := matches;
     darkClass := darkClass w;
     colorScheme := colorScheme w |}.

Definition withLocalStorage (items : Storage.t) (w : Window) : Window :=
  {| localStorage := items;
     prefersDark := prefersDark w;
     darkClass := darkClass w;
     colorScheme := colorScheme w |}.

Definition step (w : Window) (e : ThemeEvent) : Window :=
  match e with
  | Click preference =>
      match setThemePreference preference (Some w) with
      | Some next => next
      | None => w
      end
  | SystemThemeChanged matches =>
      handleSystemThemeChange (withPrefersDark matches w)
  | ItemSet key value =>
      handleStorageChange (Some key)
        (withLocalStorage (Storage.setItem (localStorage w) key value) w)
  | ItemRemoved key =>
      handleStorageChange (Some key)
        (withLocalStorage (Storage.removeItem (localStorage w) key) w)
  | StorageCleared =>
      handleStorageChange None (withLocalStorage [] w)
  end.

(** The page shows the theme of the stored preference. *)
Definition themed (w : Window) : Prop :=
  darkClass w = resolveDarkMode (readPreference (Some w)) w /\
  colorScheme w = if darkClass w then "dark"%string else "light"%string.
End Theme.

(** * Vocabulary of the properties *)

(** A value with at most [d] decimals. *)
Definition hasDecimals (d : Z) (x : Q) : Prop :=
  exists m : Z, x == inject_Z m / pow10 d.

(** [k * 10^n] with [k] one of 1, 2, 5, 10. *)
Definition niceNumber (s : Q) : Prop :=
  exists k n : Z, In k [1; 2; 5; 10]%Z /\ s == inject_Z k * pow10 n.

(** Consecutive elements differ by [step]. *)
Definition evenlySpacedBy (step : Q) (ticks : list Q) : Prop :=
  forall i : nat,
    (S i < List.length ticks)%nat ->
    nth (S i) ticks 0 - nth i ticks 0 == step.

(** The step [buildNiceYTicks] works with once the two ends differ. *)
Definition stepOf (lo hi count : Q) : Q :=
  getNiceStep (Fin ((hi - lo) / Qmax (count - 1) 1)).



(** The normalizer in the words of its contract: the x of a point is its
    elapsed seconds if present, else its snapshot index if present, else its
    position in the array; the y is the accessor's value; a pair is kept when
    both are finite numbers; a run without kept pairs is left out. *)
Definition contractX (point : EmulatedPerSecondStat) (index : nat) : number :=
  match elapsedSeconds point with
  | Some elapsed => elapsed
  | None =>
      match snapshotIndex point with
      | Some snapshot => snapshot
      | None => Fin (inject_Z (Z.of_nat index))
      end
  end.

Definition contractPair (accessor : EmulatedPerSecondStat -> option number)
    (point : EmulatedPerSecondStat) (index : nat) : option Pt.t :=
  match contractX point index, accessor point with
  | Fin xq, Some (Fin yq) => Some (Pt.mk xq yq)
  | _, _ => None
  end.

Fixpoint contractPoints (accessor : EmulatedPerSecondStat -> option number)
    (index : nat) (stats : list EmulatedPerSecondStat) : list Pt.t :=
  match stats with
  | [] => []
  | point :: rest =>
      match contractPair accessor point index with
      | Some kept => kept :: contractPoints accessor (S index) rest
      | None => contractPoints accessor (S index) rest
      end
  end.

Fixpoint contractSeries (accessor : EmulatedPerSecondStat -> option number)
    (series : list ChartSeries) : list NSeries.t :=
  match series with
  | [] => []
  | runSeries :: rest =>
      match contractPoints accessor 0 (data runSeries) with
      | [] => contractSeries accessor rest
      | points => NSeries.mk runSeries points :: contractSeries accessor rest
      end
  end.

(** The clamped position of [v] in the range [lo, hi], as a fraction of the
    range; a degenerate range divides by [1]. *)
Definition fractionOf (lo hi v : Q) : Q :=
  (Qmax lo (Qmin hi v) - lo) / (if Qeq_bool hi lo then 1 else hi - lo).

(** An occurrence of [a] comes before an occurrence of [b] in the list. *)
Inductive precedes {A : Type} (a b : A) : list A -> Prop :=
| precedes_here (l : list A) : In b l -> precedes a b (a :: l)
| precedes_later (c : A) (l : list A) : precedes a b l -> precedes a b (c :: l).

(** [a] may stay before [b]. *)
Definition keepsBefore {A : Type} (compare_le : A -> A -> bool) (a b : A)
  : Prop :=
  compare_le a b = true.

Definition sameKey (a b : Q * Q) : Prop := fst a == fst b.

(** Every normalized point of the chart, run after run. *)
Definition allPoints (series : list ChartSeries)
    (accessor : EmulatedPerSecondStat -> option number) : list Pt.t :=
  flat_map NSeries.points (normalizedSeries series accessor).

(** The body of the inner loop that fills [sumByX]. *)
Definition addToSum (sums : NumMap.t) (point : Pt.t) : NumMap.t :=
  let roundedX := toFixedNumber 3 (Pt.xValue point) in
  let current :=
    match NumMap.get sums roundedX with
    | Some v => v
    | None => 0
    end in
  NumMap.set sums roundedX (current + Pt.yValue point).

(** The sum of the y values of the points whose x rounds to [key]. *)
Fixpoint bucketSum (key : Q) (points : list Pt.t) : Q :=
  match points with
  | [] => 0
  | point :: rest =>
      (if Qeq_bool (toFixedNumber 3 (Pt.xValue point)) key
       then Pt.yValue point else 0)
      + bucketSum key rest
  end.

Definition samePtX (a b : Pt.t) : Prop := Pt.xValue a == Pt.xValue b.

(** What [sumByX] holds after the points [points] were added. *)
Definition sumsOf (points : list Pt.t) (m : NumMap.t) : Prop :=
  NoDupA sameKey m /\
  forall key : Q,
    match NumMap.get m key with
    | Some v =>
        v == bucketSum key points /\
        exists p, In p points /\ toFixedNumber 3 (Pt.xValue p) == key
    | None => forall p, In p points -> ~ toFixedNumber 3 (Pt.xValue p) == key
    end.

Definition compareByX (a b : Pt.t) : bool :=
  Qle_bool (Pt.xValue a - Pt.xValue b) 0.

Definition entryPoint (entry : Q * Q) : Pt.t := Pt.mk (fst entry) (snd entry).

(** Sample inputs: a stat row that carries only an elapsed time and a
    throughput, and a run with the given rows. *)
Definition throughputStat (elapsed mbps : Q) : EmulatedPerSecondStat :=
  {| id := 0; emulatedRunId := 0; snapshotIndex := None;
     elapsedSeconds := Some (Fin elapsed);
     megabitsPerSecond := Some (Fin mbps);
     roundTripTimeMs := None; bottleneckQueuingDelayMs := None;
     inFlightPackets := None; congestionWindowBytes := None |}.

Definition runOf (run : Z) (rows : list EmulatedPerSecondStat) : ChartSeries :=
  {| runId := run; shortLabel := "cubic"; label := "cubic";
     clientSummary := "cubic, 50ms"; color := "#0d9488"; data := rows |}.

Definition ptEquals (a b : Pt.t) : Prop :=
  Pt.xValue a == Pt.xValue b /\ Pt.yValue a == Pt.yValue b.

(** A projected point lies inside the plot area, and on the edge that
    corresponds to the side on which its value leaves the domain. *)
Definition clampedToPlot (metricId : string) (series : list ChartSeries)
    (accessor : EmulatedPerSecondStat -> option number) (size : Size)
    (sp : Svg.t) : Prop :=
  (leftPadding size <= Svg.x sp <= chartWidth size - rightPadding size) /\
  (topPadding size <= Svg.y sp <= chartHeight size - bottomPadding size) /\
  (Svg.xValue sp < xMin -> Svg.x sp == leftPadding size) /\
  (xMax series accessor < Svg.xValue sp ->
   Svg.x sp == chartWidth size - rightPadding size) /\
  (Svg.yValue sp < yMin metricId series accessor ->
   Svg.y sp == chartHeight size - bottomPadding size) /\
  (yMax metricId series accessor < Svg.yValue sp ->
   Svg.y sp == topPadding size).

(** Every point of [points] is drawn: [svgPoints] has one projected point
    for each of them, in their order, with the values of the point and the
    pixel that [toSvgPoint] gives it. *)
Definition projectsEach (metricId : string) (series : list ChartSeries)
    (accessor : EmulatedPerSecondStat -> option number) (size : Size)
    (points : list Pt.t) (svgPoints : list Svg.t) : Prop :=
  Forall2
    (fun point sp =>
       Svg.xValue sp = Pt.xValue point /\
       Svg.yValue sp = Pt.yValue point /\
       sp = toSvgPoint metricId series accessor size point)
    points svgPoints.

(** The callback of the nearest-point [reduce]: the new point replaces the
    closest one so far only when it is strictly nearer. *)
Definition closer {A : Type} (distance : A -> Q) (closest point : A) : A :=
  if Qlt_bool (distance point) (distance closest) then point else closest.

(** [nearest] is the first element of [l] at the least distance. *)
Definition firstAtLeastDistance {A : Type} (distance : A -> Q) (l : list A)
    (nearest : A) : Prop :=
  exists i : nat,
    nth_error l i = Some nearest /\
    (forall j q, nth_error l j = Some q -> distance nearest <= distance q) /\
    (forall j q,
        (j < i)%nat -> nth_error l j = Some q ->
        distance nearest < distance q).

(** The distance in the domain between a point and the pointer. *)
Definition domainDistance (xValue : Q) (point : Svg.t) : Q :=
  Qabs (Svg.xValue point - xValue).

(** The row of the slice tooltip that belongs to one rendered series. *)
Definition sliceRow (xValue : Q) (runSeries : RSeries.t)
    (value : HoveredSliceValue.t) : Prop :=
  HoveredSliceValue.runId value = RSeries.runId runSeries /\
  HoveredSliceValue.shortLabel value = RSeries.shortLabel runSeries /\
  HoveredSliceValue.color value = RSeries.color runSeries /\
  exists nearest : Svg.t,
    firstAtLeastDistance (domainDistance xValue) (RSeries.svgPoints runSeries)
      nearest /\
    HoveredSliceValue.yValue value = Svg.yValue nearest /\
    HoveredSliceValue.pointX value = Svg.x nearest /\
    HoveredSliceValue.pointY value = Svg.y nearest.

(** The three click handlers that can set a pin. *)
Definition isPinClick (e : ChartEvent) : Prop :=
  match e with
  | PathClick _ _ _ | MarkerClick _ _ | LegendClick _ => True
  | _ => False
  end.

(** The series an event is about. *)
Definition eventSeries (e : ChartEvent) : option RSeries.t :=
  match e with
  | PathMouseEnter runSeries
  | PathMouseMove runSeries _ _
  | PathClick runSeries _ _
  | MarkerMouseEnter runSeries _
  | MarkerMouseMove runSeries _
  | MarkerClick runSeries _
  | LegendMouseEnter runSeries
  | LegendClick runSeries => Some runSeries
  | _ => None
  end.

(** A click with the pointer on an element of the chart, as the browser
    delivers it: first [pointerdown], which the listener on the document
    catches in the capture phase whatever its target (the listener is there
    while a run is pinned), then [click] on the element. *)
Definition pointerClick (click : ChartEvent) : list ChartEvent :=
  [DocumentPointerDown; click].

Section ParentRunOrder.
Variable Date_parse : string -> number.

Definition hasCreatedAt (a : Page.EmulatedParentRun) : bool :=
  Page.truthy (Page.createdAt a).

Definition createdTime (a : Page.EmulatedParentRun) : number :=
  Page.parseCreatedAt Date_parse (Page.createdAt a).

(** A parent run whose [createdAt], when present, is a date that
    [Date.parse] understands. *)
Definition wellDated (a : Page.EmulatedParentRun) : Prop :=
  hasCreatedAt a = true -> exists t : Q, createdTime a = Fin t.

(** The order of the claim: later [createdAt] first, runs without
    [createdAt] last, and the larger id first among runs that are equal so
    far. *)
Definition claimedOrder (a b : Page.EmulatedParentRun) : Prop :=
  match hasCreatedAt a, hasCreatedAt b with
  | true, true =>
      match createdTime a, createdTime b with
      | Fin ta, Fin tb =>
          tb < ta \/ (tb == ta /\ (Page.id b <= Page.id a)%Z)
      | _, _ => False
      end
  | true, false => True
  | false, true => False
  | false, false => (Page.id b <= Page.id a)%Z
  end.

(** The order of the comparator: the id only decides between two runs
    without [createdAt]. *)
Definition comparatorOrder (a b : Page.EmulatedParentRun) : Prop :=
  match hasCreatedAt a, hasCreatedAt b with
  | true, true =>
      match createdTime a, createdTime b with
      | Fin ta, Fin tb => tb <= ta
      | _, _ => False
      end
  | true, false => True
  | false, true => False
  | false, false => (Page.id b <= Page.id a)%Z
  end.

Definition parentRunLe (a b : Page.EmulatedParentRun) : bool :=
  negb (Page.positive (Page.compareParentRuns Date_parse a b)).
End ParentRunOrder.

(** ** Vocabulary of the further properties *)

(** The distance in pixels between a projected point and the pointer. *)
Definition pixelDistance (relativeX : Q) (point : Svg.t) : Q :=
  Qabs (Svg.x point - relativeX).

(** The pointer is over the plot area of the chart drawn in [rect]. *)
Definition pointerInPlot (size : Size) (rect : DOMRect.t) (clientX clientY : Q)
  : Prop :=
  let relativeX :=
    ((clientX - DOMRect.left rect) / DOMRect.width rect) * chartWidth size in
  let relativeY :=
    ((clientY - DOMRect.top rect) / DOMRect.height rect) * chartHeight size in
  leftPadding size <= relativeX <= chartWidth size - rightPadding size /\
  topPadding size <= relativeY <= chartHeight size - bottomPadding size.

(** ** Vocabulary of the hover and pin state *)

(** The pinned point, when there is one, belongs to the pinned run. *)
Definition pinConsistent (s : ChartState.t) : Prop :=
  match ChartState.pinnedPoint s with
  | Some point =>
      ChartState.pinnedRunId s = Some (HoveredChartPoint.runId point)
  | None => True
  end.

(** The mouse-leave handlers. *)
Definition isLeave (e : ChartEvent) : Prop :=
  match e with
  | SvgMouseLeave | PathMouseLeave | MarkerMouseLeave | LegendMouseLeave
  | CardMouseLeave => True
  | _ => False
  end.

(** The stats of one run, and the runs of one parent, in input order. *)
Definition statsOfRun (run : Z) (stats : list EmulatedPerSecondStat)
  : list EmulatedPerSecondStat :=
  filter (fun stat => (emulatedRunId stat =? run)%Z) stats.

Definition childrenOf (parent : Z) (runs : list Page.EmulatedRun)
  : list Page.EmulatedRun :=
  filter
    (fun run =>
       match Page.parentRunId run with
       | Some p => (p =? parent)%Z
       | None => false
       end)
    runs.

(** A stat whose snapshot index and elapsed time are finite or missing. *)
Definition finiteOrNull (value : option number) : Prop :=
  match value with
  | Some (Fin _) | None => True
  | Some _ => False
  end.

Definition sortableStat (stat : EmulatedPerSecondStat) : Prop :=
  finiteOrNull (snapshotIndex stat) /\ finiteOrNull (elapsedSeconds stat).

(** The sort key of a stat: a missing field counts as
    [Number.MAX_SAFE_INTEGER]. *)
Definition keyOrMax (value : option number) : Q :=
  match value with
  | Some (Fin q) => q
  | _ => MAX_SAFE_INTEGER
  end.

(** The order of the stats of a run: by snapshot index, then by elapsed
    seconds. *)
Definition statOrder (a b : EmulatedPerSecondStat) : Prop :=
  keyOrMax (snapshotIndex a) < keyOrMax (snapshotIndex b) \/
  (keyOrMax (snapshotIndex a) == keyOrMax (snapshotIndex b) /\
   keyOrMax (elapsedSeconds a) <= keyOrMax (elapsedSeconds b)).

(** A group exists only once it has an item. *)
Definition nonEmpty {A : Type} (l : list A) : option (list A) :=
  match l with
  | [] => None
  | _ :: _ => Some l
  end.

Definition keyIs {A : Type} (keyOf : A -> option Z) (key : Z) (item : A)
  : bool :=
  match keyOf item with
  | Some k => (k =? key)%Z
  | None => false
  end.

(** The run has the given client number. *)
Definition isClient (clientNumber : Q) (run : Page.EmulatedRun) : bool :=
  match Page.clientNumber run with
  | Some client => number_eqb client (Fin clientNumber)
  | None => false
  end.

(** The stat belongs to one of the runs. *)
Definition belongsTo (runs : list Page.EmulatedRun)
    (stat : EmulatedPerSecondStat) : bool :=
  existsb (fun run => (Page.run_id run =? emulatedRunId stat)%Z) runs.

(** What a client summary of a parent option says: "n/a" when no child run
    has the client number, otherwise the description of the child run of the
    least id among those that have it. *)
Definition summarizesClient (describe : option Page.EmulatedRun -> string)
    (clientNumber : Q) (children : list Page.EmulatedRun) (summary : string)
  : Prop :=
  (Forall (fun child => isClient clientNumber child = false) children /\
   summary = describe None) \/
  (exists child,
      In child children /\ isClient clientNumber child = true /\
      (forall other,
          In other children -> isClient clientNumber other = true ->
          (Page.run_id child <= Page.run_id other)%Z) /\
      summary = describe (Some child)).

(** The parent id is referenced by a loaded run. *)
Definition referencedBy (runs : list Page.EmulatedRun) (parent : Z) : Prop :=
  exists run, In run runs /\ Page.parentRunId run = Some parent.

(** Every entry of the lookup sits under its own id, and no key occurs
    twice. *)
Definition keyedById (m : Page.Lookup.t) : Prop :=
  Forall (fun entry => Page.id (snd entry) = fst entry) m /\
  NoDup (map fst m).

(** The run has a parent. *)
Definition hasParent (run : Page.EmulatedRun) : bool :=
  match Page.parentRunId run with
  | Some _ => true
  | None => false
  end.

(** The five cells that [toNumber] fills are finite or [null]. *)
Definition cellsFiniteOrNull (stat : EmulatedPerSecondStat) : Prop :=
  finiteOrNull (elapsedSeconds stat) /\
  finiteOrNull (megabitsPerSecond stat) /\
  finiteOrNull (roundTripTimeMs stat) /\
  finiteOrNull (bottleneckQueuingDelayMs stat) /\
  finiteOrNull (congestionWindowBytes stat).

(** The run is a child of one of the parents. *)
Definition childOfAny (parents : list Z) (run : Page.EmulatedRun) : bool :=
  match Page.parentRunId run with
  | Some p => existsb (fun parent => (p =? parent)%Z) parents
  | None => false
  end.

(** * Properties *)

(** ** Powers of ten and the decimal logarithm *)

Lemma pow10_pos (n : Z) : 0 < pow10 n.
Proof. apply Qpower_0_lt. reflexivity. Qed.

Lemma pow10_succ (n : Z) : pow10 (n + 1) == 10 * pow10 n.
Proof.
  unfold pow10. rewrite Qpower_plus by discriminate.
  change ((10 # 1) ^ 1) with (10 # 1). ring.
Qed.

Lemma pow10_le (n m : Z) : (n <= m)%Z -> pow10 n <= pow10 m.
Proof. intros H. apply Qpower_le_compat_l; [exact H | discriminate]. Qed.

Lemma pow10_lt (n m : Z) : (n < m)%Z -> pow10 n < pow10 m.
Proof. intros H. apply Qpower_lt_compat_l; [exact H | reflexivity]. Qed.

Lemma pow10_inject (k : Z) : (0 <= k)%Z -> pow10 k == inject_Z (10 ^ k).
Proof. intros H. unfold pow10. rewrite Zpower_Qpower by exact H. reflexivity. Qed.

Lemma log10_search_spec (fuel : nat) :
  forall (n hi : Z) (q : Q),
    pow10 n <= q -> q < pow10 hi -> (hi <= n + Z.of_nat fuel)%Z ->
    pow10 (log10_search fuel n q) <= q < pow10 (log10_search fuel n q + 1).
Proof.
  induction fuel as [|fuel IH]; intros n hi q Hlo Hhi Hfuel.
  - exfalso. assert (pow10 hi <= pow10 n) by (apply pow10_le; lia). lra.
  - simpl. destruct (Qle_bool (pow10 (n + 1)) q) eqn:E.
    + apply Qle_bool_iff in E. apply (IH (n + 1)%Z hi); [exact E | exact Hhi | lia].
    + split; [exact Hlo|].
      apply Qnot_le_lt. intros H. apply Qle_bool_iff in H. congruence.
Qed.

Lemma log10_hi_spec (q : Q) : 0 < q -> q < pow10 (log10_hi q).
Proof.
  intros Hq. unfold log10_hi.
  assert (Ha : (0 < Qnum q)%Z) by (unfold Qlt in Hq; simpl in Hq; lia).
  pose proof (Z.log2_spec _ Ha) as [_ Hup].
  pose proof (Z.log2_nonneg (Qnum q)) as Hnn.
  rewrite pow10_inject by lia.
  apply Qle_lt_trans with (inject_Z (Qnum q)).
  - destruct q as [a b]. unfold Qle. simpl in *. nia.
  - rewrite <- Zlt_Qlt. eapply Z.lt_le_trans; [exact Hup|].
    replace (Z.log2 (Qnum q) + 1)%Z with (Z.succ (Z.log2 (Qnum q))) by lia.
    apply Z.pow_le_mono_l. lia.
Qed.

Lemma log10_lo_spec (q : Q) : 0 < q -> pow10 (log10_lo q) <= q.
Proof.
  intros Hq. unfold log10_lo.
  assert (Ha : (0 < Qnum q)%Z) by (unfold Qlt in Hq; simpl in Hq; lia).
  pose proof (Z.log2_spec (Zpos (Qden q)) (Pos2Z.is_pos _)) as [_ Hup].
  pose proof (Z.log2_nonneg (Zpos (Qden q))) as Hnn.
  unfold pow10. rewrite Qpower_opp. fold (pow10 (Z.log2 (Z.pos (Qden q)) + 1)).
  rewrite pow10_inject by lia.
  assert (Hb : (Zpos (Qden q) < 10 ^ (Z.log2 (Z.pos (Qden q)) + 1))%Z).
  { eapply Z.lt_le_trans; [exact Hup|].
    replace (Z.log2 (Z.pos (Qden q)) + 1)%Z
      with (Z.succ (Z.log2 (Z.pos (Qden q)))) by lia.
    apply Z.pow_le_mono_l. lia. }
  set (t := (10 ^ (Z.log2 (Z.pos (Qden q)) + 1))%Z) in *.
  apply Qle_trans with (1 # Qden q).
  - apply Qle_shift_inv_r.
    + change 0 with (inject_Z 0). rewrite <- Zlt_Qlt. lia.
    + unfold Qle, Qmult. cbn [Qnum Qden inject_Z]. lia.
  - destruct q as [a b]. unfold Qle. simpl in *. nia.
Qed.

Lemma floor_log10_spec (q : Q) :
  0 < q -> pow10 (floor_log10 q) <= q < pow10 (floor_log10 q + 1).
Proof.
  intros Hq. unfold floor_log10.
  apply (log10_search_spec _ (log10_lo q) (log10_hi q)).
  - apply log10_lo_spec, Hq.
  - apply log10_hi_spec, Hq.
  - lia.
Qed.

(** ** Rounding *)

Lemma Qfloor_unique (x : Q) (z : Z) :
  inject_Z z <= x -> x < inject_Z (z + 1) -> Qfloor x = z.
Proof.
  intros Hlo Hhi.
  pose proof (Qfloor_le x) as H1. pose proof (Qlt_floor x) as H2.
  assert (A : (z < Qfloor x + 1)%Z).
  { rewrite Zlt_Qlt. eapply Qle_lt_trans; eassumption. }
  assert (B : (Qfloor x < z + 1)%Z).
  { rewrite Zlt_Qlt. eapply Qle_lt_trans; eassumption. }
  lia.
Qed.

Lemma Qfloor_minus_one (x : Q) : Qfloor (x - 1) = (Qfloor x - 1)%Z.
Proof.
  pose proof (Qfloor_le x) as H1. pose proof (Qlt_floor x) as H2.
  apply Qfloor_unique.
  - unfold Z.sub. rewrite inject_Z_plus, inject_Z_opp.
    change (inject_Z 1) with 1. lra.
  - replace (Qfloor x - 1 + 1)%Z with (Qfloor x) by lia.
    rewrite inject_Z_plus in H2. change (inject_Z 1) with 1 in H2. lra.
Qed.

Lemma toFixedNumber_id (d : Z) (x : Q) :
  hasDecimals d x -> toFixedNumber d x == x.
Proof.
  intros [m Hm]. unfold toFixedNumber.
  destruct (Qle_bool (pow10 21) (Qabs x)); [reflexivity|].
  pose proof (pow10_pos d) as Hp.
  assert (Hx : x * pow10 d == inject_Z m) by (rewrite Hm; field; lra).
  assert (Habs : Qabs x * pow10 d == inject_Z (Z.abs m)).
  { rewrite <- (Qabs_pos (pow10 d)) at 1 by lra.
    rewrite <- Qabs_Qmult, Hx.
    unfold Qabs, inject_Z. reflexivity. }
  assert (Hfl : Qfloor (Qabs x * pow10 d + (1 # 2)) = Z.abs m).
  { apply Qfloor_unique.
    - rewrite Habs. lra.
    - rewrite Habs, inject_Z_plus. change (inject_Z 1) with 1. lra. }
  rewrite Hfl.
  destruct (Qle_bool 0 x) eqn:E.
  - apply Qle_bool_iff in E.
    assert (0 <= inject_Z m) by (rewrite <- Hx; nra).
    assert ((0 <= m)%Z) by (rewrite Zle_Qle; assumption).
    rewrite Z.abs_eq by assumption. rewrite Hm. reflexivity.
  - assert (Hneg : x < 0).
    { apply Qnot_le_lt. intros H. apply Qle_bool_iff in H. congruence. }
    assert (inject_Z m < 0) by (rewrite <- Hx; nra).
    assert ((m < 0)%Z) by (rewrite Zlt_Qlt; assumption).
    rewrite Z.abs_neq by lia. rewrite inject_Z_opp, Hm. field. lra.
Qed.

Lemma hasDecimals_plus (d : Z) (x y : Q) :
  hasDecimals d x -> hasDecimals d y -> hasDecimals d (x + y).
Proof.
  intros [m Hm] [n Hn]. exists (m + n)%Z.
  pose proof (pow10_pos d). rewrite Hm, Hn, inject_Z_plus. field. lra.
Qed.

Lemma hasDecimals_mult_Z (d : Z) (z : Z) (x : Q) :
  hasDecimals d x -> hasDecimals d (inject_Z z * x).
Proof.
  intros [m Hm]. exists (z * m)%Z.
  pose proof (pow10_pos d). rewrite Hm, inject_Z_mult. field. lra.
Qed.

Lemma hasDecimals_pow10 (d n : Z) : (- d <= n)%Z -> hasDecimals d (pow10 n).
Proof.
  intros H. exists (10 ^ (n + d))%Z.
  pose proof (pow10_pos d). rewrite <- pow10_inject by lia.
  unfold pow10. rewrite Qpower_plus by discriminate. field.
  fold (pow10 d). lra.
Qed.

(** ** The snapped step *)

Lemma getNiceStep_finite (r : Q) :
  0 < r ->
  exists k : Z,
    In k [1; 2; 5; 10]%Z /\
    getNiceStep (Fin r) == inject_Z k * pow10 (floor_log10 r).
Proof.
  intros Hr. unfold getNiceStep.
  destruct (Qle_bool r 0) eqn:E.
  { apply Qle_bool_iff in E. lra. }
  cbv zeta.
  repeat match goal with
         | |- context [if ?b then _ else _] => destruct b
         end.
  - exists 1%Z. split; [simpl; tauto|]. change (inject_Z 1) with 1. ring.
  - exists 2%Z. split; [simpl; tauto|]. reflexivity.
  - exists 5%Z. split; [simpl; tauto|]. reflexivity.
  - exists 10%Z. split; [simpl; tauto|]. reflexivity.
Qed.

Lemma getNiceStep_nice (rawStep : number) : niceNumber (getNiceStep rawStep).
Proof.
  assert (One : niceNumber 1).
  { exists 1%Z, 0%Z. split; [simpl; tauto | reflexivity]. }
  destruct rawStep as [r | | |]; try exact One.
  destruct (Qlt_le_dec 0 r) as [Hr | Hr].
  - destruct (getNiceStep_finite r Hr) as [k [Hk E]].
    exists k, (floor_log10 r). split; assumption.
  - unfold getNiceStep.
    destruct (Qle_bool r 0) eqn:E; [exact One|].
    exfalso. apply Qle_bool_iff in Hr. congruence.
Qed.

Lemma niceNumber_pos (s : Q) : niceNumber s -> 0 < s.
Proof.
  intros [k [n [Hk E]]]. rewrite E. pose proof (pow10_pos n).
  simpl in Hk.
  destruct Hk as [<- | [<- | [<- | [<- | []]]]];
    match goal with
    | |- 0 < inject_Z ?z * _ => change (inject_Z z) with (z # 1)
    end; lra.
Qed.

Lemma getNiceStep_pos (rawStep : number) : 0 < getNiceStep rawStep.
Proof. apply niceNumber_pos, getNiceStep_nice. Qed.

(** ** The tick loop *)

Lemma tickFuel_step (v lim st : Q) :
  0 < st -> v <= lim -> tickFuel v lim st = S (tickFuel (v + st) lim st).
Proof.
  intros Hst Hv. unfold tickFuel. f_equal.
  assert (E : (lim - (v + st)) / st == (lim - v) / st - 1) by (field; lra).
  rewrite E, Qfloor_minus_one.
  assert (0 <= Qfloor ((lim - v) / st))%Z.
  { change 0%Z with (Qfloor 0). apply Qfloor_resp_le.
    apply Qle_shift_div_l; lra. }
  lia.
Qed.

Lemma tickLoop_stable (lim st : Q) :
  0 < st ->
  forall (f1 f2 : nat) (v : Q),
    (tickFuel v lim st <= f1)%nat -> (tickFuel v lim st <= f2)%nat ->
    tickLoop f1 v lim st = tickLoop f2 v lim st.
Proof.
  intros Hst. induction f1 as [|f1 IH]; intros f2 v H1 H2.
  - unfold tickFuel in H1. lia.
  - destruct f2 as [|f2]; [unfold tickFuel in H2; lia|].
    simpl. destruct (Qle_bool v lim) eqn:E; [|reflexivity].
    apply Qle_bool_iff in E.
    rewrite (tickFuel_step v lim st Hst E) in H1, H2.
    f_equal. apply IH; lia.
Qed.

(** With a positive step the loop of [buildNiceYTicks] ends because its
    condition fails: any larger bound gives the same ticks. *)
Lemma tickLoop_fuel_enough (v lim st : Q) (fuel : nat) :
  0 < st -> (tickFuel v lim st <= fuel)%nat ->
  tickLoop fuel v lim st = tickLoop (tickFuel v lim st) v lim st.
Proof.
  intros Hst H. apply tickLoop_stable; [exact Hst | exact H | lia].
Qed.

Lemma tickLoop_head (fuel : nat) (v lim st : Q) :
  hasDecimals 10 v ->
  forall i, (i < List.length (tickLoop fuel v lim st))%nat ->
  i = 0%nat -> nth i (tickLoop fuel v lim st) 0 == v.
Proof.
  intros Hv i Hi ->. destruct fuel as [|fuel]; simpl in *; [lia|].
  destruct (Qle_bool v lim); simpl in *; [|lia].
  apply toFixedNumber_id, Hv.
Qed.

Lemma tickLoop_evenlySpaced (lim st : Q) :
  hasDecimals 10 st ->
  forall (fuel : nat) (v : Q),
    hasDecimals 10 v -> evenlySpacedBy st (tickLoop fuel v lim st).
Proof.
  intros Hst. induction fuel as [|fuel IH]; intros v Hv i Hi.
  - simpl in Hi. lia.
  - simpl in *. destruct (Qle_bool v lim); simpl in Hi; [|lia].
    assert (Hv' : hasDecimals 10 (v + st)) by (apply hasDecimals_plus; assumption).
    destruct i as [|i].
    + cbn [nth].
      rewrite (tickLoop_head fuel (v + st) lim st Hv' 0%nat) by (lia || reflexivity).
      rewrite (toFixedNumber_id 10 v Hv). ring.
    + change (nth (S (S i)) (?a :: ?l) 0) with (nth (S i) l 0).
      change (nth (S i) (?a :: ?l) 0) with (nth i l 0).
      apply IH; [exact Hv' | lia].
Qed.

(** ** [buildNiceYTicks] *)

Lemma hasDecimals_compat (d : Z) (x y : Q) :
  x == y -> hasDecimals d x -> hasDecimals d y.
Proof. intros E [m Hm]. exists m. rewrite <- E. exact Hm. Qed.

Lemma Qeq_bool_false (a b : Q) : ~ a == b -> Qeq_bool a b = false.
Proof.
  intros H. destruct (Qeq_bool a b) eqn:E; [|reflexivity].
  apply Qeq_bool_iff in E. contradiction.
Qed.

Lemma Qeq_bool_true (a b : Q) : a == b -> Qeq_bool a b = true.
Proof. intros H. apply Qeq_bool_iff, H. Qed.

Lemma Qle_bool_false (a b : Q) : b < a -> Qle_bool a b = false.
Proof.
  intros H. destruct (Qle_bool a b) eqn:E; [|reflexivity].
  apply Qle_bool_iff in E. lra.
Qed.

Lemma Qle_bool_true (a b : Q) : a <= b -> Qle_bool a b = true.
Proof. intros H. apply Qle_bool_iff, H. Qed.

Lemma buildNiceYTicks_distinct (lo hi count : Q) :
  ~ lo == hi ->
  buildNiceYTicks (Fin lo) (Fin hi) count =
  let step := stepOf lo hi count in
  let niceMin := inject_Z (Qfloor (lo / step)) * step in
  let niceMax := inject_Z (Qceiling (hi / step)) * step in
  let limit := niceMax + step * (5 # 10) in
  Scale.mk niceMin niceMax
    (tickLoop (tickFuel niceMin limit step) niceMin limit step).
Proof.
  intros H. unfold buildNiceYTicks, stepOf.
  rewrite (Qeq_bool_false lo hi H). reflexivity.
Qed.

Lemma floor_times_step_le (v st : Q) :
  0 < st -> inject_Z (Qfloor (v / st)) * st <= v.
Proof.
  intros Hst. pose proof (Qfloor_le (v / st)) as H.
  assert (E : v == v / st * st) by (field; lra).
  rewrite E at 2. apply Qmult_le_compat_r; lra.
Qed.

Lemma le_ceiling_times_step (v st : Q) :
  0 < st -> v <= inject_Z (Qceiling (v / st)) * st.
Proof.
  intros Hst. pose proof (Qle_ceiling (v / st)) as H.
  assert (E : v == v / st * st) by (field; lra).
  rewrite E at 1. apply Qmult_le_compat_r; lra.
Qed.

Lemma buildNiceYTicks_range (lo hi count : Q) :
  ~ lo == hi ->
  Scale.min (buildNiceYTicks (Fin lo) (Fin hi) count) <= lo /\
  hi <= Scale.max (buildNiceYTicks (Fin lo) (Fin hi) count).
Proof.
  intros H. rewrite (buildNiceYTicks_distinct lo hi count H). cbv zeta.
  cbn [Scale.min Scale.max].
  pose proof (getNiceStep_pos (Fin ((hi - lo) / Qmax (count - 1) 1))) as Hst.
  fold (stepOf lo hi count) in Hst.
  split; [apply floor_times_step_le | apply le_ceiling_times_step]; exact Hst.
Qed.

Lemma tickLoop_two (fuel : nat) (v lim st : Q) :
  v + st <= lim -> 0 < st ->
  (2 <= List.length (tickLoop (S (S fuel)) v lim st))%nat.
Proof.
  intros H Hst. simpl.
  rewrite (Qle_bool_true v lim) by lra.
  rewrite (Qle_bool_true (v + st) lim) by lra.
  simpl. lia.
Qed.

Lemma buildNiceYTicks_two_ticks (lo hi count : Q) :
  lo < hi ->
  (2 <= List.length (Scale.ticks (buildNiceYTicks (Fin lo) (Fin hi) count)))%nat.
Proof.
  intros H.
  assert (Hne : ~ lo == hi) by lra.
  rewrite (buildNiceYTicks_distinct lo hi count Hne). cbv zeta.
  cbn [Scale.ticks].
  pose proof (getNiceStep_pos (Fin ((hi - lo) / Qmax (count - 1) 1))) as Hst.
  fold (stepOf lo hi count) in Hst.
  set (st := stepOf lo hi count) in *.
  pose proof (floor_times_step_le lo st Hst) as Hlo.
  pose proof (le_ceiling_times_step hi st Hst) as Hhi.
  set (a := Qfloor (lo / st)) in *. set (b := Qceiling (hi / st)) in *.
  assert (Hab : (a < b)%Z).
  { rewrite Zlt_Qlt. apply Qmult_lt_r with st; [exact Hst | lra]. }
  assert (Hstep : inject_Z a * st + st <= inject_Z b * st).
  { assert (E : inject_Z a * st + st == inject_Z (a + 1) * st)
      by (rewrite inject_Z_plus; change (inject_Z 1) with 1; ring).
    rewrite E. apply Qmult_le_compat_r; [|lra].
    rewrite <- Zle_Qle. lia. }
  unfold tickFuel.
  assert (Hf : (1 <= Qfloor ((inject_Z b * st + st * (5 # 10) - inject_Z a * st) / st))%Z).
  { change 1%Z with (Qfloor 1). apply Qfloor_resp_le.
    apply Qle_shift_div_l; lra. }
  destruct (Z.to_nat (Qfloor ((inject_Z b * st + st * (5 # 10) - inject_Z a * st) / st) + 1))
    as [|n] eqn:E; [lia|].
  apply tickLoop_two; lra.
Qed.

Lemma stepOf_decimals (lo hi : Q) :
  5 * pow10 (-10) <= hi - lo -> hasDecimals 10 (stepOf lo hi defaultCount).
Proof.
  intros Hwide. unfold stepOf.
  set (r := (hi - lo) / Qmax (defaultCount - 1) 1).
  assert (Hr : r == (hi - lo) / 5).
  { unfold r. assert (E : Qmax (defaultCount - 1) 1 == 5) by reflexivity.
    rewrite E. reflexivity. }
  pose proof (pow10_pos (-10)) as Hp.
  assert (Hr10 : pow10 (-10) <= r).
  { rewrite Hr. apply Qle_shift_div_l; lra. }
  assert (Hrpos : 0 < r) by lra.
  destruct (getNiceStep_finite r Hrpos) as [k [_ E]].
  destruct (floor_log10_spec r Hrpos) as [_ Hup].
  assert (Hn : (-10 <= floor_log10 r)%Z).
  { destruct (Z_lt_le_dec (floor_log10 r) (-10)) as [Hlt|]; [|assumption].
    exfalso.
    assert (pow10 (floor_log10 r + 1) <= pow10 (-10)) by (apply pow10_le; lia).
    lra. }
  apply (hasDecimals_compat 10 (inject_Z k * pow10 (floor_log10 r))).
  - symmetry. exact E.
  - apply hasDecimals_mult_Z, hasDecimals_pow10. lia.
Qed.






(** ** Series normalizer *)

Lemma normalizePoint_contract (accessor : EmulatedPerSecondStat -> option number)
    (point : EmulatedPerSecondStat) (index : nat) :
  normalizePoint accessor point index = contractPair accessor point index.
Proof.
  unfold normalizePoint, contractPair, contractX, nullish.
  destruct (elapsedSeconds point) as [[]|];
    destruct (snapshotIndex point) as [[]|];
    destruct (accessor point) as [[]|]; reflexivity.
Qed.

Lemma normalizePoints_contract (accessor : EmulatedPerSecondStat -> option number)
    (stats : list EmulatedPerSecondStat) :
  forall index : nat,
    filterNotNull (mapi_from index (normalizePoint accessor) stats) =
    contractPoints accessor index stats.
Proof.
  induction stats as [|point rest IH]; intros index; [reflexivity|].
  cbn [mapi_from contractPoints]. rewrite normalizePoint_contract.
  destruct (contractPair accessor point index); cbn [filterNotNull];
    rewrite IH; reflexivity.
Qed.

Lemma contractPoints_In (accessor : EmulatedPerSecondStat -> option number)
    (stats : list EmulatedPerSecondStat) :
  forall (start : nat) (kept : Pt.t),
    In kept (contractPoints accessor start stats) <->
    exists (i : nat) (point : EmulatedPerSecondStat),
      nth_error stats i = Some point /\
      contractPair accessor point (start + i) = Some kept.
Proof.
  induction stats as [|point rest IH]; intros start kept.
  - simpl. split; [tauto|]. intros [i [p [H _]]]. destruct i; discriminate.
  - cbn [contractPoints]. split.
    + intros H.
      assert (Hcases : contractPair accessor point start = Some kept \/
                       In kept (contractPoints accessor (S start) rest)).
      { destruct (contractPair accessor point start) as [pr|]; [|tauto].
        destruct H as [-> | H]; tauto. }
      destruct Hcases as [E | Hin].
      * exists 0%nat, point. rewrite Nat.add_0_r. split; [reflexivity | exact E].
      * apply IH in Hin. destruct Hin as [i [p [Hn Hp]]].
        exists (S i), p. split; [exact Hn|].
        rewrite <- Hp. f_equal. lia.
    + intros [i [p [Hn Hp]]]. destruct i as [|i].
      * simpl in Hn. injection Hn as <-. rewrite Nat.add_0_r in Hp.
        rewrite Hp. left. reflexivity.
      * simpl in Hn.
        assert (Hin : In kept (contractPoints accessor (S start) rest)).
        { apply IH. exists i, p. split; [exact Hn|].
          rewrite <- Hp. f_equal. lia. }
        destruct (contractPair accessor point start); [right|]; exact Hin.
Qed.

Lemma normalizedSeries_contract (accessor : EmulatedPerSecondStat -> option number)
    (series : list ChartSeries) :
  normalizedSeries series accessor = contractSeries accessor series.
Proof.
  unfold normalizedSeries, mapi.
  induction series as [|runSeries rest IH]; [reflexivity|].
  cbn [map filter contractSeries NSeries.points].
  rewrite normalizePoints_contract, IH.
  destruct (contractPoints accessor 0 (data runSeries)); reflexivity.
Qed.

Lemma contractSeries_In (accessor : EmulatedPerSecondStat -> option number)
    (series : list ChartSeries) (normalized : NSeries.t) :
  In normalized (contractSeries accessor series) <->
  exists runSeries : ChartSeries,
    In runSeries series /\
    normalized =
      NSeries.mk runSeries (contractPoints accessor 0 (data runSeries)) /\
    contractPoints accessor 0 (data runSeries) <> [].
Proof.
  induction series as [|runSeries rest IH].
  - simpl. split; [tauto|]. intros [r [[] _]].
  - cbn [contractSeries]. split.
    + intros H.
      destruct (contractPoints accessor 0 (data runSeries)) as [|p ps] eqn:E.
      * apply IH in H. destruct H as [r [Hr Hn]].
        exists r. split; [right; exact Hr | exact Hn].
      * destruct H as [<- | H].
        -- exists runSeries. rewrite E.
           split; [left; reflexivity|]. split; [reflexivity | discriminate].
        -- apply IH in H. destruct H as [r [Hr Hn]].
           exists r. split; [right; exact Hr | exact Hn].
    + intros [r [[<- | Hr] [Hn Hne]]].
      * destruct (contractPoints accessor 0 (data runSeries)) as [|p ps];
          [congruence|]. left. symmetry. exact Hn.
      * assert (Hin : In normalized (contractSeries accessor rest)).
        { apply IH. exists r. split; [exact Hr|]. split; assumption. }
        destruct (contractPoints accessor 0 (data runSeries)); [|right];
          exact Hin.
Qed.

(** C2: the series normalizer gives each point the x
    [elapsedSeconds ?? snapshotIndex ?? index] and the y [accessor(point)],
    keeps the pair exactly when both are finite numbers, keeps the pairs of a
    run in the order of its array, and leaves out every run without a kept
    pair, so that the chart draws no series for it. *)
Theorem normalizedSeries_meets_contract
    (accessor : EmulatedPerSecondStat -> option number)
    (series : list ChartSeries) :
  (forall point index,
      normalizePoint accessor point index = contractPair accessor point index) /\
  normalizedSeries series accessor = contractSeries accessor series /\
  (forall normalized,
      In normalized (normalizedSeries series accessor) <->
      exists runSeries,
        In runSeries series /\
        normalized =
          NSeries.mk runSeries (contractPoints accessor 0 (data runSeries)) /\
        contractPoints accessor 0 (data runSeries) <> []) /\
  (forall runSeries kept,
      In kept (contractPoints accessor 0 (data runSeries)) <->
      exists i point,
        nth_error (data runSeries) i = Some point /\
        normalizePoint accessor point i = Some kept) /\
  (forall point index yq,
      elapsedSeconds point = None -> snapshotIndex point = None ->
      accessor point = Some (Fin yq) ->
      normalizePoint accessor point index =
      Some (Pt.mk (inject_Z (Z.of_nat index)) yq)) /\
  (forall point index,
      Number_isFinite (accessor point) = false ->
      normalizePoint accessor point index = None) /\
  (forall metricId size,
      map RSeries.runId (seriesForRender metricId series accessor size) =
      map (fun normalized => runId (NSeries.series normalized))
        (normalizedSeries series accessor)).
Proof.
  split; [apply normalizePoint_contract|].
  split; [apply normalizedSeries_contract|].
  split.
  { intros normalized. rewrite normalizedSeries_contract.
    apply contractSeries_In. }
  split.
  { intros runSeries kept. rewrite contractPoints_In.
    split; intros [i [point [Hn Hp]]]; exists i, point; split;
      try exact Hn; rewrite ?normalizePoint_contract in *; exact Hp. }
  split.
  { intros point index yq He Hs Hy. unfold normalizePoint, nullish.
    rewrite He, Hs, Hy. reflexivity. }
  split.
  { intros point index Hy. unfold normalizePoint.
    rewrite Hy, orb_true_r. reflexivity. }
  intros metricId size. unfold seriesForRender. rewrite map_map. reflexivity.
Qed.

Lemma normalizedSeries_meets_contract_witness :
  normalizePoint megabitsPerSecond
    {| id := 9; emulatedRunId := 1; snapshotIndex := None;
       elapsedSeconds := None; megabitsPerSecond := Some (Fin 12);
       roundTripTimeMs := Some NaN; bottleneckQueuingDelayMs := None;
       inFlightPackets := None; congestionWindowBytes := None |} 3
  = Some (Pt.mk (inject_Z (Z.of_nat 3)) 12).
Proof.
  apply (proj1 (proj2 (proj2 (proj2 (proj2
           (normalizedSeries_meets_contract megabitsPerSecond [])))))).
  - reflexivity.
  - reflexivity.
  - reflexivity.
Defined.

(** ** The fixed throughput axis *)



(** ** Coordinate projector *)

Lemma clamp_cases (lo hi v : Q) :
  (v <= lo /\ Qmax lo (Qmin hi v) == lo) \/
  (hi <= lo /\ Qmax lo (Qmin hi v) == lo) \/
  (lo < v /\ v <= hi /\ Qmax lo (Qmin hi v) == v) \/
  (lo < hi /\ hi < v /\ Qmax lo (Qmin hi v) == hi).
Proof.
  destruct (Q.min_spec hi v) as [[H1 E1] | [H1 E1]];
    destruct (Q.max_spec lo (Qmin hi v)) as [[H2 E2] | [H2 E2]];
    rewrite E1 in *; rewrite E2.
  - right. right. right. split; [lra|]. split; [lra | reflexivity].
  - right. left. split; [lra | reflexivity].
  - right. right. left. split; [lra|]. split; [lra | reflexivity].
  - left. split; [lra | reflexivity].
Qed.

Lemma fractionOf_cases (lo hi v : Q) :
  (fractionOf lo hi v == 0 /\ (v <= lo \/ hi <= lo)) \/
  (lo < v /\ v <= hi /\ fractionOf lo hi v == (v - lo) / (hi - lo)) \/
  (lo < hi /\ hi < v /\ fractionOf lo hi v == 1).
Proof.
  unfold fractionOf.
  destruct (clamp_cases lo hi v) as [[H E] | [[H E] | [[H1 [H2 E]] | [H1 [H2 E]]]]];
    rewrite E.
  - left. split; [|left; exact H].
    destruct (Qeq_bool hi lo) eqn:D; [field|].
    assert (~ hi == lo) by (intros C; apply Qeq_bool_iff in C; congruence).
    field. lra.
  - left. split; [|right; exact H].
    destruct (Qeq_bool hi lo) eqn:D; [field|].
    assert (~ hi == lo) by (intros C; apply Qeq_bool_iff in C; congruence).
    field. lra.
  - right. left. split; [exact H1|]. split; [exact H2|].
    rewrite Qeq_bool_false by lra. reflexivity.
  - right. right. split; [exact H1|]. split; [exact H2|].
    rewrite Qeq_bool_false by lra. field. lra.
Qed.

Lemma fractionOf_unit (lo hi v : Q) : 0 <= fractionOf lo hi v <= 1.
Proof.
  destruct (fractionOf_cases lo hi v) as [[E _] | [[H1 [H2 E]] | [_ [_ E]]]];
    rewrite E; try lra.
  split.
  - apply Qle_shift_div_l; lra.
  - apply Qle_shift_div_r; lra.
Qed.


Lemma fractionOf_below (lo hi v : Q) : v < lo -> fractionOf lo hi v == 0.
Proof.
  intros H.
  destruct (fractionOf_cases lo hi v) as [[E _] | [[H1 _] | [H1 [H2 _]]]];
    [exact E | lra | lra].
Qed.

Lemma fractionOf_above (lo hi v : Q) :
  lo < hi -> hi < v -> fractionOf lo hi v == 1.
Proof.
  intros Hr H.
  destruct (fractionOf_cases lo hi v) as [[_ [C | C]] | [[_ [C _]] | [_ [_ E]]]];
    [lra | lra | lra | exact E].
Qed.

Lemma toSvgPoint_x (metricId : string) (series : list ChartSeries)
    (accessor : EmulatedPerSecondStat -> option number) (size : Size)
    (point : Pt.t) :
  Svg.x (toSvgPoint metricId series accessor size point) =
  leftPadding size
  + fractionOf xMin (xMax series accessor) (Pt.xValue point) * plotWidth size.
Proof. reflexivity. Qed.

Lemma toSvgPoint_y (metricId : string) (series : list ChartSeries)
    (accessor : EmulatedPerSecondStat -> option number) (size : Size)
    (point : Pt.t) :
  Svg.y (toSvgPoint metricId series accessor size point) =
  chartHeight size - bottomPadding size
  - fractionOf (yMin metricId series accessor) (yMax metricId series accessor)
      (Pt.yValue point)
    * plotHeight size.
Proof. reflexivity. Qed.

Lemma plot_geometry (size : Size) :
  0 < plotWidth size /\ 0 < plotHeight size /\
  leftPadding size + plotWidth size == chartWidth size - rightPadding size /\
  chartHeight size - bottomPadding size - plotHeight size == topPadding size.
Proof. destruct size; vm_compute; repeat split; discriminate. Qed.


Lemma toSvgPoint_in_plot (metricId : string) (series : list ChartSeries)
    (accessor : EmulatedPerSecondStat -> option number) (size : Size)
    (p : Pt.t) :
  let sp := toSvgPoint metricId series accessor size p in
  leftPadding size <= Svg.x sp <= chartWidth size - rightPadding size /\
  topPadding size <= Svg.y sp <= chartHeight size - bottomPadding size.
Proof.
  intros sp. unfold sp. rewrite toSvgPoint_x, toSvgPoint_y.
  destruct (plot_geometry size) as [Hw [Hh [Ex Ey]]].
  pose proof (fractionOf_unit xMin (xMax series accessor) (Pt.xValue p)) as Ux.
  pose proof (fractionOf_unit (yMin metricId series accessor)
                (yMax metricId series accessor) (Pt.yValue p)) as Uy.
  rewrite <- Ex, <- Ey. repeat split; nra.
Qed.

(** ** The stable sort *)

Section SortFacts.
Context {A : Type} (compare_le : A -> A -> bool).

Local Abbreviation before := (keepsBefore compare_le).

Lemma sort_insert_perm (a : A) (l : list A) :
  Permutation (sort_insert compare_le a l) (a :: l).
Proof.
  induction l as [|b rest IH]; simpl; [apply Permutation_refl|].
  destruct (compare_le a b); [apply Permutation_refl|].
  eapply Permutation_trans; [apply perm_skip, IH | apply perm_swap].
Qed.

Lemma Array_sort_perm (l : list A) : Permutation (Array_sort compare_le l) l.
Proof.
  induction l as [|a rest IH]; simpl; [apply Permutation_refl|].
  eapply Permutation_trans; [apply sort_insert_perm | apply perm_skip, IH].
Qed.

Lemma Array_sort_In (l : list A) (a : A) :
  In a (Array_sort compare_le l) <-> In a l.
Proof.
  split; apply Permutation_in;
    [apply Array_sort_perm | apply Permutation_sym, Array_sort_perm].
Qed.

Lemma precedes_In (a b : A) (l : list A) :
  precedes a b l -> In a l /\ In b l.
Proof.
  induction 1 as [l Hb | c l H [IHa IHb]]; simpl; auto.
Qed.

Lemma sort_insert_keeps (x a b : A) (l : list A) :
  precedes a b l -> precedes a b (sort_insert compare_le x l).
Proof.
  induction 1 as [l Hb | c l H IH]; simpl.
  - destruct (compare_le x a).
    + apply precedes_later, precedes_here, Hb.
    + apply precedes_here.
      apply (Permutation_in _ (Permutation_sym (sort_insert_perm x l))).
      right. exact Hb.
  - destruct (compare_le x c).
    + apply precedes_later, precedes_later, H.
    + apply precedes_later, IH.
Qed.

Lemma sort_insert_first (x b : A) (l : list A) :
  In b l -> before x b -> precedes x b (sort_insert compare_le x l).
Proof.
  unfold keepsBefore. induction l as [|c l IH]; simpl; [tauto|].
  intros Hb Hle. destruct (compare_le x c) eqn:E.
  - apply precedes_here. exact Hb.
  - destruct Hb as [-> | Hb]; [congruence|].
    apply precedes_later, IH; assumption.
Qed.

(** The sort is stable: an element stays before every later element that
    the comparator does not put first. *)
Lemma Array_sort_stable (a b : A) (l : list A) :
  precedes a b l -> before a b -> precedes a b (Array_sort compare_le l).
Proof.
  induction 1 as [l Hb | c l H IH]; intros Hle; simpl.
  - apply sort_insert_first; [|exact Hle].
    apply Array_sort_In, Hb.
  - apply sort_insert_keeps, IH, Hle.
Qed.

(** The comparator only has to be consistent on the elements that are
    sorted. *)
Variable good : A -> Prop.
Hypothesis compare_total :
  forall a b, good a -> good b ->
    compare_le a b = false -> compare_le b a = true.
Hypothesis compare_trans :
  forall a b c, good a -> good b -> good c ->
    before a b -> before b c -> before a c.

Lemma sort_insert_sorted (a : A) (l : list A) :
  good a -> Forall good l ->
  StronglySorted before l -> StronglySorted before (sort_insert compare_le a l).
Proof.
  intros Ha Hl Hs. induction Hs as [|b rest Hs IH Hall]; simpl.
  - constructor; constructor.
  - inversion Hl as [|? ? Hb Hrest]; subst.
    destruct (compare_le a b) eqn:E.
    + constructor; [constructor; assumption|].
      constructor; [exact E|].
      rewrite Forall_forall in *. intros c Hc.
      apply (compare_trans a b c); auto.
    + constructor; [apply IH, Hrest|].
      eapply Permutation_Forall;
        [apply Permutation_sym, sort_insert_perm|].
      constructor; [apply compare_total; assumption | exact Hall].
Qed.

Lemma Array_sort_sorted (l : list A) :
  Forall good l -> StronglySorted before (Array_sort compare_le l).
Proof.
  induction 1 as [|a rest Ha Hrest IH]; simpl; [constructor|].
  apply sort_insert_sorted; [exact Ha | | exact IH].
  eapply Permutation_Forall; [apply Permutation_sym, Array_sort_perm|].
  exact Hrest.
Qed.
End SortFacts.

Lemma StronglySorted_on {A : Type} (good : A -> Prop) (R R' : A -> A -> Prop)
    (l : list A) :
  Forall good l -> StronglySorted R l ->
  (forall a b, good a -> good b -> R a b -> R' a b) ->
  StronglySorted R' l.
Proof.
  intros Hgood Hsorted Himpl.
  induction Hsorted as [|a rest Hs IH Hfa]; constructor.
  - apply IH. inversion Hgood; assumption.
  - inversion Hgood as [|? ? Ha Hrest]; subst.
    rewrite Forall_forall in *. intros b Hb.
    apply Himpl; auto.
Qed.

(** ** The sum map *)

Lemma NumMap_get_compat (m : NumMap.t) (key key' : Q) :
  key == key' -> NumMap.get m key = NumMap.get m key'.
Proof.
  intros E. induction m as [|[k v] rest IH]; simpl; [reflexivity|].
  rewrite IH.
  destruct (Qeq_bool k key) eqn:D1, (Qeq_bool k key') eqn:D2; try reflexivity.
  - apply Qeq_bool_iff in D1.
    rewrite Qeq_bool_true in D2 by (rewrite D1; exact E). discriminate.
  - apply Qeq_bool_iff in D2.
    rewrite Qeq_bool_true in D1 by (rewrite D2; symmetry; exact E). discriminate.
Qed.

Lemma NumMap_get_set (m : NumMap.t) (key value key' : Q) :
  NumMap.get (NumMap.set m key value) key' =
  if Qeq_bool key key' then Some value else NumMap.get m key'.
Proof.
  induction m as [|[k v] rest IH]; simpl; [reflexivity|].
  destruct (Qeq_bool k key) eqn:D; simpl.
  - apply Qeq_bool_iff in D.
    destruct (Qeq_bool key key') eqn:D1.
    + apply Qeq_bool_iff in D1.
      rewrite Qeq_bool_true by (rewrite D; exact D1). reflexivity.
    + destruct (Qeq_bool k key') eqn:D2; [|reflexivity].
      apply Qeq_bool_iff in D2.
      rewrite Qeq_bool_true in D1 by (rewrite <- D; exact D2). discriminate.
  - rewrite IH.
    destruct (Qeq_bool k key') eqn:D2; [|reflexivity].
    destruct (Qeq_bool key key') eqn:D1; [|reflexivity].
    apply Qeq_bool_iff in D1, D2.
    rewrite Qeq_bool_true in D by (rewrite D2; symmetry; exact D1). discriminate.
Qed.

Lemma NumMap_set_InA (m : NumMap.t) (key value : Q) (e : Q * Q) :
  InA sameKey e (NumMap.set m key value) ->
  InA sameKey e m \/ fst e == key.
Proof.
  induction m as [|[k v] rest IH]; simpl.
  - intros H. inversion H as [? ? E | ? ? E]; subst.
    + right. exact E.
    + inversion E.
  - destruct (Qeq_bool k key) eqn:D.
    + intros H. inversion H as [? ? E | ? ? E]; subst.
      * left. constructor. exact E.
      * left. apply InA_cons_tl. exact E.
    + intros H. inversion H as [? ? E | ? ? E]; subst.
      * left. constructor. exact E.
      * destruct (IH E) as [I | I]; [left; apply InA_cons_tl; exact I | right; exact I].
Qed.

Lemma NumMap_set_NoDupA (m : NumMap.t) (key value : Q) :
  NoDupA sameKey m -> NoDupA sameKey (NumMap.set m key value).
Proof.
  induction 1 as [|[k v] rest Hnot Hnd IH]; simpl.
  - constructor; [|constructor]. intros H. inversion H.
  - destruct (Qeq_bool k key) eqn:D.
    + constructor; [|exact Hnd].
      intros H. apply Hnot.
      eapply InA_eqA with (x := (k, value)); try exact H.
      * split; unfold sameKey; [intros ?; reflexivity
        | intros ? ? ?; symmetry; assumption
        | intros ? ? ? ? ?; etransitivity; eassumption].
      * unfold sameKey. reflexivity.
    + constructor; [|exact IH].
      intros H. destruct (NumMap_set_InA _ _ _ _ H) as [I | I].
      * apply Hnot, I.
      * simpl in I. rewrite Qeq_bool_true in D by exact I. discriminate.
Qed.

Lemma NumMap_In_get (m : NumMap.t) (k v : Q) :
  NoDupA sameKey m -> In (k, v) m -> NumMap.get m k = Some v.
Proof.
  induction 1 as [|[k0 v0] rest Hnot Hnd IH]; simpl; [tauto|].
  intros [E | Hin].
  - injection E as -> ->. rewrite Qeq_bool_true by reflexivity. reflexivity.
  - destruct (Qeq_bool k0 k) eqn:D; [|apply IH, Hin].
    exfalso. apply Hnot. apply InA_alt. exists (k, v).
    split; [|exact Hin]. apply Qeq_bool_iff in D. exact D.
Qed.

Lemma NumMap_get_In (m : NumMap.t) (key v : Q) :
  NumMap.get m key = Some v -> exists k, k == key /\ In (k, v) m.
Proof.
  induction m as [|[k0 v0] rest IH]; simpl; [discriminate|].
  destruct (Qeq_bool k0 key) eqn:D.
  - intros E. injection E as ->. exists k0.
    split; [apply Qeq_bool_iff, D | left; reflexivity].
  - intros E. destruct (IH E) as [k [Hk Hin]].
    exists k. split; [exact Hk | right; exact Hin].
Qed.

(** ** The throughput sum *)

Lemma fold_left_flat_map {A B C : Type} (g : A -> C -> A) (f : B -> list C)
    (l : list B) :
  forall init : A,
    fold_left (fun acc b => fold_left g (f b) acc) l init =
    fold_left g (flat_map f l) init.
Proof.
  induction l as [|b rest IH]; intros init; simpl; [reflexivity|].
  rewrite fold_left_app. apply IH.
Qed.

Lemma sumByX_fold (series : list ChartSeries)
    (accessor : EmulatedPerSecondStat -> option number) :
  sumByX series accessor = fold_left addToSum (allPoints series accessor) [].
Proof.
  unfold sumByX, allPoints.
  apply (fold_left_flat_map addToSum NSeries.points).
Qed.

Lemma bucketSum_app (key : Q) (a b : list Pt.t) :
  bucketSum key (a ++ b) == bucketSum key a + bucketSum key b.
Proof.
  induction a as [|p rest IH]; simpl; [ring|]. rewrite IH. ring.
Qed.

Lemma bucketSum_none (key : Q) (points : list Pt.t) :
  (forall p, In p points -> ~ toFixedNumber 3 (Pt.xValue p) == key) ->
  bucketSum key points == 0.
Proof.
  induction points as [|p rest IH]; intros H; simpl; [reflexivity|].
  rewrite Qeq_bool_false by (apply H; left; reflexivity).
  rewrite IH by (intros q Hq; apply H; right; exact Hq). ring.
Qed.

Lemma addToSum_sumsOf (points : list Pt.t) (m : NumMap.t) (point : Pt.t) :
  sumsOf points m -> sumsOf (points ++ [point]) (addToSum m point).
Proof.
  intros [Hnd Hget]. split; [apply NumMap_set_NoDupA, Hnd|].
  intros key. unfold addToSum. cbv zeta. rewrite NumMap_get_set.
  set (r := toFixedNumber 3 (Pt.xValue point)).
  specialize (Hget key).
  destruct (Qeq_bool r key) eqn:D.
  - assert (E : r == key) by (apply Qeq_bool_iff, D).
    rewrite (NumMap_get_compat m r key E).
    split.
    + rewrite bucketSum_app. simpl. fold r. rewrite D.
      destruct (NumMap.get m key) as [v|].
      * destruct Hget as [Hv _]. rewrite Hv. ring.
      * rewrite (bucketSum_none key points Hget). ring.
    + exists point. split; [apply in_or_app; right; left; reflexivity | exact E].
  - destruct (NumMap.get m key) as [v|].
    + destruct Hget as [Hv [p [Hp Ep]]]. split.
      * rewrite bucketSum_app. simpl. fold r. rewrite D, Hv. ring.
      * exists p. split; [apply in_or_app; left; exact Hp | exact Ep].
    + intros p Hp. apply in_app_or in Hp. destruct Hp as [Hp | [<- | []]].
      * apply Hget, Hp.
      * intros C. fold r in C. apply Qeq_bool_iff in C. congruence.
Qed.

Lemma fold_addToSum_sumsOf (points : list Pt.t) :
  forall (before : list Pt.t) (m : NumMap.t),
    sumsOf before m -> sumsOf (before ++ points) (fold_left addToSum points m).
Proof.
  induction points as [|p rest IH]; intros before m H; simpl.
  - rewrite app_nil_r. exact H.
  - replace (before ++ p :: rest) with ((before ++ [p]) ++ rest)
      by (rewrite <- app_assoc; reflexivity).
    apply IH, addToSum_sumsOf, H.
Qed.

Lemma sumByX_sumsOf (series : list ChartSeries)
    (accessor : EmulatedPerSecondStat -> option number) :
  sumsOf (allPoints series accessor) (sumByX series accessor).
Proof.
  rewrite sumByX_fold.
  apply (fold_addToSum_sumsOf (allPoints series accessor) [] []).
  split; [constructor|]. intros key p [].
Qed.

Lemma sumPoints_unfold (series : list ChartSeries)
    (accessor : EmulatedPerSecondStat -> option number) :
  sumPoints series accessor =
  Array_sort compareByX (map entryPoint (sumByX series accessor)).
Proof. reflexivity. Qed.

Lemma sumPoints_In (series : list ChartSeries)
    (accessor : EmulatedPerSecondStat -> option number) (b : Pt.t) :
  In b (sumPoints series accessor) <->
  In (Pt.xValue b, Pt.yValue b) (sumByX series accessor).
Proof.
  rewrite sumPoints_unfold, Array_sort_In, in_map_iff. split.
  - intros [[k v] [<- H]]. exact H.
  - intros H. exists (Pt.xValue b, Pt.yValue b).
    split; [destruct b; reflexivity | exact H].
Qed.

Lemma sumPoints_bucket (series : list ChartSeries)
    (accessor : EmulatedPerSecondStat -> option number) (b : Pt.t) :
  In b (sumPoints series accessor) ->
  Pt.yValue b == bucketSum (Pt.xValue b) (allPoints series accessor) /\
  exists p,
    In p (allPoints series accessor) /\
    toFixedNumber 3 (Pt.xValue p) == Pt.xValue b.
Proof.
  intros H. apply sumPoints_In in H.
  destruct (sumByX_sumsOf series accessor) as [Hnd Hget].
  specialize (Hget (Pt.xValue b)).
  rewrite (NumMap_In_get _ _ _ Hnd H) in Hget. exact Hget.
Qed.

Lemma sumPoints_complete (series : list ChartSeries)
    (accessor : EmulatedPerSecondStat -> option number) (p : Pt.t) :
  In p (allPoints series accessor) ->
  exists b,
    In b (sumPoints series accessor) /\
    Pt.xValue b == toFixedNumber 3 (Pt.xValue p).
Proof.
  intros H.
  destruct (sumByX_sumsOf series accessor) as [_ Hget].
  specialize (Hget (toFixedNumber 3 (Pt.xValue p))).
  destruct (NumMap.get (sumByX series accessor) (toFixedNumber 3 (Pt.xValue p)))
    as [v|] eqn:E.
  - destruct (NumMap_get_In _ _ _ E) as [k [Hk Hin]].
    exists (Pt.mk k v). split; [apply sumPoints_In; exact Hin | exact Hk].
  - exfalso. apply (Hget p H). reflexivity.
Qed.

Lemma samePtX_equiv : Equivalence samePtX.
Proof.
  unfold samePtX. split.
  - intros a. reflexivity.
  - intros a b H. symmetry. exact H.
  - intros a b c H1 H2. etransitivity; eassumption.
Qed.

Lemma entryPoint_NoDupA (m : NumMap.t) :
  NoDupA sameKey m -> NoDupA samePtX (map entryPoint m).
Proof.
  induction 1 as [|e rest Hnot Hnd IH]; simpl; constructor; [|exact IH].
  intros H. apply Hnot. apply InA_alt in H. destruct H as [b [Hb Hin]].
  apply in_map_iff in Hin. destruct Hin as [e' [<- Hin]].
  apply InA_alt. exists e'. split; [exact Hb | exact Hin].
Qed.

Lemma sumPoints_NoDupA (series : list ChartSeries)
    (accessor : EmulatedPerSecondStat -> option number) :
  NoDupA samePtX (sumPoints series accessor).
Proof.
  rewrite sumPoints_unfold.
  apply (@PermutationA_preserves_NoDupA _ samePtX samePtX_equiv
           (map entryPoint (sumByX series accessor))).
  - apply (Permutation_PermutationA samePtX_equiv).
    apply Permutation_sym, Array_sort_perm.
  - apply entryPoint_NoDupA. apply (sumByX_sumsOf series accessor).
Qed.

Lemma compareByX_total (a b : Pt.t) :
  compareByX a b = false -> compareByX b a = true.
Proof.
  unfold compareByX. intros H. apply Qle_bool_iff.
  destruct (Qlt_le_dec 0 (Pt.xValue a - Pt.xValue b)) as [C | C]; [lra|].
  apply Qle_bool_iff in C. congruence.
Qed.

Lemma compareByX_trans (a b c : Pt.t) :
  compareByX a b = true -> compareByX b c = true -> compareByX a c = true.
Proof.
  unfold compareByX. intros H1 H2.
  apply Qle_bool_iff in H1, H2. apply Qle_bool_iff. lra.
Qed.

Lemma sorted_distinct_strict (l : list Pt.t) :
  StronglySorted (fun a b => compareByX a b = true) l ->
  NoDupA samePtX l ->
  StronglySorted (fun a b => Pt.xValue a < Pt.xValue b) l.
Proof.
  induction 1 as [|a rest Hs IH Hall]; intros Hnd; [constructor|].
  inversion Hnd as [|? ? Hnot Hnd']; subst.
  constructor; [apply IH, Hnd'|].
  apply Forall_forall. intros b Hb.
  rewrite Forall_forall in Hall. specialize (Hall b Hb).
  unfold compareByX in Hall. apply Qle_bool_iff in Hall.
  destruct (Qeq_dec (Pt.xValue a) (Pt.xValue b)) as [E | E].
  - exfalso. apply Hnot. apply InA_alt. exists b. split; [exact E | exact Hb].
  - lra.
Qed.

Lemma sumPoints_ascending (series : list ChartSeries)
    (accessor : EmulatedPerSecondStat -> option number) :
  StronglySorted (fun a b => Pt.xValue a < Pt.xValue b)
    (sumPoints series accessor).
Proof.
  apply sorted_distinct_strict; [|apply sumPoints_NoDupA].
  rewrite sumPoints_unfold.
  apply (Array_sort_sorted compareByX (fun _ => True)).
  - intros a b _ _. apply compareByX_total.
  - intros a b c _ _ _. apply compareByX_trans.
  - apply Forall_forall. intros a _. exact I.
Qed.

Lemma sumPoints_empty (series : list ChartSeries)
    (accessor : EmulatedPerSecondStat -> option number) :
  sumPoints series accessor = [] <-> allPoints series accessor = [].
Proof.
  split; intros H.
  - destruct (allPoints series accessor) as [|p rest] eqn:E; [reflexivity|].
    destruct (sumPoints_complete series accessor p) as [b [Hb _]].
    + rewrite E. left. reflexivity.
    + rewrite H in Hb. destruct Hb.
  - destruct (sumPoints series accessor) as [|b rest] eqn:E; [reflexivity|].
    destruct (sumPoints_bucket series accessor b) as [_ [p [Hp _]]].
    + rewrite E. left. reflexivity.
    + rewrite H in Hp. destruct Hp.
Qed.

Lemma sumPoints_jitter_example :
  Forall2 ptEquals
    (sumPoints
       [runOf 1 [throughputStat (10001 # 10000) 10];
        runOf 2 [throughputStat (10003 # 10000) 8]]
       megabitsPerSecond)
    [Pt.mk 1 18].
Proof.
  set (l := sumPoints _ _). vm_compute in l. subst l.
  repeat (apply Forall2_cons; [split; vm_compute; reflexivity|]).
  apply Forall2_nil.
Qed.

Lemma sumPoints_two_buckets_example :
  Forall2 ptEquals
    (sumPoints
       [runOf 1 [throughputStat 1 10; throughputStat 2 12];
        runOf 2 [throughputStat 2 9; throughputStat 1 8]]
       megabitsPerSecond)
    [Pt.mk 1 18; Pt.mk 2 21].
Proof.
  set (l := sumPoints _ _). vm_compute in l. subst l.
  repeat (apply Forall2_cons; [split; vm_compute; reflexivity|]).
  apply Forall2_nil.
Qed.

(** The scenario of two child runs with throughput [(0, 10), (1, 12)] and
    [(0, 8), (1, 9)]: two series and the sum series [(0, 18), (1, 21)]. *)
Lemma two_runs_scenario :
  let series :=
    [runOf 1 [throughputStat 0 10; throughputStat 1 12];
     runOf 2 [throughputStat 0 8; throughputStat 1 9]] in
  map RSeries.runId
    (interactiveSeriesForRender "mbps" series megabitsPerSecond default)
  = [1; 2; THROUGHPUT_SUM_SERIES_ID]%Z /\
  Forall2 ptEquals (sumPoints series megabitsPerSecond)
    [Pt.mk 0 18; Pt.mk 1 21].
Proof.
  intros series. split; [vm_compute; reflexivity|].
  set (l := sumPoints _ _). vm_compute in l. subst l.
  repeat (apply Forall2_cons; [split; vm_compute; reflexivity|]).
  apply Forall2_nil.
Qed.

(** C4: the throughput sum groups the normalized points of all runs by
    their x rounded to three decimals, adds the y values of each group, orders
    the groups by ascending x and yields one series labelled "sum Mbps", which
    the throughput chart draws after the series of the runs; no series is
    added when there is no group, and none on the chart of another metric.
    Points at 1.0001 and 1.0003 of two runs share the bucket 1, and points at
    1 and 2 give two buckets. *)
Theorem throughputSum_buckets (series : list ChartSeries)
    (accessor : EmulatedPerSecondStat -> option number) (size : Size) :
  let points := sumPoints series accessor in
  let all := allPoints series accessor in
  StronglySorted (fun a b => Pt.xValue a < Pt.xValue b) points /\
  (forall b,
      In b points ->
      Pt.yValue b == bucketSum (Pt.xValue b) all /\
      exists p, In p all /\ toFixedNumber 3 (Pt.xValue p) == Pt.xValue b) /\
  (forall p,
      In p all ->
      exists b, In b points /\ Pt.xValue b == toFixedNumber 3 (Pt.xValue p)) /\
  throughputSumForRender "mbps" series accessor size =
    match points with
    | [] => None
    | _ :: _ =>
        let svgPoints := map (toSvgPoint "mbps" series accessor size) points in
        Some
          (RSeries.mk THROUGHPUT_SUM_SERIES_ID "sum Mbps" "sum Mbps"
             "sum Mbps" "#eab308" [] svgPoints (toPath svgPoints))
    end /\
  interactiveSeriesForRender "mbps" series accessor size =
    seriesForRender "mbps" series accessor size ++
    match points with
    | [] => []
    | _ :: _ =>
        let svgPoints := map (toSvgPoint "mbps" series accessor size) points in
        [RSeries.mk THROUGHPUT_SUM_SERIES_ID "sum Mbps" "sum Mbps"
           "sum Mbps" "#eab308" [] svgPoints (toPath svgPoints)]
    end /\
  (forall metricId,
      metricId <> "mbps"%string ->
      interactiveSeriesForRender metricId series accessor size
      = seriesForRender metricId series accessor size) /\
  (points = [] <-> all = []) /\
  Forall2 ptEquals
    (sumPoints
       [runOf 1 [throughputStat (10001 # 10000) 10];
        runOf 2 [throughputStat (10003 # 10000) 8]]
       megabitsPerSecond)
    [Pt.mk 1 18] /\
  Forall2 ptEquals
    (sumPoints
       [runOf 1 [throughputStat 1 10; throughputStat 2 12];
        runOf 2 [throughputStat 2 9; throughputStat 1 8]]
       megabitsPerSecond)
    [Pt.mk 1 18; Pt.mk 2 21].
Proof.
  intros points all.
  split; [apply sumPoints_ascending|].
  split; [apply sumPoints_bucket|].
  split; [apply sumPoints_complete|].
  split.
  { unfold throughputSumForRender. fold points.
    change (String.eqb "mbps" "mbps") with true. cbv iota zeta.
    destruct points; reflexivity. }
  split.
  { unfold interactiveSeriesForRender, throughputSumForRender. fold points.
    change (String.eqb "mbps" "mbps") with true. cbv iota zeta.
    destruct points; cbn [List.length Nat.eqb];
      [rewrite app_nil_r|]; reflexivity. }
  split.
  { intros metricId Hne. apply String.eqb_neq in Hne.
    unfold interactiveSeriesForRender, throughputSumForRender.
    rewrite Hne. reflexivity. }
  split; [apply sumPoints_empty|].
  split; [apply sumPoints_jitter_example | apply sumPoints_two_buckets_example].
Qed.

Lemma throughputSum_buckets_witness :
  let series :=
    [runOf 1 [throughputStat 0 10; throughputStat 1 12];
     runOf 2 [throughputStat 0 8; throughputStat 1 9]] in
  let b := nth 1 (sumPoints series megabitsPerSecond) (Pt.mk 0 0) in
  Pt.yValue b == bucketSum (Pt.xValue b) (allPoints series megabitsPerSecond).
Proof.
  intros series b.
  apply (proj1 (proj2 (throughputSum_buckets series megabitsPerSecond default))
           b).
  vm_compute. right. left. reflexivity.
Defined.

(** ** The domain of a chart *)

Lemma fold_right_Qmax_init (init : Q) (l : list Q) :
  init <= fold_right Qmax init l.
Proof.
  induction l as [|a rest IH]; simpl; [lra|].
  pose proof (Q.le_max_r a (fold_right Qmax init rest)). lra.
Qed.

Lemma fold_right_Qmax_upper (init v : Q) (l : list Q) :
  In v l -> v <= fold_right Qmax init l.
Proof.
  induction l as [|a rest IH]; simpl; [tauto|].
  intros [<- | H].
  - apply Q.le_max_l.
  - pose proof (Q.le_max_r a (fold_right Qmax init rest)).
    specialize (IH H). lra.
Qed.

Lemma xMax_nonneg (series : list ChartSeries)
    (accessor : EmulatedPerSecondStat -> option number) :
  0 <= xMax series accessor.
Proof. apply fold_right_Qmax_init. Qed.

Lemma allPoints_x_le_xMax (series : list ChartSeries)
    (accessor : EmulatedPerSecondStat -> option number) (p : Pt.t) :
  In p (allPoints series accessor) -> Pt.xValue p <= xMax series accessor.
Proof.
  intros H. apply fold_right_Qmax_upper. unfold xValues.
  unfold allPoints in H. apply in_flat_map in H.
  destruct H as [runSeries [Hr Hp]].
  apply in_flat_map. exists runSeries. split; [exact Hr|].
  apply in_map, Hp.
Qed.

Lemma buildNiceYTicks_from_zero (upper : Q) :
  0 < upper ->
  Scale.min (buildNiceYTicks (Fin 0) (Fin upper) defaultCount)
  < Scale.max (buildNiceYTicks (Fin 0) (Fin upper) defaultCount).
Proof.
  intros H.
  assert (Hne : ~ 0 == upper) by lra.
  destruct (buildNiceYTicks_range 0 upper defaultCount Hne). lra.
Qed.

Lemma yScale_nondegenerate (metricId : string) (series : list ChartSeries)
    (accessor : EmulatedPerSecondStat -> option number) :
  yMin metricId series accessor < yMax metricId series accessor.
Proof.
  unfold yMin, yMax, yScale.
  destruct (String.eqb metricId "mbps"); [reflexivity|].
  destruct (Math_min (yValues series accessor)) as [lo| | |];
    destruct (Math_max (yValues series accessor)) as [hi| | |];
    apply buildNiceYTicks_from_zero; try reflexivity.
  pose proof (Q.le_max_r
                (hi + Qmax ((hi - lo) * (12 # 100)) (1 # 1000)) (1 # 1000)).
  lra.
Qed.

Lemma toFixedNumber_nonpos (d : Z) (x : Q) : x <= 0 -> toFixedNumber d x <= 0.
Proof.
  intros Hx. unfold toFixedNumber.
  destruct (Qle_bool (pow10 21) (Qabs x)); [exact Hx|].
  pose proof (pow10_pos d) as Hp.
  pose proof (Qabs_nonneg x) as Ha.
  assert (Hn : (0 <= Qfloor (Qabs x * pow10 d + (1 # 2)))%Z).
  { change 0%Z with (Qfloor 0). apply Qfloor_resp_le. nra. }
  rewrite Zle_Qle in Hn. change (inject_Z 0) with 0 in Hn.
  set (n := inject_Z (Qfloor (Qabs x * pow10 d + (1 # 2)))) in *.
  destruct (Qle_bool 0 x) eqn:E.
  - apply Qle_bool_iff in E.
    assert (Ex : x == 0) by lra.
    assert (En : n == 0).
    { unfold n. rewrite Ex.
      replace (Qfloor (Qabs 0 * pow10 d + (1 # 2))) with 0%Z; [reflexivity|].
      symmetry. apply Qfloor_unique.
      - change (Qabs 0) with 0. change (inject_Z 0) with 0. lra.
      - change (Qabs 0) with 0. change (inject_Z (0 + 1)) with 1. lra. }
    rewrite En. unfold Qdiv. lra.
  - assert (0 <= n / pow10 d) by (apply Qle_shift_div_l; lra). lra.
Qed.

(** ** Rendered points *)

Lemma interactive_points (metricId : string) (series : list ChartSeries)
    (accessor : EmulatedPerSecondStat -> option number) (size : Size)
    (runSeries : RSeries.t) (sp : Svg.t) :
  In runSeries (interactiveSeriesForRender metricId series accessor size) ->
  In sp (RSeries.svgPoints runSeries) ->
  exists p,
    sp = toSvgPoint metricId series accessor size p /\
    (In p (allPoints series accessor) \/ In p (sumPoints series accessor)).
Proof.
  intros Hrs Hsp.
  assert (Hcases :
            In runSeries (seriesForRender metricId series accessor size) \/
            throughputSumForRender metricId series accessor size = Some runSeries).
  { unfold interactiveSeriesForRender in Hrs.
    destruct (throughputSumForRender metricId series accessor size) as [s|];
      [|left; exact Hrs].
    apply in_app_or in Hrs. destruct Hrs as [H | [<- | []]]; [left | right];
      auto. }
  destruct Hcases as [H | H].
  - unfold seriesForRender in H. apply in_map_iff in H.
    destruct H as [normalized [<- Hn]]. cbn [RSeries.svgPoints] in Hsp.
    apply in_map_iff in Hsp. destruct Hsp as [p [<- Hp]].
    exists p. split; [reflexivity|]. left.
    unfold allPoints. apply in_flat_map. exists normalized. split; assumption.
  - unfold throughputSumForRender in H.
    destruct (String.eqb metricId "mbps"); [|discriminate].
    cbv zeta in H.
    destruct (List.length (sumPoints series accessor) =? 0)%nat; [discriminate|].
    injection H as <-. cbn [RSeries.svgPoints] in Hsp.
    apply in_map_iff in Hsp. destruct Hsp as [p [<- Hp]].
    exists p. split; [reflexivity|]. right. exact Hp.
Qed.

Lemma rendered_point_right_of_range (series : list ChartSeries)
    (accessor : EmulatedPerSecondStat -> option number) (p : Pt.t) :
  In p (allPoints series accessor) \/ In p (sumPoints series accessor) ->
  xMax series accessor < Pt.xValue p ->
  xMin < xMax series accessor.
Proof.
  intros Hp Hout. pose proof (xMax_nonneg series accessor) as Hn.
  destruct Hp as [Hp | Hp].
  - pose proof (allPoints_x_le_xMax series accessor p Hp). lra.
  - destruct (sumPoints_bucket series accessor p Hp) as [_ [q [Hq Eq]]].
    pose proof (allPoints_x_le_xMax series accessor q Hq) as Hqx.
    unfold xMin.
    destruct (Qlt_le_dec 0 (xMax series accessor)) as [H | H]; [exact H|].
    exfalso.
    assert (Hr : toFixedNumber 3 (Pt.xValue q) <= 0)
      by (apply toFixedNumber_nonpos; lra).
    lra.
Qed.

Lemma toSvgPoint_edges (metricId : string) (series : list ChartSeries)
    (accessor : EmulatedPerSecondStat -> option number) (size : Size)
    (p : Pt.t) :
  let projected := toSvgPoint metricId series accessor size p in
  (Pt.xValue p < xMin -> Svg.x projected == leftPadding size) /\
  (xMin < xMax series accessor -> xMax series accessor < Pt.xValue p ->
   Svg.x projected == chartWidth size - rightPadding size) /\
  (Pt.yValue p < yMin metricId series accessor ->
   Svg.y projected == chartHeight size - bottomPadding size) /\
  (yMax metricId series accessor < Pt.yValue p ->
   Svg.y projected == topPadding size).
Proof.
  intros projected. unfold projected. rewrite toSvgPoint_x, toSvgPoint_y.
  destruct (plot_geometry size) as [Hw [Hh [Ex Ey]]].
  split; [|split; [|split]].
  - intros Hout. rewrite (fractionOf_below _ _ _ Hout). ring.
  - intros Hr Hout. rewrite (fractionOf_above _ _ _ Hr Hout).
    rewrite <- Ex. ring.
  - intros Hout. rewrite (fractionOf_below _ _ _ Hout). ring.
  - intros Hout.
    rewrite (fractionOf_above _ _ _
               (yScale_nondegenerate metricId series accessor) Hout).
    rewrite <- Ey. ring.
Qed.

Lemma projectsEach_map (metricId : string) (series : list ChartSeries)
    (accessor : EmulatedPerSecondStat -> option number) (size : Size)
    (points : list Pt.t) :
  projectsEach metricId series accessor size points
    (map (toSvgPoint metricId series accessor size) points).
Proof.
  unfold projectsEach.
  induction points as [|point rest IH]; cbn [map]; constructor;
    [|exact IH].
  repeat split.
Qed.

(** C3: no point is dropped: every normalized series is rendered, with one
    projected point for each of its points, in their order, and so is the
    throughput sum.  Every point the chart draws (of a run or of the
    throughput sum) lies inside the plot area, and when its x or y value is
    outside the domain it lies exactly on the corresponding edge of the plot
    area.  The projection of any point at all stays inside the plot area and
    is on the left, bottom or top edge when the value is below [xMin], below
    [yMin] or above [yMax], and on the right edge when it is above [xMax] of
    a range that is not degenerate. *)
Theorem projector_clamps_to_plot (metricId : string)
    (series : list ChartSeries)
    (accessor : EmulatedPerSecondStat -> option number) (size : Size) :
  Forall2
    (fun normalized rendered =>
       RSeries.runId rendered = runId (NSeries.series normalized) /\
       projectsEach metricId series accessor size
         (NSeries.points normalized) (RSeries.svgPoints rendered))
    (normalizedSeries series accessor)
    (seriesForRender metricId series accessor size) /\
  (forall sumSeries,
      throughputSumForRender metricId series accessor size = Some sumSeries ->
      projectsEach metricId series accessor size
        (sumPoints series accessor) (RSeries.svgPoints sumSeries)) /\
  (forall (runSeries : RSeries.t) (sp : Svg.t),
      In runSeries (interactiveSeriesForRender metricId series accessor size) ->
      In sp (RSeries.svgPoints runSeries) ->
      clampedToPlot metricId series accessor size sp) /\
  (forall p : Pt.t,
      let projected := toSvgPoint metricId series accessor size p in
      (leftPadding size <= Svg.x projected
         <= chartWidth size - rightPadding size) /\
      (topPadding size <= Svg.y projected
         <= chartHeight size - bottomPadding size) /\
      (Pt.xValue p < xMin -> Svg.x projected == leftPadding size) /\
      (xMin < xMax series accessor -> xMax series accessor < Pt.xValue p ->
       Svg.x projected == chartWidth size - rightPadding size) /\
      (Pt.yValue p < yMin metricId series accessor ->
       Svg.y projected == chartHeight size - bottomPadding size) /\
      (yMax metricId series accessor < Pt.yValue p ->
       Svg.y projected == topPadding size)).
Proof.
  split.
  { unfold seriesForRender.
    induction (normalizedSeries series accessor) as [|normalized rest IH];
      cbn [map]; constructor; [|exact IH].
    cbn [RSeries.runId RSeries.svgPoints]. split; [reflexivity|].
    apply projectsEach_map. }
  split.
  { intros sumSeries H. unfold throughputSumForRender in H.
    destruct (String.eqb metricId "mbps"); [|discriminate H].
    cbv zeta in H.
    destruct (List.length (sumPoints series accessor) =? 0)%nat;
      [discriminate H|].
    injection H as <-. cbn [RSeries.svgPoints]. apply projectsEach_map. }
  split.
  - intros runSeries sp Hrs Hsp.
    destruct (interactive_points _ _ _ _ _ _ Hrs Hsp) as [p [-> Hp]].
    destruct (toSvgPoint_in_plot metricId series accessor size p) as [Bx By].
    destruct (toSvgPoint_edges metricId series accessor size p)
      as [El [Er [Eb Et]]].
    split; [exact Bx|]. split; [exact By|].
    cbn [Svg.xValue Svg.yValue toSvgPoint].
    split; [exact El|]. split; [|split; [exact Eb | exact Et]].
    intros Hout. apply Er; [|exact Hout].
    apply (rendered_point_right_of_range series accessor p Hp Hout).
  - intros p projected.
    destruct (toSvgPoint_in_plot metricId series accessor size p) as [Bx By].
    split; [exact Bx|]. split; [exact By|].
    apply toSvgPoint_edges.
Qed.

Lemma projector_clamps_to_plot_witness :
  let series := [runOf 1 [throughputStat 1 150; throughputStat (-2) 30]] in
  clampedToPlot "mbps" series megabitsPerSecond default
    (toSvgPoint "mbps" series megabitsPerSecond default (Pt.mk 1 150)).
Proof.
  intros series.
  eapply (proj1 (proj2 (proj2 (projector_clamps_to_plot "mbps" series
                                 megabitsPerSecond default)))).
  - vm_compute. left. reflexivity.
  - vm_compute. left. reflexivity.
Defined.




(** ** Slice hit-test *)

Section Nearest.
Context {A : Type} (distance : A -> Q).

Lemma Qlt_bool_iff (a b : Q) : Qlt_bool a b = true <-> a < b.
Proof.
  unfold Qlt_bool. rewrite negb_true_iff. split.
  - intros H. apply Qnot_le_lt. intros C. apply Qle_bool_iff in C. congruence.
  - intros H. apply Qle_bool_false, H.
Qed.

Lemma fold_closer_first (rest : list A) :
  forall first : A,
    firstAtLeastDistance distance (first :: rest)
      (fold_left (closer distance) rest first).
Proof.
  induction rest as [|a rest IH] using rev_ind; intros first.
  - exists 0%nat. simpl. split; [reflexivity|]. split.
    + intros [|j] q H; simpl in H; [injection H as <-; lra|].
      destruct j; discriminate.
    + intros j q H. lia.
  - rewrite fold_left_app. simpl.
    destruct (IH first) as [i [Hi [Hall Hbefore]]].
    set (r := fold_left (closer distance) rest first) in *.
    assert (Hlen : (i < List.length (first :: rest))%nat).
    { apply nth_error_Some. rewrite Hi. discriminate. }
    assert (Hsplit : forall j q,
               nth_error (first :: rest ++ [a]) j = Some q ->
               nth_error (first :: rest) j = Some q \/
               (j = List.length (first :: rest) /\ q = a)).
    { intros j q H. change (first :: rest ++ [a]) with ((first :: rest) ++ [a]) in H.
      destruct (Nat.lt_ge_cases j (List.length (first :: rest))) as [L | L].
      - left. rewrite nth_error_app1 in H by exact L. exact H.
      - right. rewrite nth_error_app2 in H by exact L.
        destruct (j - List.length (first :: rest))%nat as [|k] eqn:E.
        + simpl in H. injection H as <-. split; [lia | reflexivity].
        + simpl in H. destruct k; discriminate. }
    unfold closer at 1. destruct (Qlt_bool (distance a) (distance r)) eqn:D.
    + apply Qlt_bool_iff in D.
      exists (List.length (first :: rest)). split; [|split].
      * change (first :: rest ++ [a]) with ((first :: rest) ++ [a]).
        rewrite nth_error_app2 by lia. rewrite Nat.sub_diag. reflexivity.
      * intros j q H. destruct (Hsplit j q H) as [H' | [_ ->]]; [|lra].
        specialize (Hall j q H'). lra.
      * intros j q Hj H. destruct (Hsplit j q H) as [H' | [E _]]; [|lia].
        specialize (Hall j q H'). lra.
    + assert (Hge : distance r <= distance a).
      { destruct (Qlt_le_dec (distance a) (distance r)) as [C | C];
          [|exact C].
        apply Qlt_bool_iff in C. congruence. }
      exists i. split; [|split].
      * change (first :: rest ++ [a]) with ((first :: rest) ++ [a]).
        rewrite nth_error_app1 by exact Hlen. exact Hi.
      * intros j q H. destruct (Hsplit j q H) as [H' | [_ ->]];
          [apply (Hall j q H') | exact Hge].
      * intros j q Hj H. destruct (Hsplit j q H) as [H' | [E _]]; [|lia].
        apply (Hbefore j q Hj H').
Qed.

Lemma reduce1_closer (l : list A) :
  l <> [] ->
  exists nearest,
    reduce1 (closer distance) l = Some nearest /\
    firstAtLeastDistance distance l nearest.
Proof.
  destruct l as [|first rest]; [congruence|]. intros _.
  exists (fold_left (closer distance) rest first).
  split; [reflexivity | apply fold_closer_first].
Qed.
End Nearest.

Lemma nearestPointAt_first (xValue : Q) (svgPoints : list Svg.t) :
  svgPoints <> [] ->
  exists nearest,
    nearestPointAt xValue svgPoints = Some nearest /\
    firstAtLeastDistance (domainDistance xValue) svgPoints nearest.
Proof. apply (reduce1_closer (domainDistance xValue)). Qed.

Lemma sliceValues_rows (xValue : Q) (rendered : list RSeries.t) :
  (forall runSeries, In runSeries rendered -> RSeries.svgPoints runSeries <> []) ->
  exists values,
    sliceValues xValue rendered = Returned values /\
    Forall2 (sliceRow xValue) rendered values.
Proof.
  induction rendered as [|runSeries rest IH]; intros Hne.
  - exists []. split; [reflexivity | constructor].
  - destruct (nearestPointAt_first xValue (RSeries.svgPoints runSeries))
      as [nearest [E Hfirst]]; [apply Hne; left; reflexivity|].
    destruct IH as [values [Ev Hrows]];
      [intros r Hr; apply Hne; right; exact Hr|].
    simpl. rewrite E, Ev. eexists. split; [reflexivity|].
    constructor; [|exact Hrows].
    repeat split; try reflexivity.
    exists nearest. repeat split; try reflexivity. exact Hfirst.
Qed.

Lemma normalizedSeries_points_nonempty (series : list ChartSeries)
    (accessor : EmulatedPerSecondStat -> option number)
    (normalized : NSeries.t) :
  In normalized (normalizedSeries series accessor) ->
  NSeries.points normalized <> [].
Proof.
  unfold normalizedSeries. intros H. apply filter_In in H.
  destruct H as [_ H]. destruct (NSeries.points normalized); [discriminate|].
  discriminate.
Qed.

Lemma interactive_svgPoints_nonempty (metricId : string)
    (series : list ChartSeries)
    (accessor : EmulatedPerSecondStat -> option number) (size : Size)
    (runSeries : RSeries.t) :
  In runSeries (interactiveSeriesForRender metricId series accessor size) ->
  RSeries.svgPoints runSeries <> [].
Proof.
  intros Hrs.
  assert (Hcases :
            In runSeries (seriesForRender metricId series accessor size) \/
            throughputSumForRender metricId series accessor size = Some runSeries).
  { unfold interactiveSeriesForRender in Hrs.
    destruct (throughputSumForRender metricId series accessor size) as [s|];
      [|left; exact Hrs].
    apply in_app_or in Hrs. destruct Hrs as [H | [<- | []]]; [left | right];
      auto. }
  destruct Hcases as [H | H].
  - unfold seriesForRender in H. apply in_map_iff in H.
    destruct H as [normalized [<- Hn]]. cbn [RSeries.svgPoints].
    pose proof (normalizedSeries_points_nonempty _ _ _ Hn) as Hp.
    destruct (NSeries.points normalized); [congruence | discriminate].
  - unfold throughputSumForRender in H.
    destruct (String.eqb metricId "mbps"); [|discriminate].
    cbv zeta in H.
    destruct (sumPoints series accessor) as [|b rest]; [discriminate|].
    simpl in H. injection H as <-. discriminate.
Qed.

Lemma interactive_nonempty (metricId : string) (series : list ChartSeries)
    (accessor : EmulatedPerSecondStat -> option number) (size : Size) :
  normalizedSeries series accessor <> [] ->
  (List.length (interactiveSeriesForRender metricId series accessor size) =? 0)%nat
  = false.
Proof.
  intros H. apply Nat.eqb_neq. unfold interactiveSeriesForRender.
  assert (List.length (seriesForRender metricId series accessor size) <> 0%nat).
  { unfold seriesForRender. rewrite length_map.
    destruct (normalizedSeries series accessor); [congruence | discriminate]. }
  destruct (throughputSumForRender metricId series accessor size);
    [rewrite length_app; lia | assumption].
Qed.

(** Two points at the same distance from the pointer: the earlier one of the
    series is read. *)
Lemma nearestPointAt_tie_example :
  nearestPointAt 1 [Svg.mk 0 10 56 100; Svg.mk 2 12 300 90; Svg.mk 3 7 400 120]
  = Some (Svg.mk 0 10 56 100).
Proof. reflexivity. Qed.

(** C5: for a pointer inside the plot bounds the slice hit-test returns the
    domain x under the pointer and one row per rendered series, in their
    order; the row of a series reads the point of that series whose [xValue]
    has the least distance to that x, and of several points at the least
    distance the first one in the series. *)
Theorem slice_selects_domain_nearest (metricId : string)
    (series : list ChartSeries)
    (accessor : EmulatedPerSecondStat -> option number) (size : Size)
    (clientX clientY : Q) (rect : DOMRect.t) :
  let relativeX :=
    ((clientX - DOMRect.left rect) / DOMRect.width rect) * chartWidth size in
  let relativeY :=
    ((clientY - DOMRect.top rect) / DOMRect.height rect) * chartHeight size in
  normalizedSeries series accessor <> [] ->
  0 < DOMRect.width rect -> 0 < DOMRect.height rect ->
  leftPadding size <= relativeX <= chartWidth size - rightPadding size ->
  topPadding size <= relativeY <= chartHeight size - bottomPadding size ->
  exists slice : HoveredSlice.t,
    getHoveredSliceFromMouse metricId series accessor size clientX clientY
      (Some rect) = Returned (Some slice) /\
    HoveredSlice.x slice == relativeX /\
    HoveredSlice.xValue slice ==
      xMin + ((relativeX - leftPadding size) / plotWidth size)
             * xDenominator series accessor /\
    Forall2 (sliceRow (HoveredSlice.xValue slice))
      (interactiveSeriesForRender metricId series accessor size)
      (HoveredSlice.values slice).
Proof.
  intros relativeX relativeY Hseries Hw Hh [Hx1 Hx2] [Hy1 Hy2].
  unfold getHoveredSliceFromMouse.
  rewrite (interactive_nonempty metricId series accessor size Hseries).
  rewrite (Qle_bool_false _ _ Hw), (Qle_bool_false _ _ Hh).
  cbv zeta. fold relativeX relativeY. cbn [orb].
  assert (B1 : Qlt_bool relativeX (leftPadding size) = false).
  { unfold Qlt_bool. rewrite Qle_bool_true by exact Hx1. reflexivity. }
  assert (B2 : Qlt_bool (chartWidth size - rightPadding size) relativeX = false).
  { unfold Qlt_bool. rewrite Qle_bool_true by exact Hx2. reflexivity. }
  assert (B3 : Qlt_bool relativeY (topPadding size) = false).
  { unfold Qlt_bool. rewrite Qle_bool_true by exact Hy1. reflexivity. }
  assert (B4 : Qlt_bool (chartHeight size - bottomPadding size) relativeY = false).
  { unfold Qlt_bool. rewrite Qle_bool_true by exact Hy2. reflexivity. }
  rewrite B1, B2, B3, B4. cbn [orb].
  set (boundedX :=
         Qmax (leftPadding size)
           (Qmin (chartWidth size - rightPadding size) relativeX)).
  set (xValue :=
         xMin + (boundedX - leftPadding size) / Qmax (plotWidth size) 1
                * xDenominator series accessor).
  destruct (sliceValues_rows xValue
              (interactiveSeriesForRender metricId series accessor size))
    as [values [Ev Hrows]].
  { apply interactive_svgPoints_nonempty. }
  rewrite Ev. eexists. split; [reflexivity|].
  cbn [HoveredSlice.x HoveredSlice.xValue HoveredSlice.values].
  assert (Eb : boundedX == relativeX).
  { unfold boundedX.
    destruct (clamp_cases (leftPadding size)
                (chartWidth size - rightPadding size) relativeX)
      as [[H E] | [[H E] | [[H1 [H2 E]] | [H1 [H2 E]]]]]; rewrite E; lra. }
  split; [exact Eb|]. split; [|exact Hrows].
  assert (Ep : Qmax (plotWidth size) 1 == plotWidth size).
  { apply Q.max_l. destruct size; vm_compute; discriminate. }
  unfold xValue. rewrite Eb, Ep. reflexivity.
Qed.

Lemma slice_selects_domain_nearest_witness :
  exists slice : HoveredSlice.t,
    getHoveredSliceFromMouse "rtt"
      [runOf 1 [throughputStat 0 10; throughputStat 2 12];
       runOf 2 [throughputStat 1 8; throughputStat 3 9]]
      megabitsPerSecond default 249 100
      (Some (DOMRect.mk 0 0 460 220)) = Returned (Some slice) /\
    Forall2 (sliceRow (HoveredSlice.xValue slice))
      (interactiveSeriesForRender "rtt"
         [runOf 1 [throughputStat 0 10; throughputStat 2 12];
          runOf 2 [throughputStat 1 8; throughputStat 3 9]]
         megabitsPerSecond default)
      (HoveredSlice.values slice).
Proof.
  destruct (slice_selects_domain_nearest "rtt"
              [runOf 1 [throughputStat 0 10; throughputStat 2 12];
               runOf 2 [throughputStat 1 8; throughputStat 3 9]]
              megabitsPerSecond default 249 100 (DOMRect.mk 0 0 460 220))
    as [slice [E [_ [_ Hrows]]]].
  - vm_compute. discriminate.
  - reflexivity.
  - reflexivity.
  - vm_compute. split; discriminate.
  - vm_compute. split; discriminate.
  - exists slice. split; [exact E | exact Hrows].
Defined.

(** ** Pinning *)

Lemma handle_click_while_pinned (metricId : string) (series : list ChartSeries)
    (accessor : EmulatedPerSecondStat -> option number) (size : Size)
    (s : ChartState.t) (e : ChartEvent) :
  ChartState.pinnedRunId s <> None -> isPinClick e ->
  handle metricId series accessor size s e = s.
Proof.
  intros Hp He. destruct (ChartState.pinnedRunId s) as [pinned|] eqn:E;
    [|congruence].
  destruct e; simpl in He; try contradiction; simpl; rewrite E; reflexivity.
Qed.

(** C6 (the code departs from the claim): while a series is pinned, a
    pointer-down caught by the document listener clears the pin and all hover
    state, and a click handler that runs while the pin is set returns at
    once.  But the listener does not look at the target of the pointer-down:
    the pointer-down of a click on a path, a marker or a legend chip clears
    the pin before the click handler runs, so the click is not a no-op: it
    pins the series that was clicked, also when another series was pinned. *)
Theorem pointer_click_while_pinned_pins_again (metricId : string)
    (series : list ChartSeries)
    (accessor : EmulatedPerSecondStat -> option number) (size : Size)
    (s : ChartState.t) (e : ChartEvent) (runSeries : RSeries.t) :
  ChartState.pinnedRunId s <> None ->
  isPinClick e ->
  eventSeries e = Some runSeries ->
  let step := handle metricId series accessor size in
  let cleared := step s DocumentPointerDown in
  let after := handleAll metricId series accessor size s (pointerClick e) in
  cleared = ChartState.mk None None None None None /\
  activeRunId cleared = None /\
  displayedPoint cleared = None /\
  step s e = s /\
  after = step cleared e /\
  ChartState.pinnedRunId after = Some (RSeries.runId runSeries) /\
  (ChartState.pinnedRunId s <> Some (RSeries.runId runSeries) ->
   after <> s).
Proof.
  intros Hp He Hs step cleared after.
  assert (Ec : cleared = ChartState.mk None None None None None).
  { unfold cleared, step. simpl.
    destruct (ChartState.pinnedRunId s); [reflexivity | congruence]. }
  assert (Ea : after = step cleared e) by reflexivity.
  assert (Epin : ChartState.pinnedRunId after = Some (RSeries.runId runSeries)).
  { rewrite Ea, Ec. unfold step.
    destruct e; simpl in He; try contradiction; simpl in Hs;
      injection Hs as ->; simpl; [|reflexivity|reflexivity].
    destruct (getClosestPointFromMouse size runSeries clientX svgElement);
      reflexivity. }
  split; [exact Ec|]. rewrite Ec.
  split; [reflexivity|]. split; [reflexivity|].
  split; [apply handle_click_while_pinned; assumption|].
  split; [rewrite <- Ec; exact Ea|].
  split; [exact Epin|].
  intros Hother Eq. apply Hother. rewrite <- Eq. exact Epin.
Qed.

Lemma pointer_click_while_pinned_pins_again_witness :
  let first := RSeries.mk 1 "cubic" "cubic" "cubic, 50ms" "#0d9488" [] [] [] in
  let second := RSeries.mk 2 "bbr" "bbr" "bbr, 50ms" "#dc2626" [] [] [] in
  let run := handleAll "mbps" [] megabitsPerSecond default in
  let pinned := run ChartState.initial (pointerClick (LegendClick first)) in
  ChartState.pinnedRunId pinned = Some 1%Z /\
  ChartState.pinnedRunId (run pinned (pointerClick (LegendClick second)))
  = Some 2%Z.
Proof.
  intros first second run pinned.
  split; [reflexivity|].
  refine (proj1 (proj2 (proj2 (proj2 (proj2 (proj2
            (pointer_click_while_pinned_pins_again "mbps" []
               megabitsPerSecond default pinned (LegendClick second) second
               _ I eq_refl))))))).
  discriminate.
Defined.

(** ** Ordering of the parent runs *)

Section ParentRunOrderFacts.
Variable Date_parse : string -> number.

Local Abbreviation createdTime := (createdTime Date_parse).
Local Abbreviation wellDated := (wellDated Date_parse).
Local Abbreviation comparatorOrder := (comparatorOrder Date_parse).
Local Abbreviation parentRunLe := (parentRunLe Date_parse).

Lemma parentRunLe_order (a b : Page.EmulatedParentRun) :
  wellDated a -> wellDated b ->
  (parentRunLe a b = true <-> comparatorOrder a b).
Proof.
  unfold wellDated, parentRunLe, comparatorOrder, Page.compareParentRuns,
    hasCreatedAt, createdTime.
  intros Ha Hb.
  destruct (Page.truthy (Page.createdAt a)) eqn:Ta;
    destruct (Page.truthy (Page.createdAt b)) eqn:Tb; cbn [andb].
  - destruct (Ha eq_refl) as [ta ->]. destruct (Hb eq_refl) as [tb ->].
    cbn [Page.number_sub Page.positive]. rewrite negb_true_iff.
    split; intros H.
    + destruct (Qlt_le_dec ta tb) as [C | C]; [|exact C].
      assert (Qlt_bool 0 (tb - ta) = true) by (apply Qlt_bool_iff; lra).
      congruence.
    + destruct (Qlt_bool 0 (tb - ta)) eqn:E; [|reflexivity].
      apply Qlt_bool_iff in E. lra.
  - cbn. tauto.
  - cbn. split; [discriminate | tauto].
  - cbn [Page.positive]. rewrite negb_true_iff. split; intros H.
    + destruct (Z_lt_le_dec (Page.id a) (Page.id b)) as [C | C]; [|exact C].
      assert (Qlt_bool 0 (inject_Z (Page.id b) - inject_Z (Page.id a)) = true).
      { apply Qlt_bool_iff. rewrite Zlt_Qlt in C. lra. }
      congruence.
    + destruct (Qlt_bool 0 (inject_Z (Page.id b) - inject_Z (Page.id a)))
        eqn:E; [|reflexivity].
      apply Qlt_bool_iff in E. rewrite Zle_Qle in H. lra.
Qed.

Lemma comparatorOrder_total (a b : Page.EmulatedParentRun) :
  wellDated a -> wellDated b -> comparatorOrder a b \/ comparatorOrder b a.
Proof.
  unfold wellDated, comparatorOrder. intros Ha Hb.
  destruct (hasCreatedAt a), (hasCreatedAt b); try tauto.
  - destruct (Ha eq_refl) as [ta ->]. destruct (Hb eq_refl) as [tb ->].
    destruct (Qlt_le_dec ta tb); [right | left]; lra.
  - lia.
Qed.

Lemma comparatorOrder_trans (a b c : Page.EmulatedParentRun) :
  wellDated a -> wellDated b -> wellDated c ->
  comparatorOrder a b -> comparatorOrder b c -> comparatorOrder a c.
Proof.
  unfold wellDated, comparatorOrder. intros Ha Hb Hc.
  destruct (hasCreatedAt a), (hasCreatedAt b), (hasCreatedAt c);
    try tauto; try lia.
  destruct (Ha eq_refl) as [ta ->]. destruct (Hb eq_refl) as [tb ->].
  destruct (Hc eq_refl) as [tc ->]. lra.
Qed.

Lemma Lookup_set_values (m : Page.Lookup.t) (key : Z)
    (value v : Page.EmulatedParentRun) :
  In v (Page.Lookup.values (Page.Lookup.set m key value)) ->
  In v (Page.Lookup.values m) \/ v = value.
Proof.
  unfold Page.Lookup.values.
  induction m as [|[k w] rest IH]; simpl.
  - intros [<- | []]. right. reflexivity.
  - destruct (k =? key)%Z; simpl.
    + intros [<- | H]; [right; reflexivity | left; right; exact H].
    + intros [<- | H]; [left; left; reflexivity|].
      destruct (IH H) as [I | I]; [left; right; exact I | right; exact I].
Qed.

Lemma parentRunLookup_values (parentRuns : list Page.EmulatedParentRun)
    (runs : list Page.EmulatedRun) (v : Page.EmulatedParentRun) :
  In v (Page.Lookup.values (Page.parentRunLookup parentRuns runs)) ->
  In v parentRuns \/ Page.createdAt v = None.
Proof.
  set (known := fun w : Page.EmulatedParentRun =>
                  In w parentRuns \/ Page.createdAt w = None).
  assert (Hparents :
            forall (l : list Page.EmulatedParentRun) (m : Page.Lookup.t),
              (forall w, In w l -> known w) ->
              (forall w, In w (Page.Lookup.values m) -> known w) ->
              forall w,
                In w (Page.Lookup.values
                        (fold_left
                           (fun lookup parentRun =>
                              Page.Lookup.set lookup (Page.id parentRun)
                                parentRun)
                           l m)) ->
                known w).
  { induction l as [|p rest IH]; intros m Hl Hm w H; simpl in H;
      [apply Hm, H|].
    apply (IH (Page.Lookup.set m (Page.id p) p)); try exact H.
    - intros u Hu. apply Hl. right. exact Hu.
    - intros u Hu. destruct (Lookup_set_values _ _ _ _ Hu) as [I | ->];
        [apply Hm, I | apply Hl; left; reflexivity]. }
  assert (Hruns :
            forall (l : list Page.EmulatedRun) (m : Page.Lookup.t),
              (forall w, In w (Page.Lookup.values m) -> known w) ->
              forall w,
                In w (Page.Lookup.values
                        (fold_left
                           (fun lookup run =>
                              match Page.parentRunId run with
                              | Some parent =>
                                  if negb (Page.Lookup.has lookup parent)
                                  then Page.Lookup.set lookup parent
                                         (Page.mkParentRun parent None)
                                  else lookup
                              | None => lookup
                              end)
                           l m)) ->
                known w).
  { induction l as [|run rest IH]; intros m Hm w H; simpl in H;
      [apply Hm, H|].
    refine (IH _ _ w H). intros u Hu.
    destruct (Page.parentRunId run) as [parent|]; [|apply Hm, Hu].
    destruct (negb (Page.Lookup.has m parent)); [|apply Hm, Hu].
    destruct (Lookup_set_values _ _ _ _ Hu) as [I | ->];
      [apply Hm, I | right; reflexivity]. }
  intros H. unfold Page.parentRunLookup in H.
  refine (Hruns _ _ _ v H). intros u Hu.
  apply (Hparents parentRuns []); try exact Hu.
  - intros w Hw. left. exact Hw.
  - intros w [].
Qed.

(** C9 (amended): when every [createdAt] that is present parses as a
    date, the merged parent runs are ordered by [createdAt] descending with
    the runs without [createdAt] last, and the id, descending, orders the
    runs without [createdAt]; the sort only rearranges the merged runs, and
    two runs that the comparator leaves in place (such as runs with equal
    [createdAt] times) keep the order in which they entered the lookup. *)
Theorem mergedParentRuns_sorted (parentRuns : list Page.EmulatedParentRun)
    (runs : list Page.EmulatedRun) :
  Forall wellDated parentRuns ->
  let lookup := Page.parentRunLookup parentRuns runs in
  let merged := Page.mergedParentRuns Date_parse parentRuns runs in
  StronglySorted comparatorOrder merged /\
  Permutation merged (Page.Lookup.values lookup) /\
  (forall a b,
      precedes a b (Page.Lookup.values lookup) ->
      comparatorOrder a b -> precedes a b merged).
Proof.
  intros Hdated lookup merged.
  assert (Hall : Forall wellDated (Page.Lookup.values lookup)).
  { apply Forall_forall. intros v Hv.
    destruct (parentRunLookup_values _ _ _ Hv) as [H | H].
    - rewrite Forall_forall in Hdated. apply Hdated, H.
    - intros Ht. unfold hasCreatedAt in Ht. rewrite H in Ht.
      discriminate Ht. }
  assert (Em : merged = Array_sort parentRunLe (Page.Lookup.values lookup))
    by reflexivity.
  rewrite Em.
  split; [|split; [apply Array_sort_perm|]].
  - assert (Hsorted :
              StronglySorted (keepsBefore parentRunLe)
                (Array_sort parentRunLe (Page.Lookup.values lookup))).
    { apply (Array_sort_sorted parentRunLe wellDated); [| |exact Hall].
      - intros a b Ha Hb H.
        apply (parentRunLe_order b a Hb Ha).
        destruct (comparatorOrder_total a b Ha Hb) as [C | C]; [|exact C].
        apply (parentRunLe_order a b Ha Hb) in C. congruence.
      - intros a b c Ha Hb Hc H1 H2.
        apply (parentRunLe_order a c Ha Hc).
        apply (comparatorOrder_trans a b c Ha Hb Hc);
          [apply (parentRunLe_order a b Ha Hb)
          | apply (parentRunLe_order b c Hb Hc)];
          assumption. }
    assert (Hgood :
              Forall wellDated
                (Array_sort parentRunLe (Page.Lookup.values lookup))).
    { eapply Permutation_Forall; [apply Permutation_sym, Array_sort_perm|].
      exact Hall. }
    apply (StronglySorted_on wellDated (keepsBefore parentRunLe));
      [exact Hgood | exact Hsorted|].
    intros a b Ha Hb H. apply (parentRunLe_order a b Ha Hb). exact H.
  - intros a b Hab Hord.
    apply Array_sort_stable; [exact Hab|].
    destruct (precedes_In a b _ Hab) as [Ia Ib].
    rewrite Forall_forall in Hall.
    apply (parentRunLe_order a b (Hall a Ia) (Hall b Ib)). exact Hord.
Qed.
End ParentRunOrderFacts.

(** C9 (as stated): the merged parent runs are ordered by [createdAt]
    descending, missing [createdAt] last, and by id descending among runs
    equal so far.  Two parent runs with the same [createdAt] keep the order
    in which they were loaded, whatever [Date.parse] makes of the date: ids 1
    and 2 come out as 1, 2. *)
Lemma mergedParentRuns_equal_dates_keep_input_order :
  ~ (exists Date_parse : string -> number,
        StronglySorted (claimedOrder Date_parse)
          (Page.mergedParentRuns Date_parse
             [Page.mkParentRun 1 (Some "2024-01-01T00:00:00Z"%string);
              Page.mkParentRun 2 (Some "2024-01-01T00:00:00Z"%string)]
             [])).
Proof.
  intros [Date_parse H].
  set (first := Page.mkParentRun 1 (Some "2024-01-01T00:00:00Z"%string)) in *.
  set (second := Page.mkParentRun 2 (Some "2024-01-01T00:00:00Z"%string)) in *.
  assert (Hkeep : parentRunLe Date_parse first second = true).
  { unfold parentRunLe, Page.compareParentRuns. simpl.
    destruct (Date_parse "2024-01-01T00:00:00Z"%string) as [t| | |]; simpl;
      try reflexivity.
    rewrite negb_true_iff. unfold Qlt_bool. rewrite negb_false_iff.
    apply Qle_bool_iff. lra. }
  assert (Em : Page.mergedParentRuns Date_parse [first; second] []
               = [first; second]).
  { unfold Page.mergedParentRuns. fold (parentRunLe Date_parse).
    change (Page.Lookup.values (Page.parentRunLookup [first; second] []))
      with [first; second].
    simpl. rewrite Hkeep. reflexivity. }
  rewrite Em in H.
  inversion H as [|? ? _ Hall]; subst.
  inversion Hall as [|? ? Hc _]; subst.
  unfold claimedOrder, hasCreatedAt, createdTime in Hc. simpl in Hc.
  destruct (Date_parse "2024-01-01T00:00:00Z"%string) as [t| | |]; try contradiction.
  destruct Hc as [C | [_ C]]; [lra | lia].
Qed.

Lemma mergedParentRuns_sorted_witness :
  StronglySorted (comparatorOrder (fun _ => Fin 0))
    (Page.mergedParentRuns (fun _ => Fin 0)
       [Page.mkParentRun 1 (Some "2024-01-01T00:00:00Z"%string);
        Page.mkParentRun 2 None]
       [Page.mkRun 7 "2024-01-02T00:00:00Z" (Some 3%Z) None None None None]).
Proof.
  apply (mergedParentRuns_sorted (fun _ => Fin 0)).
  repeat constructor.
  - intros _. exists 0. reflexivity.
  - intros C. vm_compute in C. discriminate C.
Defined.

(** * Further properties *)

(** ** The ticks of a scale *)

Lemma tickLoop_length (lim st : Q) :
  0 < st ->
  forall (n fuel : nat) (v : Q),
    (n + 2 <= fuel)%nat ->
    v + inject_Z (Z.of_nat n) * st <= lim ->
    lim < v + inject_Z (Z.of_nat n + 1) * st ->
    List.length (tickLoop fuel v lim st) = S n.
Proof.
  intros Hst. induction n as [|n IH]; intros fuel v Hf Hlo Hhi.
  - destruct fuel as [|[|fuel]]; try lia. simpl.
    change (inject_Z (Z.of_nat 0)) with 0 in Hlo.
    change (inject_Z (Z.of_nat 0 + 1)) with 1 in Hhi.
    rewrite (Qle_bool_true v lim) by lra.
    rewrite (Qle_bool_false (v + st) lim) by lra. reflexivity.
  - destruct fuel as [|fuel]; try lia. cbn [tickLoop].
    rewrite Nat2Z.inj_succ in Hlo, Hhi. unfold Z.succ in Hlo, Hhi.
    rewrite !inject_Z_plus in Hlo, Hhi. change (inject_Z 1) with 1 in Hlo, Hhi.
    assert (0 <= inject_Z (Z.of_nat n)).
    { change 0 with (inject_Z 0). rewrite <- Zle_Qle. lia. }
    assert (0 <= inject_Z (Z.of_nat n) * st)
      by (apply Qmult_le_0_compat; lra).
    rewrite (Qle_bool_true v lim) by lra.
    cbn [List.length]. f_equal. apply IH; [lia | |].
    + lra.
    + rewrite inject_Z_plus. rewrite inject_Z_plus in Hhi.
      change (inject_Z 1) with 1 in *. lra.
Qed.

Lemma buildNiceYTicks_length (lo hi count : Q) :
  lo < hi ->
  let step := stepOf lo hi count in
  List.length (Scale.ticks (buildNiceYTicks (Fin lo) (Fin hi) count)) =
  Z.to_nat (Qceiling (hi / step) - Qfloor (lo / step) + 1).
Proof.
  intros Hlt step.
  assert (Hne : ~ lo == hi) by lra.
  rewrite (buildNiceYTicks_distinct lo hi count Hne). cbv zeta.
  cbn [Scale.ticks]. fold step.
  pose proof (getNiceStep_pos (Fin ((hi - lo) / Qmax (count - 1) 1))) as Hst.
  fold (stepOf lo hi count) in Hst. fold step in Hst.
  pose proof (floor_times_step_le lo step Hst) as Hlo.
  pose proof (le_ceiling_times_step hi step Hst) as Hhi.
  set (a := Qfloor (lo / step)) in *. set (b := Qceiling (hi / step)) in *.
  assert (Hab : (a < b)%Z).
  { rewrite Zlt_Qlt. apply Qmult_lt_r with step; [exact Hst | lra]. }
  assert (Ef : Qfloor ((inject_Z b * step + step * (5 # 10) - inject_Z a * step)
                       / step) = (b - a)%Z).
  { apply Qfloor_unique.
    - unfold Z.sub. rewrite inject_Z_plus, inject_Z_opp.
      apply Qle_shift_div_l; [exact Hst | nra].
    - unfold Z.sub. rewrite !inject_Z_plus, inject_Z_opp.
      change (inject_Z 1) with 1.
      apply Qlt_shift_div_r; [exact Hst | nra]. }
  unfold tickFuel. rewrite Ef.
  replace (Z.to_nat (b - a + 1)) with (S (Z.to_nat (b - a))) by lia.
  apply tickLoop_length; [exact Hst | lia | |].
  - rewrite Z2Nat.id by lia. unfold Z.sub.
    rewrite inject_Z_plus, inject_Z_opp. nra.
  - rewrite Z2Nat.id by lia. unfold Z.sub.
    rewrite !inject_Z_plus, inject_Z_opp. change (inject_Z 1) with 1. nra.
Qed.

Lemma tick_count_and_span (minValue maxValue : Q) :
  minValue < maxValue ->
  let s := buildNiceYTicks (Fin minValue) (Fin maxValue) defaultCount in
  let step := stepOf minValue maxValue defaultCount in
  Z.of_nat (List.length (Scale.ticks s))
  = (Qceiling (maxValue / step) - Qfloor (minValue / step) + 1)%Z /\
  Scale.max s - Scale.min s
  == inject_Z (Z.of_nat (List.length (Scale.ticks s)) - 1) * step.
Proof.
  intros Hlt s step.
  pose proof (buildNiceYTicks_length minValue maxValue defaultCount Hlt) as Hlen.
  cbv zeta in Hlen. fold s step in Hlen.
  assert (Hne : ~ minValue == maxValue) by lra.
  assert (Hst : 0 < step) by apply getNiceStep_pos.
  pose proof (floor_times_step_le minValue step Hst) as Hlo.
  pose proof (le_ceiling_times_step maxValue step Hst) as Hhi.
  set (a := Qfloor (minValue / step)) in *.
  set (b := Qceiling (maxValue / step)) in *.
  assert (Hab : (a < b)%Z).
  { rewrite Zlt_Qlt. nra. }
  split; [rewrite Hlen; lia|].
  rewrite Hlen. unfold s.
  rewrite (buildNiceYTicks_distinct _ _ _ Hne). cbv zeta.
  cbn [Scale.min Scale.max]. fold step. fold a b.
  rewrite Z2Nat.id by lia.
  replace (b - a + 1 - 1)%Z with (b + - a)%Z by lia.
  rewrite inject_Z_plus, inject_Z_opp. ring.
Qed.

(** ** More on the y scale *)





Lemma evenlySpacedBy_nth (st : Q) (l : list Q) :
  evenlySpacedBy st l ->
  forall i : nat,
    (i < List.length l)%nat ->
    nth i l 0 == nth 0 l 0 + inject_Z (Z.of_nat i) * st.
Proof.
  intros Hev. induction i as [|i IH]; intros Hi.
  - change (inject_Z (Z.of_nat 0)) with 0. ring.
  - pose proof (Hev i Hi) as Hd. specialize (IH ltac:(lia)).
    rewrite Nat2Z.inj_succ. unfold Z.succ. rewrite inject_Z_plus.
    change (inject_Z 1) with 1. lra.
Qed.

Lemma ticks_span_scale (minValue maxValue : Q) :
  minValue < maxValue ->
  5 * pow10 (-10) <= maxValue - minValue ->
  let s := buildNiceYTicks (Fin minValue) (Fin maxValue) defaultCount in
  let step := stepOf minValue maxValue defaultCount in
  let last := (List.length (Scale.ticks s) - 1)%nat in
  (forall i : nat,
      (i < List.length (Scale.ticks s))%nat ->
      nth i (Scale.ticks s) 0 == Scale.min s + inject_Z (Z.of_nat i) * step) /\
  nth 0 (Scale.ticks s) 0 == Scale.min s /\
  nth last (Scale.ticks s) 0 == Scale.max s /\
  Forall (fun tick => Scale.min s <= tick <= Scale.max s) (Scale.ticks s).
Proof.
  intros Hlt Hwide s step last.
  assert (Hne : ~ minValue == maxValue) by lra.
  pose proof (stepOf_decimals minValue maxValue Hwide) as Hdec.
  fold step in Hdec.
  assert (Hst : 0 < step) by apply getNiceStep_pos.
  destruct (tick_count_and_span minValue maxValue Hlt) as [Hlen Hspan].
  pose proof (buildNiceYTicks_two_ticks minValue maxValue defaultCount Hlt)
    as Hcount.
  fold s step in Hlen, Hspan, Hcount.
  assert (Hticks : Scale.ticks s =
                   tickLoop
                     (tickFuel (Scale.min s) (Scale.max s + step * (5 # 10)) step)
                     (Scale.min s) (Scale.max s + step * (5 # 10)) step).
  { unfold s. rewrite (buildNiceYTicks_distinct _ _ _ Hne). reflexivity. }
  assert (Hmin : hasDecimals 10 (Scale.min s)).
  { unfold s. rewrite (buildNiceYTicks_distinct _ _ _ Hne). cbv zeta.
    cbn [Scale.min]. apply hasDecimals_mult_Z, Hdec. }
  assert (Hev : evenlySpacedBy step (Scale.ticks s)).
  { rewrite Hticks. apply tickLoop_evenlySpaced; assumption. }
  assert (Hhead : nth 0 (Scale.ticks s) 0 == Scale.min s).
  { rewrite Hticks. apply tickLoop_head; [exact Hmin | | reflexivity].
    rewrite <- Hticks. lia. }
  assert (Hnth : forall i : nat,
             (i < List.length (Scale.ticks s))%nat ->
             nth i (Scale.ticks s) 0
             == Scale.min s + inject_Z (Z.of_nat i) * step).
  { intros i Hi. rewrite (evenlySpacedBy_nth step _ Hev i Hi), Hhead.
    reflexivity. }
  split; [exact Hnth|]. split; [exact Hhead|]. split.
  - rewrite Hnth by (unfold last; lia).
    unfold last. rewrite Nat2Z.inj_sub by lia.
    change (Z.of_nat 1) with 1%Z. lra.
  - apply Forall_forall. intros tick Htick.
    destruct (In_nth _ _ 0 Htick) as [i [Hi <-]].
    rewrite (Hnth i Hi).
    assert (0 <= inject_Z (Z.of_nat i)).
    { change 0 with (inject_Z 0). rewrite <- Zle_Qle. lia. }
    assert (inject_Z (Z.of_nat i)
            <= inject_Z (Z.of_nat (List.length (Scale.ticks s)) - 1)).
    { rewrite <- Zle_Qle. lia. }
    split; nra.
Qed.

(** ** Axis ticks, reference line and tooltips *)

Lemma fold_right_Qmax_attained (l : list Q) :
  fold_right Qmax 0 l == 0 \/ exists v, In v l /\ fold_right Qmax 0 l == v.
Proof.
  induction l as [|a rest IH]; simpl; [left; reflexivity|].
  destruct (Q.max_spec a (fold_right Qmax 0 rest)) as [[_ E] | [_ E]].
  - destruct IH as [H | [v [Hv H]]]; [left; rewrite E; exact H|].
    right. exists v. split; [right; exact Hv | rewrite E; exact H].
  - right. exists a. split; [left; reflexivity | exact E].
Qed.

(** X6: [xTicks] throws (a [RangeError] of [Array.from]) exactly when
    [floor(xMax) + 1] is above the greatest array length [2^32 - 1].
    Otherwise the x ticks are the whole seconds 0, 1, ..., [floor(xMax)]; each
    lies in the x domain and its grid line lies inside the plot.  [xMax] is 0
    or one of the x values. *)
Theorem xTicks_are_the_seconds_in_range (series : list ChartSeries)
    (accessor : EmulatedPerSecondStat -> option number) (size : Size) :
  match xTicks series accessor with
  | Returned ticks =>
      (Qfloor (xMax series accessor) + 1 <= MAX_ARRAY_LENGTH)%Z /\
      Forall2 (fun tick second => tick == inject_Z (Z.of_nat second)) ticks
        (seq 0 (S (Z.to_nat (Qfloor (xMax series accessor))))) /\
      Forall (fun tick => xMin <= tick <= xMax series accessor) ticks /\
      Forall
        (fun tick =>
           leftPadding size <= xTickPosition series accessor size tick
           <= chartWidth size - rightPadding size)
        ticks
  | Threw => (MAX_ARRAY_LENGTH < Qfloor (xMax series accessor) + 1)%Z
  end /\
  (xMax series accessor == 0 \/
   exists v, In v (xValues series accessor) /\ xMax series accessor == v).
Proof.
  split; [|apply fold_right_Qmax_attained].
  pose proof (xMax_nonneg series accessor) as Hx.
  assert (Hfl : (0 <= Qfloor (xMax series accessor))%Z).
  { change 0%Z with (Qfloor 0). apply Qfloor_resp_le. exact Hx. }
  unfold xTicks, xTickStart, xTickEnd.
  change (Qceiling xMin) with 0%Z.
  destruct (Z.leb_spec 0 (Qfloor (xMax series accessor))) as [_ | C]; [|lia].
  cbv zeta. rewrite Z.sub_0_r.
  destruct (Z.leb_spec (Qfloor (xMax series accessor) + 1) MAX_ARRAY_LENGTH)
    as [Hlen | Hlen]; [|exact Hlen].
  split; [exact Hlen|].
  set (ticks := Array_from _ _).
  assert (Eticks : ticks =
            map (fun index => inject_Z 0 + inject_Z (Z.of_nat index))
              (seq 0 (S (Z.to_nat (Qfloor (xMax series accessor)))))).
  { unfold ticks, Array_from.
    replace (Z.to_nat (Qfloor (xMax series accessor) + 1))
      with (S (Z.to_nat (Qfloor (xMax series accessor)))) by lia.
    reflexivity. }
  assert (Hrange : Forall (fun tick => xMin <= tick <= xMax series accessor) ticks).
  { rewrite Eticks. apply Forall_forall. intros tick Ht.
    apply in_map_iff in Ht. destruct Ht as [i [<- Hi]].
    apply in_seq in Hi. unfold xMin. change (inject_Z 0) with 0.
    assert (0 <= inject_Z (Z.of_nat i)).
    { change 0 with (inject_Z 0). rewrite <- Zle_Qle. lia. }
    assert (inject_Z (Z.of_nat i) <= inject_Z (Qfloor (xMax series accessor))).
    { rewrite <- Zle_Qle. lia. }
    pose proof (Qfloor_le (xMax series accessor)). split; lra. }
  split.
  { rewrite Eticks.
    generalize (seq 0 (S (Z.to_nat (Qfloor (xMax series accessor))))).
    intros l. induction l as [|i rest IH]; simpl; [constructor|].
    constructor; [|exact IH].
    change (inject_Z 0) with 0. ring. }
  split; [exact Hrange|].
  eapply Forall_impl; [|exact Hrange].
  intros tick [H1 H2]. unfold xTickPosition.
  destruct (plot_geometry size) as [Hw [_ [Ex _]]].
  assert (Hf : 0 <= (tick - xMin) / xDenominator series accessor <= 1).
  { unfold xDenominator, xMin in *.
    destruct (Qeq_bool (xMax series accessor) 0) eqn:E.
    - apply Qeq_bool_iff in E. assert (tick == 0) by lra.
      assert (E0 : (tick - 0) / 1 == 0) by (field_simplify; lra).
      rewrite E0. lra.
    - assert (~ xMax series accessor == 0).
      { intros C. apply Qeq_bool_iff in C. congruence. }
      split; [apply Qle_shift_div_l | apply Qle_shift_div_r]; lra. }
  rewrite <- Ex. split; nra.
Qed.

Lemma xTicks_are_the_seconds_in_range_witness :
  let series := [runOf 1 [throughputStat 0 10; throughputStat (25 # 10) 12]] in
  exists ticks,
    xTicks series megabitsPerSecond = Returned ticks /\
    Forall2 (fun tick second => tick == inject_Z (Z.of_nat second)) ticks
      [0; 1; 2]%nat.
Proof.
  intros series.
  pose proof (xTicks_are_the_seconds_in_range series megabitsPerSecond default)
    as [H _].
  destruct (xTicks series megabitsPerSecond) as [ticks|] eqn:E.
  - exists ticks. split; [reflexivity|]. exact (proj1 (proj2 H)).
  - vm_compute in H. discriminate H.
Defined.

Lemma yScale_ticks_within (metricId : string) (series : list ChartSeries)
    (accessor : EmulatedPerSecondStat -> option number) :
  let ticks := yTicks metricId series accessor in
  let last := (List.length ticks - 1)%nat in
  nth 0 ticks 0 == yMin metricId series accessor /\
  nth last ticks 0 == yMax metricId series accessor /\
  Forall
    (fun tick =>
       yMin metricId series accessor <= tick <= yMax metricId series accessor)
    ticks.
Proof.
  intros ticks last. unfold last, ticks, yTicks, yMin, yMax, yScale.
  destruct (String.eqb metricId "mbps").
  { split; [reflexivity|]. split; [reflexivity|].
    repeat constructor; discriminate. }
  assert (Hgen : forall upper, (1 # 1000) <= upper ->
            let s := buildNiceYTicks (Fin 0) (Fin upper) defaultCount in
            nth 0 (Scale.ticks s) 0 == Scale.min s /\
            nth (List.length (Scale.ticks s) - 1) (Scale.ticks s) 0
            == Scale.max s /\
            Forall (fun tick => Scale.min s <= tick <= Scale.max s)
              (Scale.ticks s)).
  { intros upper Hu s.
    assert (Hw : 5 * pow10 (-10) <= upper - 0).
    { assert (5 * pow10 (-10) <= 1 # 1000) by (vm_compute; discriminate).
      lra. }
    destruct (ticks_span_scale 0 upper ltac:(lra) Hw) as [_ [H1 [H2 H3]]].
    split; [exact H1|]. split; [exact H2 | exact H3]. }
  destruct (Math_min (yValues series accessor)) as [lo| | |];
    destruct (Math_max (yValues series accessor)) as [hi| | |];
    apply Hgen; try (vm_compute; discriminate).
  apply Q.le_max_r.
Qed.

(** X7: the grid line of the first y tick is the bottom edge of the plot,
    the grid line of the last y tick is its top edge, and every y grid line
    lies between the two. *)
Theorem y_grid_lines_inside_plot (metricId : string)
    (series : list ChartSeries)
    (accessor : EmulatedPerSecondStat -> option number) (size : Size) :
  let ticks := yTicks metricId series accessor in
  let last := (List.length ticks - 1)%nat in
  yTickPosition metricId series accessor size (nth 0 ticks 0)
  == chartHeight size - bottomPadding size /\
  yTickPosition metricId series accessor size (nth last ticks 0)
  == topPadding size /\
  Forall
    (fun tick =>
       topPadding size <= yTickPosition metricId series accessor size tick
       <= chartHeight size - bottomPadding size)
    ticks.
Proof.
  intros ticks last.
  destruct (yScale_ticks_within metricId series accessor) as [Hf [Hl Hall]].
  fold ticks in Hf, Hall. fold ticks last in Hl.
  pose proof (yScale_nondegenerate metricId series accessor) as Hnd.
  destruct (plot_geometry size) as [_ [Hh [_ Ey]]].
  assert (Hden : yDenominator metricId series accessor
                 == yMax metricId series accessor - yMin metricId series accessor).
  { unfold yDenominator. rewrite Qeq_bool_false by lra. reflexivity. }
  unfold yTickPosition. rewrite Hden.
  set (lo := yMin metricId series accessor) in *.
  set (hi := yMax metricId series accessor) in *.
  split; [|split].
  - rewrite Hf. field. lra.
  - rewrite Hl, <- Ey. field. lra.
  - eapply Forall_impl; [|exact Hall]. intros tick [H1 H2]. cbv beta.
    rewrite Hden.
    assert (0 <= (tick - lo) / (hi - lo) <= 1).
    { split; [apply Qle_shift_div_l | apply Qle_shift_div_r]; lra. }
    set (f := (tick - lo) / (hi - lo)) in *.
    rewrite <- Ey. split; nra.
Qed.

(** X8: the throughput chart draws its reference line at the height of
    100 Mbps, five sixths up the plot whatever the data, strictly inside the
    plot; a chart of another metric has no reference line. *)
Theorem throughputReferenceLine_at_100 (metricId : string)
    (series : list ChartSeries)
    (accessor : EmulatedPerSecondStat -> option number) (size : Size) :
  (forall xValue : Q,
      exists lineY : Q,
        throughputReferenceLineY "mbps" series accessor size = Some lineY /\
        lineY == Svg.y (toSvgPoint "mbps" series accessor size (Pt.mk xValue 100)) /\
        lineY == chartHeight size - bottomPadding size
                 - (5 # 6) * plotHeight size /\
        topPadding size < lineY < chartHeight size - bottomPadding size) /\
  (metricId <> "mbps"%string ->
   throughputReferenceLineY metricId series accessor size = None).
Proof.
  split.
  - intros xValue. eexists. split; [reflexivity|].
    destruct (plot_geometry size) as [_ [Hh [_ Ey]]].
    assert (E1 : yMin "mbps" series accessor = 0) by reflexivity.
    assert (E2 : yDenominator "mbps" series accessor = 120) by reflexivity.
    rewrite E1, E2.
    set (raw := chartHeight size - bottomPadding size
                - (100 - 0) / 120 * plotHeight size).
    assert (Hraw : raw == chartHeight size - bottomPadding size
                          - (5 # 6) * plotHeight size)
      by (unfold raw; field).
    assert (Hin : topPadding size < raw < chartHeight size - bottomPadding size)
      by (rewrite Hraw, <- Ey; split; lra).
    assert (Eclamp : Qmax (topPadding size)
                       (Qmin (chartHeight size - bottomPadding size) raw) == raw).
    { destruct (clamp_cases (topPadding size)
                  (chartHeight size - bottomPadding size) raw)
        as [[H E] | [[H E] | [[H1 [H2 E]] | [H1 [H2 E]]]]]; rewrite E; lra. }
    rewrite Eclamp. split; [|split; [exact Hraw | exact Hin]].
    rewrite toSvgPoint_y. cbn [Pt.yValue].
    assert (Ef : fractionOf (yMin "mbps" series accessor)
                   (yMax "mbps" series accessor) 100 == 5 # 6)
      by (vm_compute; reflexivity).
    rewrite Ef, Hraw. reflexivity.
  - intros Hne. unfold throughputReferenceLineY.
    apply String.eqb_neq in Hne. rewrite Hne. reflexivity.
Qed.

Lemma tooltip_geometry (size : Size) :
  leftPadding size + 4
  <= chartWidth size - rightPadding size - tooltipWidth size - 2 /\
  leftPadding size + 4
  <= chartWidth size - rightPadding size - sliceTooltipWidth size - 2 /\
  topPadding size + 4
  <= chartHeight size - bottomPadding size - tooltipHeight size - 4.
Proof. destruct size; vm_compute; repeat split; discriminate. Qed.

Lemma clamp_between (lo hi v : Q) :
  lo <= hi -> lo <= Qmax lo (Qmin hi v) <= hi.
Proof.
  intros H.
  destruct (clamp_cases lo hi v)
    as [[H0 E] | [[H0 E] | [[H1 [H2 E]] | [H1 [H2 E]]]]]; rewrite E; lra.
Qed.

(** X9: wherever the displayed point is, its tooltip lies inside the plot
    area, 4 units from the left, top and bottom edges and 2 from the right
    edge. *)
Theorem point_tooltip_inside_plot (size : Size) (crosshair pointY : Q) :
  let tooltipX := pointTooltipX size crosshair in
  let tooltipY := pointTooltipY size pointY in
  leftPadding size + 4 <= tooltipX /\
  tooltipX + tooltipWidth size <= chartWidth size - rightPadding size - 2 /\
  topPadding size + 4 <= tooltipY /\
  tooltipY + tooltipHeight size <= chartHeight size - bottomPadding size - 4.
Proof.
  intros tooltipX tooltipY.
  destruct (tooltip_geometry size) as [Hx [_ Hy]].
  unfold tooltipX, tooltipY, pointTooltipX, pointTooltipY. cbv zeta.
  match goal with
  | |- context [Qmax ?lo (Qmin ?hi ?v)] =>
      pose proof (clamp_between lo hi v Hx) as Bx
  end.
  match goal with
  | |- context [Qmax (topPadding size + 4) (Qmin ?hi ?v)] =>
      pose proof (clamp_between (topPadding size + 4) hi v Hy) as By
  end.
  repeat split; lra.
Qed.


Lemma throughputReferenceLine_at_100_witness :
  throughputReferenceLineY "rtt" [] megabitsPerSecond default = None /\
  exists lineY : Q,
    throughputReferenceLineY "mbps" [] megabitsPerSecond default = Some lineY /\
    lineY == chartHeight default - bottomPadding default
             - (5 # 6) * plotHeight default.
Proof.
  destruct (throughputReferenceLine_at_100 "rtt" [] megabitsPerSecond default)
    as [Hline Hnone].
  split; [apply Hnone; discriminate|].
  destruct (Hline 0) as [lineY [E [_ [Hy _]]]].
  exists lineY. split; [exact E | exact Hy].
Defined.


(** ** More on hit-testing *)

(** X11: [getClosestPointFromMouse] returns [null] without an svg element,
    for a rectangle without width and for a series without points; otherwise
    it returns the first of the points at the least pixel distance from the
    pointer. *)
Theorem getClosestPointFromMouse_pixel_nearest (size : Size)
    (runSeries : RSeries.t) (clientX : Q) (svgElement : option DOMRect.t) :
  match svgElement with
  | Some rect =>
      if Qle_bool (DOMRect.width rect) 0
      then getClosestPointFromMouse size runSeries clientX svgElement = None
      else
        match RSeries.svgPoints runSeries with
        | [] => getClosestPointFromMouse size runSeries clientX svgElement = None
        | _ :: _ =>
            exists nearest : Svg.t,
              getClosestPointFromMouse size runSeries clientX svgElement
              = Some nearest /\
              firstAtLeastDistance
                (pixelDistance
                   ((clientX - DOMRect.left rect) / DOMRect.width rect
                    * chartWidth size))
                (RSeries.svgPoints runSeries) nearest
        end
  | None => getClosestPointFromMouse size runSeries clientX svgElement = None
  end.
Proof.
  destruct svgElement as [rect|]; [|reflexivity].
  unfold getClosestPointFromMouse.
  destruct (RSeries.svgPoints runSeries) as [|p rest] eqn:Ep.
  - simpl. destruct (Qle_bool (DOMRect.width rect) 0); reflexivity.
  - cbn [List.length Nat.eqb].
    destruct (Qle_bool (DOMRect.width rect) 0); [reflexivity|].
    apply (reduce1_closer
             (pixelDistance
                ((clientX - DOMRect.left rect) / DOMRect.width rect
                 * chartWidth size))).
    discriminate.
Qed.

(** X12: the slice hit-test never throws; it returns a slice only for a
    rectangle of positive width and height with the pointer over the plot
    area, and then the [x] of the slice lies inside the plot and the slice has
    one row for each rendered series. *)
Theorem getHoveredSliceFromMouse_total (metricId : string)
    (series : list ChartSeries)
    (accessor : EmulatedPerSecondStat -> option number) (size : Size)
    (clientX clientY : Q) (svgElement : option DOMRect.t) :
  getHoveredSliceFromMouse metricId series accessor size clientX clientY
    svgElement <> Threw /\
  (forall slice,
      getHoveredSliceFromMouse metricId series accessor size clientX clientY
        svgElement = Returned (Some slice) ->
      exists rect,
        svgElement = Some rect /\
        0 < DOMRect.width rect /\ 0 < DOMRect.height rect /\
        pointerInPlot size rect clientX clientY /\
        leftPadding size <= HoveredSlice.x slice
          <= chartWidth size - rightPadding size /\
        List.length (HoveredSlice.values slice)
        = List.length (interactiveSeriesForRender metricId series accessor size)).
Proof.
  unfold getHoveredSliceFromMouse.
  destruct svgElement as [rect|]; [|split; [discriminate | discriminate]].
  destruct (List.length (interactiveSeriesForRender metricId series accessor size)
            =? 0)%nat; [split; discriminate|].
  destruct (Qle_bool (DOMRect.width rect) 0) eqn:Ew;
    [split; discriminate|].
  destruct (Qle_bool (DOMRect.height rect) 0) eqn:Eh;
    [split; discriminate|].
  cbn [orb]. cbv zeta.
  set (relativeX :=
         (clientX - DOMRect.left rect) / DOMRect.width rect * chartWidth size).
  set (relativeY :=
         (clientY - DOMRect.top rect) / DOMRect.height rect * chartHeight size).
  destruct (Qlt_bool relativeX (leftPadding size)) eqn:B1;
    [split; discriminate|].
  destruct (Qlt_bool (chartWidth size - rightPadding size) relativeX) eqn:B2;
    [split; discriminate|].
  destruct (Qlt_bool relativeY (topPadding size)) eqn:B3;
    [split; discriminate|].
  destruct (Qlt_bool (chartHeight size - bottomPadding size) relativeY) eqn:B4;
    [split; discriminate|].
  cbn [orb].
  set (boundedX :=
         Qmax (leftPadding size)
           (Qmin (chartWidth size - rightPadding size) relativeX)).
  set (xValue :=
         xMin + (boundedX - leftPadding size) / Qmax (plotWidth size) 1
                * xDenominator series accessor).
  destruct (sliceValues_rows xValue
              (interactiveSeriesForRender metricId series accessor size))
    as [values [Ev Hrows]].
  { apply interactive_svgPoints_nonempty. }
  rewrite Ev. split; [discriminate|].
  intros slice Hs. injection Hs as <-.
  assert (Hnot : forall a b, Qlt_bool a b = false -> b <= a).
  { intros a b H. destruct (Qlt_le_dec a b) as [C | C]; [|exact C].
    apply Qlt_bool_iff in C. congruence. }
  assert (Hpos : forall a, Qle_bool a 0 = false -> 0 < a).
  { intros a H. apply Qnot_le_lt. intros C. apply Qle_bool_iff in C.
    congruence. }
  exists rect. split; [reflexivity|].
  split; [apply Hpos, Ew|]. split; [apply Hpos, Eh|].
  split.
  { unfold pointerInPlot. cbv zeta. fold relativeX relativeY.
    repeat split; apply Hnot; assumption. }
  cbn [HoveredSlice.x HoveredSlice.values]. split.
  - apply clamp_between. destruct (plot_geometry size) as [Hw [_ [Ex _]]]. lra.
  - symmetry. eapply Forall2_length. exact Hrows.
Qed.

Lemma getHoveredSliceFromMouse_total_witness :
  let series :=
    [runOf 1 [throughputStat 0 10; throughputStat 2 12];
     runOf 2 [throughputStat 1 8; throughputStat 3 9]] in
  let rect := DOMRect.mk 0 0 460 220 in
  exists slice : HoveredSlice.t,
    getHoveredSliceFromMouse "rtt" series megabitsPerSecond default 249 100
      (Some rect) = Returned (Some slice) /\
    pointerInPlot default rect 249 100 /\
    List.length (HoveredSlice.values slice) = 2%nat.
Proof.
  intros series rect.
  destruct (getHoveredSliceFromMouse_total "rtt" series megabitsPerSecond
              default 249 100 (Some rect)) as [_ H].
  destruct (getHoveredSliceFromMouse "rtt" series megabitsPerSecond default
              249 100 (Some rect)) as [[slice|]|] eqn:E.
  - destruct (H slice eq_refl) as [rect' [Hr [_ [_ [Hin [_ Hlen]]]]]].
    injection Hr as <-. exists slice. split; [reflexivity|].
    split; [exact Hin|]. rewrite Hlen. reflexivity.
  - vm_compute in E. discriminate E.
  - vm_compute in E. discriminate E.
Defined.

(** ** More on the hover and pin state *)

Lemma handle_keeps_pinConsistent (metricId : string)
    (series : list ChartSeries)
    (accessor : EmulatedPerSecondStat -> option number) (size : Size)
    (s : ChartState.t) (e : ChartEvent) :
  pinConsistent s ->
  pinConsistent (handle metricId series accessor size s e).
Proof.
  unfold pinConsistent. intros H.
  destruct s as [hr hp hs pr pp].
  cbn [ChartState.pinnedPoint ChartState.pinnedRunId] in H.
  destruct pr as [z|];
    destruct e;
    cbn -[getClosestPointFromMouse getHoveredSliceFromMouse Z.eqb];
    repeat match goal with
      | |- context [getHoveredSliceFromMouse ?a ?b ?c ?d ?x ?y ?z] =>
          destruct (getHoveredSliceFromMouse a b c d x y z)
      | |- context [getClosestPointFromMouse ?a ?b ?c ?d] =>
          destruct (getClosestPointFromMouse a b c d)
      | |- context [(?a =? ?b)%Z] =>
          let E := fresh "E" in destruct (a =? b)%Z eqn:E
      end;
    cbn -[Z.eqb]; try exact H; try exact I; try reflexivity;
    try (f_equal; apply Z.eqb_eq; assumption).
Qed.

(** X13: after any sequence of events from the initial state the pinned
    point, when there is one, belongs to the pinned run; it is then the
    displayed point and its run is the active run. *)
Theorem pinned_point_belongs_to_pinned_run (metricId : string)
    (series : list ChartSeries)
    (accessor : EmulatedPerSecondStat -> option number) (size : Size)
    (events : list ChartEvent) :
  let s := handleAll metricId series accessor size ChartState.initial events in
  pinConsistent s /\
  (forall point,
      ChartState.pinnedPoint s = Some point ->
      displayedPoint s = Some point /\
      activeRunId s = Some (HoveredChartPoint.runId point)).
Proof.
  intros s.
  assert (Hc : pinConsistent s).
  { unfold s, handleAll.
    assert (G : forall start, pinConsistent start ->
                  pinConsistent
                    (fold_left (handle metricId series accessor size) events start)).
    { induction events as [|e rest IH]; intros start Hs; simpl; [exact Hs|].
      apply IH, handle_keeps_pinConsistent, Hs. }
    apply G. exact I. }
  split; [exact Hc|].
  intros point Hp. unfold pinConsistent in Hc. rewrite Hp in Hc.
  unfold displayedPoint, activeRunId, nullish. rewrite Hp, Hc.
  split; reflexivity.
Qed.

Lemma pinned_point_belongs_to_pinned_run_witness :
  let runSeries := RSeries.mk 1 "cubic" "cubic" "cubic, 50ms" "#0d9488" [] [] [] in
  let s :=
    handleAll "rtt" [] megabitsPerSecond default ChartState.initial
      [LegendMouseEnter runSeries;
       MarkerClick runSeries (Svg.mk 1 2 3 4);
       CardMouseLeave] in
  exists point,
    ChartState.pinnedPoint s = Some point /\
    displayedPoint s = Some point /\
    activeRunId s = Some (HoveredChartPoint.runId point).
Proof.
  intros runSeries s.
  destruct (pinned_point_belongs_to_pinned_run "rtt" [] megabitsPerSecond
              default
              [LegendMouseEnter runSeries;
               MarkerClick runSeries (Svg.mk 1 2 3 4);
               CardMouseLeave]) as [_ H].
  eexists. split; [reflexivity|]. apply H. reflexivity.
Defined.

(** X14: the pinned run changes in two ways only: a click on a path, a
    marker or a legend entry while no run is pinned pins the run of that
    series, and a pointer-down on the document while a run is pinned resets
    the five cells. *)
Theorem pin_changes_only_by_click_or_pointerdown (metricId : string)
    (series : list ChartSeries)
    (accessor : EmulatedPerSecondStat -> option number) (size : Size)
    (s : ChartState.t) (e : ChartEvent) :
  let next := handle metricId series accessor size s e in
  ChartState.pinnedRunId next <> ChartState.pinnedRunId s ->
  (ChartState.pinnedRunId s = None /\ isPinClick e /\
   exists runSeries,
     eventSeries e = Some runSeries /\
     ChartState.pinnedRunId next = Some (RSeries.runId runSeries)) \/
  (ChartState.pinnedRunId s <> None /\ e = DocumentPointerDown /\
   next = ChartState.mk None None None None None).
Proof.
  intros next. unfold next.
  destruct s as [hr hp hs pr pp].
  destruct pr as [z|];
    destruct e;
    cbn -[getClosestPointFromMouse getHoveredSliceFromMouse Z.eqb];
    repeat match goal with
      | |- context [getHoveredSliceFromMouse ?a ?b ?c ?d ?x ?y ?z] =>
          destruct (getHoveredSliceFromMouse a b c d x y z)
      | |- context [getClosestPointFromMouse ?a ?b ?c ?d] =>
          destruct (getClosestPointFromMouse a b c d)
      | |- context [(?a =? ?b)%Z] =>
          let E := fresh "E" in destruct (a =? b)%Z eqn:E
      end;
    cbn -[Z.eqb]; intros H; try congruence.
  all: try (right; split; [discriminate | split; reflexivity]).
  all: left; split; [reflexivity|]; split; [exact I|];
    eexists; split; reflexivity.
Qed.

Lemma pin_changes_only_by_click_or_pointerdown_witness :
  let s := ChartState.mk None None None (Some 4%Z) None in
  handle "rtt" [] megabitsPerSecond default s DocumentPointerDown
  = ChartState.mk None None None None None.
Proof.
  intros s.
  destruct (pin_changes_only_by_click_or_pointerdown "rtt" [] megabitsPerSecond
              default s DocumentPointerDown) as [[C _] | [_ [_ E]]].
  - discriminate.
  - discriminate C.
  - exact E.
Defined.

(** X15: while a run is pinned, each handler that is given a series (mouse
    enter, mouse move and click on a path, on a marker and on a legend chip)
    leaves the state as it is when its series is not the pinned one.  The
    mouse-leave handlers are given no series and are not among them. *)
Theorem events_of_other_series_ignored_while_pinned (metricId : string)
    (series : list ChartSeries)
    (accessor : EmulatedPerSecondStat -> option number) (size : Size)
    (s : ChartState.t) (e : ChartEvent) (pinned : Z) (runSeries : RSeries.t) :
  ChartState.pinnedRunId s = Some pinned ->
  eventSeries e = Some runSeries ->
  RSeries.runId runSeries <> pinned ->
  handle metricId series accessor size s e = s.
Proof.
  intros Hp He Hne.
  apply Z.eqb_neq in Hne. rewrite Z.eqb_sym in Hne.
  destruct e; simpl in He; try discriminate He; injection He as ->;
    cbn -[getClosestPointFromMouse Z.eqb]; rewrite Hp; try rewrite Hne;
    reflexivity.
Qed.

Lemma events_of_other_series_ignored_while_pinned_witness :
  let s := ChartState.mk (Some 1%Z) None None (Some 1%Z) None in
  let other := RSeries.mk 2 "bbr" "bbr" "bbr, 50ms" "#dc2626" [] [] [] in
  handle "mbps" [] megabitsPerSecond default s
    (MarkerMouseMove other (Svg.mk 1 8 100 90)) = s.
Proof.
  intros s other.
  apply (events_of_other_series_ignored_while_pinned "mbps" []
           megabitsPerSecond default s _ 1%Z other).
  - reflexivity.
  - reflexivity.
  - discriminate.
Defined.

(** X16: a mouse-leave never changes the pin.  Leaving the svg only clears
    the hovered slice; leaving the card clears the hover cells, so that the
    pinned run and point are the active run and the displayed point and the
    crosshair is at the pinned point; leaving a legend entry while a run is
    pinned changes nothing. *)
Theorem leaving_clears_hover_keeps_pin (metricId : string)
    (series : list ChartSeries)
    (accessor : EmulatedPerSecondStat -> option number) (size : Size)
    (s : ChartState.t) (e : ChartEvent) :
  isLeave e ->
  let next := handle metricId series accessor size s e in
  ChartState.pinnedRunId next = ChartState.pinnedRunId s /\
  ChartState.pinnedPoint next = ChartState.pinnedPoint s /\
  (e = SvgMouseLeave ->
   next = ChartState.setHoveredSlice s None) /\
  (e = CardMouseLeave ->
   ChartState.hoveredRunId next = None /\
   ChartState.hoveredPoint next = None /\
   ChartState.hoveredSlice next = None /\
   activeRunId next = ChartState.pinnedRunId s /\
   displayedPoint next = ChartState.pinnedPoint s /\
   crosshairX next = option_map HoveredChartPoint.x (ChartState.pinnedPoint s)) /\
  (e = LegendMouseLeave -> ChartState.pinnedRunId s <> None -> next = s).
Proof.
  intros He next. unfold next.
  destruct s as [hr hp hs pr pp].
  destruct e; simpl in He; try contradiction; cbn.
  - repeat split; try discriminate; intros; reflexivity.
  - repeat split; try discriminate; intros; reflexivity.
  - repeat split; try discriminate; intros; reflexivity.
  - destruct pr as [z|]; cbn; repeat split; try discriminate; intros;
      try reflexivity; congruence.
  - unfold activeRunId, displayedPoint, crosshairX, displayedPoint, nullish.
    cbn. repeat split; try discriminate; intros;
      try reflexivity; destruct pr, pp; reflexivity.
Qed.

Lemma leaving_clears_hover_keeps_pin_witness :
  let s := ChartState.mk (Some 2%Z) None None (Some 1%Z) None in
  ChartState.pinnedRunId
    (handle "mbps" [] megabitsPerSecond default s CardMouseLeave)
  = Some 1%Z.
Proof.
  intros s.
  apply (proj1 (leaving_clears_hover_keeps_pin "mbps" [] megabitsPerSecond
                  default s CardMouseLeave I)).
Defined.

(** ** Grouping *)

Section GroupedFacts.
Context {A : Type} (keyOf : A -> option Z).

Lemma Grouped_get_add (m : Grouped.t A) (key k : Z) (item : A) :
  Grouped.get (Grouped.add m key item) k =
  if (key =? k)%Z
  then Some (match Grouped.get m k with Some l => l | None => [] end ++ [item])
  else Grouped.get m k.
Proof.
  induction m as [|[k0 l] rest IH]; simpl.
  - destruct (key =? k)%Z; reflexivity.
  - destruct (k0 =? key)%Z eqn:E0; simpl.
    + apply Z.eqb_eq in E0. subst k0.
      destruct (key =? k)%Z; reflexivity.
    + rewrite IH. destruct (key =? k)%Z eqn:E1; [|reflexivity].
      apply Z.eqb_eq in E1. subst k. rewrite E0. reflexivity.
Qed.

Lemma groupFold_get (items : list A) :
  forall (before : list A) (m : Grouped.t A),
    (forall k, Grouped.get m k = nonEmpty (filter (keyIs keyOf k) before)) ->
    forall k,
      Grouped.get
        (fold_left
           (fun grouped item =>
              match keyOf item with
              | None => grouped
              | Some key => Grouped.add grouped key item
              end)
           items m) k
      = nonEmpty (filter (keyIs keyOf k) (before ++ items)).
Proof.
  induction items as [|item rest IH]; intros before m Hm k; simpl.
  - rewrite app_nil_r. apply Hm.
  - replace (before ++ item :: rest) with ((before ++ [item]) ++ rest)
      by (rewrite <- app_assoc; reflexivity).
    apply IH. clear k. intros k. rewrite filter_app. simpl.
    unfold keyIs at 2.
    destruct (keyOf item) as [key|].
    + rewrite Grouped_get_add, Hm.
      destruct (key =? k)%Z.
      * destruct (filter (keyIs keyOf k) before); reflexivity.
      * rewrite app_nil_r. reflexivity.
    + rewrite app_nil_r. apply Hm.
Qed.

Lemma Grouped_get_sortValues (compare_le : A -> A -> bool)
    (m : Grouped.t A) (k : Z) :
  Grouped.get (Grouped.sortValues compare_le m) k =
  option_map (Array_sort compare_le) (Grouped.get m k).
Proof.
  unfold Grouped.sortValues.
  induction m as [|[k0 l] rest IH]; simpl; [reflexivity|].
  destruct (k0 =? k)%Z; [reflexivity | exact IH].
Qed.
End GroupedFacts.

Lemma runsByParent_get (runs : list Page.EmulatedRun) (parent : Z) :
  Grouped.get (Dashboard.runsByParent runs) parent =
  option_map
    (Array_sort
       (fun a b => negb (Page.positive (Dashboard.compareRunsById a b))))
    (nonEmpty (childrenOf parent runs)).
Proof.
  unfold Dashboard.runsByParent. rewrite Grouped_get_sortValues. f_equal.
  apply (groupFold_get Page.parentRunId runs [] []). reflexivity.
Qed.

Lemma statsByRun_get (stats : list EmulatedPerSecondStat) (run : Z) :
  Grouped.get (Dashboard.statsByRun stats) run =
  option_map
    (Array_sort (fun a b => negb (Page.positive (Dashboard.compareStats a b))))
    (nonEmpty (statsOfRun run stats)).
Proof.
  unfold Dashboard.statsByRun. rewrite Grouped_get_sortValues. f_equal.
  apply (groupFold_get (fun stat => Some (emulatedRunId stat)) stats [] []).
  reflexivity.
Qed.

Lemma Array_sort_nil_iff {A : Type} (compare_le : A -> A -> bool) (l : list A) :
  Array_sort compare_le l = [] <-> l = [].
Proof.
  split; intros H; [|subst; reflexivity].
  pose proof (Array_sort_perm compare_le l) as P. rewrite H in P.
  apply Permutation_nil in P. exact P.
Qed.

Lemma runsByParent_group_sorted (l : list Page.EmulatedRun) :
  StronglySorted (fun a b => (Page.run_id a <= Page.run_id b)%Z)
    (Array_sort
       (fun a b => negb (Page.positive (Dashboard.compareRunsById a b))) l).
Proof.
  set (le := fun a b => negb (Page.positive (Dashboard.compareRunsById a b))).
  assert (Hle : forall a b, le a b = true <-> (Page.run_id a <= Page.run_id b)%Z).
  { intros a b. unfold le, Dashboard.compareRunsById. cbn [Page.positive].
    rewrite negb_true_iff. split; intros H.
    - destruct (Z_lt_le_dec (Page.run_id b) (Page.run_id a)) as [C | C];
        [|exact C].
      assert (Qlt_bool 0 (inject_Z (Page.run_id a) - inject_Z (Page.run_id b))
              = true).
      { apply Qlt_bool_iff. rewrite Zlt_Qlt in C. lra. }
      congruence.
    - destruct (Qlt_bool 0 (inject_Z (Page.run_id a) - inject_Z (Page.run_id b)))
        eqn:D; [|reflexivity].
      apply Qlt_bool_iff in D. rewrite Zle_Qle in H. lra. }
  apply (StronglySorted_on (fun _ => True) (keepsBefore le)).
  - apply Forall_forall. intros a _. exact I.
  - apply (Array_sort_sorted le (fun _ => True)).
    + intros a b _ _ H. apply Hle.
      destruct (Z.le_gt_cases (Page.run_id a) (Page.run_id b)) as [L | L];
        [|lia].
      apply Hle in L. congruence.
    + intros a b c0 _ _ _ H1 H2. unfold keepsBefore in *.
      apply Hle. apply Hle in H1. apply Hle in H2. lia.
    + apply Forall_forall. intros a _. exact I.
  - intros a b _ _ H. apply Hle, H.
Qed.

(** X17: [runsByParent] has a group for a parent exactly when a run has it
    as [parentRunId]; the group holds the runs of that parent, each once, in
    ascending order of [id].  A run without parent is in no group. *)
Theorem runsByParent_groups_children (runs : list Page.EmulatedRun)
    (parent : Z) :
  match Grouped.get (Dashboard.runsByParent runs) parent with
  | None => childrenOf parent runs = []
  | Some group =>
      group <> [] /\
      Permutation group (childrenOf parent runs) /\
      StronglySorted (fun a b => (Page.run_id a <= Page.run_id b)%Z) group /\
      Forall (fun run => Page.parentRunId run = Some parent /\ In run runs) group
  end.
Proof.
  rewrite runsByParent_get.
  destruct (childrenOf parent runs) as [|c rest] eqn:E;
    cbn [nonEmpty option_map]; [reflexivity|].
  set (le := fun a b => negb (Page.positive (Dashboard.compareRunsById a b))).
  pose proof (Array_sort_perm le (c :: rest)) as P.
  split; [|split; [exact P|split]].
  - intros C. apply Array_sort_nil_iff in C. discriminate C.
  - apply runsByParent_group_sorted.
  - apply Forall_forall. intros run Hr.
    apply (Permutation_in _ P) in Hr. rewrite <- E in Hr.
    unfold childrenOf in Hr. apply filter_In in Hr. destruct Hr as [Hin Hp].
    split; [|exact Hin].
    destruct (Page.parentRunId run) as [p|]; [|discriminate].
    apply Z.eqb_eq in Hp. subst p. reflexivity.
Qed.

Lemma orMaxSafe_key (value : option number) :
  finiteOrNull value -> orMaxSafe value = Fin (keyOrMax value).
Proof.
  destruct value as [[q| | |]|]; simpl; intros H; try reflexivity; destruct H.
Qed.

Lemma compareStats_order (a b : EmulatedPerSecondStat) :
  sortableStat a -> sortableStat b ->
  (negb (Page.positive (Dashboard.compareStats a b)) = true <-> statOrder a b).
Proof.
  intros [Ha1 Ha2] [Hb1 Hb2]. unfold Dashboard.compareStats, statOrder.
  rewrite !orMaxSafe_key by assumption.
  set (ka := keyOrMax (snapshotIndex a)). set (kb := keyOrMax (snapshotIndex b)).
  set (ea := keyOrMax (elapsedSeconds a)).
  set (eb := keyOrMax (elapsedSeconds b)).
  cbn [number_eqb Page.number_sub].
  destruct (Qeq_bool ka kb) eqn:E; cbn [Page.positive]; rewrite negb_true_iff.
  - apply Qeq_bool_iff in E.
    destruct (Qlt_bool 0 (ea - eb)) eqn:D.
    + apply Qlt_bool_iff in D. split; [discriminate|].
      intros [H | [_ H]]; lra.
    + split; [|reflexivity]. intros _. right. split; [exact E|].
      destruct (Qlt_le_dec eb ea) as [C | C]; [|exact C].
      assert (Qlt_bool 0 (ea - eb) = true) by (apply Qlt_bool_iff; lra).
      congruence.
  - apply Qeq_bool_neq in E.
    destruct (Qlt_bool 0 (ka - kb)) eqn:D.
    + apply Qlt_bool_iff in D. split; [discriminate|].
      intros [H | [H _]]; lra.
    + split; [|reflexivity]. intros _. left.
      destruct (Qlt_le_dec ka kb) as [C | C]; [exact C|].
      destruct (Qle_lt_or_eq _ _ C) as [C' | C'].
      * assert (Qlt_bool 0 (ka - kb) = true) by (apply Qlt_bool_iff; lra).
        congruence.
      * exfalso. apply E. symmetry. exact C'.
Qed.

Lemma statOrder_total (a b : EmulatedPerSecondStat) :
  statOrder a b \/ statOrder b a.
Proof.
  unfold statOrder.
  destruct (Q_dec (keyOrMax (snapshotIndex a)) (keyOrMax (snapshotIndex b)))
    as [[H | H] | H]; [left; left; exact H | right; left; exact H |].
  destruct (Qlt_le_dec (keyOrMax (elapsedSeconds b)) (keyOrMax (elapsedSeconds a))).
  - right. right. split; [symmetry; exact H | lra].
  - left. right. split; assumption.
Qed.

Lemma statOrder_trans (a b c : EmulatedPerSecondStat) :
  statOrder a b -> statOrder b c -> statOrder a c.
Proof.
  unfold statOrder. intros [H1 | [H1 H1']] [H2 | [H2 H2']].
  - left. lra.
  - left. lra.
  - left. lra.
  - right. split; lra.
Qed.

Lemma statsOfRun_sortable (run : Z) (stats : list EmulatedPerSecondStat) :
  Forall sortableStat stats -> Forall sortableStat (statsOfRun run stats).
Proof.
  intros H. apply Forall_forall. intros s Hs.
  apply filter_In in Hs. rewrite Forall_forall in H. apply H, Hs.
Qed.

Lemma statsByRun_group_sorted (l : list EmulatedPerSecondStat) :
  Forall sortableStat l ->
  StronglySorted statOrder
    (Array_sort
       (fun a b => negb (Page.positive (Dashboard.compareStats a b))) l).
Proof.
  intros Hl.
  set (le := fun a b => negb (Page.positive (Dashboard.compareStats a b))).
  apply (StronglySorted_on sortableStat (keepsBefore le)).
  - eapply Permutation_Forall;
      [apply Permutation_sym, Array_sort_perm | exact Hl].
  - apply (Array_sort_sorted le sortableStat).
    + intros a b Ha Hb H. apply (compareStats_order b a Hb Ha).
      destruct (statOrder_total a b) as [T | T]; [|exact T].
      apply (compareStats_order a b Ha Hb) in T. unfold le in H. congruence.
    + intros a b c Ha Hb Hc H1 H2. unfold keepsBefore in *.
      apply (compareStats_order a c Ha Hc).
      apply (compareStats_order a b Ha Hb) in H1.
      apply (compareStats_order b c Hb Hc) in H2.
      exact (statOrder_trans a b c H1 H2).
    + exact Hl.
  - intros a b Ha Hb H. apply (compareStats_order a b Ha Hb), H.
Qed.

(** X18: when the snapshot index and the elapsed seconds of every stat are
    finite or [null], [statsByRun] has a group for a run exactly when a stat
    has its id; the group holds the stats of that run, each once, ordered by
    snapshot index and then by elapsed seconds, a [null] counting as
    [Number.MAX_SAFE_INTEGER]. *)
Theorem statsByRun_groups_stats (stats : list EmulatedPerSecondStat)
    (run : Z) :
  Forall sortableStat stats ->
  match Grouped.get (Dashboard.statsByRun stats) run with
  | None => statsOfRun run stats = []
  | Some group =>
      group <> [] /\
      Permutation group (statsOfRun run stats) /\
      StronglySorted statOrder group /\
      Forall (fun stat => emulatedRunId stat = run /\ In stat stats) group
  end.
Proof.
  intros Hsortable. rewrite statsByRun_get.
  destruct (statsOfRun run stats) as [|c rest] eqn:E;
    cbn [nonEmpty option_map]; [reflexivity|].
  set (le := fun a b => negb (Page.positive (Dashboard.compareStats a b))).
  pose proof (Array_sort_perm le (c :: rest)) as P.
  split; [|split; [exact P|split]].
  - intros C. apply Array_sort_nil_iff in C. discriminate C.
  - apply statsByRun_group_sorted. rewrite <- E.
    apply statsOfRun_sortable, Hsortable.
  - apply Forall_forall. intros stat Hs.
    apply (Permutation_in _ P) in Hs. rewrite <- E in Hs.
    apply filter_In in Hs. destruct Hs as [Hin Hp].
    apply Z.eqb_eq in Hp. split; assumption.
Qed.

Lemma selectedRuns_eq (runs : list Page.EmulatedRun) (selected : option Z) :
  Dashboard.selectedRuns runs selected =
  match selected with
  | Some parent =>
      if (parent =? 0)%Z then []
      else
        Array_sort
          (fun a b => negb (Page.positive (Dashboard.compareRunsById a b)))
          (childrenOf parent runs)
  | None => []
  end.
Proof.
  unfold Dashboard.selectedRuns, Dashboard.truthyId.
  destruct selected as [parent|]; [|reflexivity].
  destruct (parent =? 0)%Z; [reflexivity|]. cbn [negb].
  rewrite runsByParent_get.
  destruct (childrenOf parent runs); reflexivity.
Qed.

Lemma selectedRuns_sorted (runs : list Page.EmulatedRun) (selected : option Z) :
  StronglySorted (fun a b => (Page.run_id a <= Page.run_id b)%Z)
    (Dashboard.selectedRuns runs selected).
Proof.
  rewrite selectedRuns_eq.
  destruct selected as [parent|]; [|constructor].
  destruct (parent =? 0)%Z; [constructor|].
  apply runsByParent_group_sorted.
Qed.

(** X19: the selected runs are the runs of the selected parent in ascending
    order of [id]; there is none when no parent is selected, and none when the
    selected id is 0, which the truthiness test takes for no selection. *)
Theorem selectedRuns_children_of_selected (runs : list Page.EmulatedRun)
    (selected : option Z) :
  StronglySorted (fun a b => (Page.run_id a <= Page.run_id b)%Z)
    (Dashboard.selectedRuns runs selected) /\
  (forall run,
      In run (Dashboard.selectedRuns runs selected) <->
      exists parent,
        selected = Some parent /\ parent <> 0%Z /\
        In run runs /\ Page.parentRunId run = Some parent) /\
  List.length (Dashboard.selectedRuns runs selected) =
  match selected with
  | Some parent =>
      if (parent =? 0)%Z then 0%nat
      else List.length (childrenOf parent runs)
  | None => 0%nat
  end.
Proof.
  split; [apply selectedRuns_sorted|].
  rewrite selectedRuns_eq.
  destruct selected as [parent|].
  - destruct (parent =? 0)%Z eqn:E0.
    + apply Z.eqb_eq in E0. split; [|reflexivity].
      intros run. split; [intros []|].
      intros [p [Hp [Hne _]]]. injection Hp as <-. contradiction.
    + apply Z.eqb_neq in E0. split.
      * intros run. rewrite Array_sort_In. unfold childrenOf.
        rewrite filter_In. split.
        -- intros [Hin Hp]. exists parent.
           repeat split; try assumption.
           destruct (Page.parentRunId run) as [p|]; [|discriminate].
           apply Z.eqb_eq in Hp. subst p. reflexivity.
        -- intros [p [Hp [_ [Hin Hpar]]]]. injection Hp as <-.
           split; [exact Hin|]. rewrite Hpar. apply Z.eqb_refl.
      * apply Permutation_length, Array_sort_perm.
  - split; [|reflexivity].
    intros run. split; [intros []|]. intros [p [Hp _]]. discriminate Hp.
Qed.

Lemma mapi_from_nth_error {A B : Type} (f : A -> nat -> B) (l : list A) :
  forall (start index : nat),
    nth_error (mapi_from start f l) index =
    option_map (fun a => f a (start + index)%nat) (nth_error l index).
Proof.
  induction l as [|a rest IH]; intros start [|index]; simpl; try reflexivity.
  - rewrite Nat.add_0_r. reflexivity.
  - rewrite IH. replace (S start + index)%nat with (start + S index)%nat by lia.
    reflexivity.
Qed.

Lemma mapi_from_map {A B C : Type} (f : A -> nat -> B) (g : B -> C)
    (h : A -> C) (l : list A) :
  (forall a index, g (f a index) = h a) ->
  forall start, map g (mapi_from start f l) = map h l.
Proof.
  intros H. induction l as [|a rest IH]; intros start; simpl; [reflexivity|].
  rewrite H, IH. reflexivity.
Qed.

Lemma statsByRun_data (stats : list EmulatedPerSecondStat) (run : Z) :
  match Grouped.get (Dashboard.statsByRun stats) run with
  | Some rows => rows
  | None => []
  end =
  Array_sort (fun a b => negb (Page.positive (Dashboard.compareStats a b)))
    (statsOfRun run stats).
Proof.
  rewrite statsByRun_get. destruct (statsOfRun run stats); reflexivity.
Qed.

Lemma colorAt_in (index : nat) :
  In (Dashboard.colorAt index) Dashboard.SERIES_COLORS.
Proof.
  unfold Dashboard.colorAt. apply nth_In.
  apply Nat.mod_upper_bound. discriminate.
Qed.

(** X20: the chart has one series for each selected run, in their order,
    with the id of the run; series [index] has the color
    [SERIES_COLORS[index % 8]], its data are the stats of its run, each once
    and in the order of [statsByRun], and its label is its short label. *)
Theorem chartSeries_one_series_per_selected_run
    (numberText : number -> string) (idText : Z -> string)
    (runs : list Page.EmulatedRun) (stats : list EmulatedPerSecondStat)
    (selected : option Z) :
  Forall sortableStat stats ->
  map runId (Dashboard.chartSeries numberText idText runs stats selected) =
  map Page.run_id (Dashboard.selectedRuns runs selected) /\
  forall index series,
    nth_error (Dashboard.chartSeries numberText idText runs stats selected)
      index = Some series ->
    color series = nth (index mod 8) Dashboard.SERIES_COLORS ""%string /\
    In (color series) Dashboard.SERIES_COLORS /\
    Permutation (data series) (statsOfRun (runId series) stats) /\
    StronglySorted statOrder (data series) /\
    label series = shortLabel series.
Proof.
  intros Hsortable. unfold Dashboard.chartSeries, mapi. split.
  - apply mapi_from_map. reflexivity.
  - intros index series H. rewrite mapi_from_nth_error in H.
    destruct (nth_error (Dashboard.selectedRuns runs selected) index)
      as [run|]; [|discriminate H].
    cbn [option_map] in H. injection H as <-.
    cbn [color data runId label shortLabel]. rewrite statsByRun_data.
    split; [reflexivity|]. split; [apply colorAt_in|].
    split; [apply Array_sort_perm|]. split; [|reflexivity].
    apply statsByRun_group_sorted, statsOfRun_sortable, Hsortable.
Qed.

Lemma totalSampleCount_sum (series : list ChartSeries) :
  forall start,
    fold_left
      (fun total runSeries => (total + List.length (data runSeries))%nat)
      series start
    = (start + list_sum (map (fun s => List.length (data s)) series))%nat.
Proof.
  induction series as [|s rest IH]; intros start; simpl; [lia|].
  rewrite IH. lia.
Qed.

Lemma filter_disjoint_length {A : Type} (p q : A -> bool) (l : list A) :
  (forall a, In a l -> p a = true -> q a = false) ->
  List.length (filter (fun a => p a || q a) l) =
  (List.length (filter p l) + List.length (filter q l))%nat.
Proof.
  induction l as [|a rest IH]; intros H; simpl; [reflexivity|].
  assert (IH' := IH (fun b Hb => H b (or_intror Hb))).
  destruct (p a) eqn:P; simpl.
  - rewrite (H a (or_introl eq_refl) P). simpl. rewrite IH'. reflexivity.
  - destruct (q a); simpl; rewrite IH'; lia.
Qed.

Lemma sample_count_of_runs (stats : list EmulatedPerSecondStat)
    (runs : list Page.EmulatedRun) :
  NoDup (map Page.run_id runs) ->
  list_sum (map (fun run => List.length (statsOfRun (Page.run_id run) stats)) runs)
  = List.length (filter (belongsTo runs) stats).
Proof.
  induction runs as [|run rest IH]; intros Hnd.
  - simpl. induction stats as [|s stats' IHs]; simpl; [reflexivity | exact IHs].
  - inversion Hnd as [|? ? Hnotin Hrest]; subst.
    specialize (IH Hrest). unfold list_sum in *.
    cbn [map fold_right]. rewrite IH.
    unfold belongsTo at 2. cbn [existsb].
    rewrite (filter_disjoint_length
               (fun stat => (Page.run_id run =? emulatedRunId stat)%Z)
               (belongsTo rest)).
    + f_equal. unfold statsOfRun. f_equal. apply filter_ext.
      intros stat. apply Z.eqb_sym.
    + intros stat _ Hp. apply Z.eqb_eq in Hp.
      unfold belongsTo. destruct (existsb _ rest) eqn:E; [|reflexivity].
      apply existsb_exists in E. destruct E as [other [Hin Heq]].
      apply Z.eqb_eq in Heq. exfalso. apply Hnotin.
      rewrite Hp, <- Heq. apply in_map, Hin.
Qed.

Lemma childrenOf_distinct (parent : Z) (runs : list Page.EmulatedRun) :
  NoDup (map Page.run_id runs) ->
  NoDup (map Page.run_id (childrenOf parent runs)).
Proof.
  unfold childrenOf.
  induction runs as [|run rest IH]; intros Hnd; cbn [filter map];
    [constructor|].
  apply NoDup_cons_iff in Hnd. destruct Hnd as [Hfresh Hrest].
  destruct (match Page.parentRunId run with
            | Some p => (p =? parent)%Z
            | None => false
            end); [|exact (IH Hrest)].
  cbn [map]. apply NoDup_cons; [|exact (IH Hrest)].
  intros Hin. apply Hfresh. apply in_map_iff in Hin.
  destruct Hin as [other [Hid Hother]]. apply filter_In in Hother.
  rewrite <- Hid. apply in_map. exact (proj1 Hother).
Qed.

Lemma selectedRuns_distinct (runs : list Page.EmulatedRun)
    (selected : option Z) :
  NoDup (map Page.run_id runs) ->
  NoDup (map Page.run_id (Dashboard.selectedRuns runs selected)).
Proof.
  intros H. rewrite selectedRuns_eq.
  destruct selected as [parent|]; [|constructor].
  destruct (parent =? 0)%Z; [constructor|].
  eapply Permutation_NoDup.
  - apply Permutation_map, Permutation_sym, Array_sort_perm.
  - apply childrenOf_distinct, H.
Qed.

(** X21: when the runs have distinct ids, the total sample count is the
    number of stats that belong to a selected run. *)
Theorem totalSampleCount_counts_stats_of_selected_runs
    (numberText : number -> string) (idText : Z -> string)
    (runs : list Page.EmulatedRun) (stats : list EmulatedPerSecondStat)
    (selected : option Z) :
  NoDup (map Page.run_id runs) ->
  Dashboard.totalSampleCount
    (Dashboard.chartSeries numberText idText runs stats selected)
  = List.length
      (filter (belongsTo (Dashboard.selectedRuns runs selected)) stats).
Proof.
  intros Hnd. unfold Dashboard.totalSampleCount.
  rewrite totalSampleCount_sum. cbn [Nat.add].
  rewrite <- (sample_count_of_runs stats _
                (selectedRuns_distinct runs selected Hnd)).
  f_equal. unfold Dashboard.chartSeries, mapi.
  apply mapi_from_map. intros run index. cbn [data].
  rewrite statsByRun_data. apply Permutation_length, Array_sort_perm.
Qed.

Lemma find_sorted_least {A : Type} (R : A -> A -> Prop) (p : A -> bool)
    (l : list A) :
  (forall a, R a a) -> StronglySorted R l ->
  match find p l with
  | None => Forall (fun a => p a = false) l
  | Some found =>
      In found l /\ p found = true /\
      forall other, In other l -> p other = true -> R found other
  end.
Proof.
  intros Hrefl. induction 1 as [|a rest Hs IH Hfa]; simpl; [constructor|].
  destruct (p a) eqn:P.
  - split; [left; reflexivity|]. split; [exact P|].
    intros other [<- | Hin] _; [apply Hrefl|].
    rewrite Forall_forall in Hfa. apply Hfa, Hin.
  - destruct (find p rest) as [found|].
    + destruct IH as [Hin [Hp Hleast]].
      split; [right; exact Hin|]. split; [exact Hp|].
      intros other [<- | Hin'] Hpo; [congruence|].
      apply Hleast; assumption.
    + constructor; assumption.
Qed.

Lemma runsByParent_children (runs : list Page.EmulatedRun) (parent : Z) :
  match Grouped.get (Dashboard.runsByParent runs) parent with
  | Some children => children
  | None => []
  end =
  Array_sort (fun a b => negb (Page.positive (Dashboard.compareRunsById a b)))
    (childrenOf parent runs).
Proof.
  rewrite runsByParent_get. destruct (childrenOf parent runs); reflexivity.
Qed.

Lemma findClient_summary (describe : option Page.EmulatedRun -> string)
    (clientNumber : Q) (runs : list Page.EmulatedRun) (parent : Z) :
  summarizesClient describe clientNumber (childrenOf parent runs)
    (describe
       (Dashboard.findClient clientNumber
          (Array_sort
             (fun a b => negb (Page.positive (Dashboard.compareRunsById a b)))
             (childrenOf parent runs)))).
Proof.
  unfold Dashboard.findClient, summarizesClient.
  set (le := fun a b => negb (Page.positive (Dashboard.compareRunsById a b))).
  pose proof (find_sorted_least
                (fun a b => (Page.run_id a <= Page.run_id b)%Z)
                (isClient clientNumber)
                (Array_sort le (childrenOf parent runs))
                (fun a => Z.le_refl _)
                (runsByParent_group_sorted _)) as H.
  fold le in H. unfold isClient in H at 1.
  destruct (find _ (Array_sort le (childrenOf parent runs))) as [found|].
  - right. exists found. destruct H as [Hin [Hp Hleast]].
    split; [apply (Array_sort_In le), Hin|]. split; [exact Hp|].
    split; [|reflexivity].
    intros other Hother. apply Hleast. apply (Array_sort_In le), Hother.
  - left. split; [|reflexivity].
    eapply Permutation_Forall; [apply Array_sort_perm | exact H].
Qed.

(** X22: the options of the dropdown are the parent runs in their order,
    with their [id] and [createdAt]; [childRunCount] is the number of runs of
    the parent, and the summary of client 1 (of client 2) describes the run
    of the least id among the runs of the parent with that client number, and
    is that of no run when there is none. *)
Theorem parentOptions_describe_parents
    (numberText : number -> string) (idText : Z -> string)
    (parentRuns : list Page.EmulatedParentRun) (runs : list Page.EmulatedRun) :
  map Dashboard.id (Dashboard.parentOptions numberText idText parentRuns runs)
  = map Page.id parentRuns /\
  map Dashboard.createdAt
    (Dashboard.parentOptions numberText idText parentRuns runs)
  = map Page.createdAt parentRuns /\
  Forall
    (fun option =>
       let children := childrenOf (Dashboard.id option) runs in
       Dashboard.childRunCount option = List.length children /\
       summarizesClient
         (Dashboard.formatClientDropdownSummary numberText idText)
         1 children (Dashboard.client1Summary option) /\
       summarizesClient
         (Dashboard.formatClientDropdownSummary numberText idText)
         2 children (Dashboard.client2Summary option))
    (Dashboard.parentOptions numberText idText parentRuns runs).
Proof.
  unfold Dashboard.parentOptions.
  split; [rewrite map_map; reflexivity|].
  split; [rewrite map_map; reflexivity|].
  apply Forall_forall. intros option Hin. apply in_map_iff in Hin.
  destruct Hin as [parentRun [<- _]].
  cbn [Dashboard.id Dashboard.childRunCount Dashboard.client1Summary
       Dashboard.client2Summary].
  rewrite runsByParent_children.
  split; [apply Permutation_length, Array_sort_perm|].
  split; apply findClient_summary.
Qed.

(** X23: the selected parent option has the selected id and is an option
    of a parent run; the selected runs are as many as its [childRunCount],
    except for the id 0, for which no run is selected. *)
Theorem selectedParentRun_matches_selection
    (numberText : number -> string) (idText : Z -> string)
    (parentRuns : list Page.EmulatedParentRun) (runs : list Page.EmulatedRun)
    (selected : option Z) (option : Dashboard.ParentOption) :
  Dashboard.selectedParentRun numberText idText parentRuns runs selected
  = Some option ->
  selected = Some (Dashboard.id option) /\
  In (Dashboard.id option) (map Page.id parentRuns) /\
  List.length (Dashboard.selectedRuns runs selected) =
  if (Dashboard.id option =? 0)%Z then 0%nat
  else Dashboard.childRunCount option.
Proof.
  unfold Dashboard.selectedParentRun. intros H.
  apply find_some in H. destruct H as [Hin Hid].
  destruct selected as [selectedId|]; [|discriminate Hid].
  apply Z.eqb_eq in Hid. subst selectedId.
  split; [reflexivity|].
  unfold Dashboard.parentOptions in Hin. apply in_map_iff in Hin.
  destruct Hin as [parentRun [<- HinP]].
  cbn [Dashboard.id Dashboard.childRunCount].
  split; [apply in_map, HinP|].
  rewrite selectedRuns_eq, runsByParent_children.
  destruct (Page.id parentRun =? 0)%Z; [reflexivity|].
  reflexivity.
Qed.

Lemma statsByRun_groups_stats_witness :
  let stat (key : Z) (run : Z) (index elapsed : option number) :=
    Build_EmulatedPerSecondStat key run index elapsed None None None None None in
  let stats :=
    [stat 1%Z 11%Z None (Some (Fin 3));
     stat 2%Z 12%Z (Some (Fin 0)) (Some (Fin 0));
     stat 3%Z 11%Z (Some (Fin 1)) (Some (Fin 2));
     stat 4%Z 11%Z (Some (Fin 1)) (Some (Fin 1))] in
  exists group,
    Grouped.get (Dashboard.statsByRun stats) 11 = Some group /\
    map id group = [4; 3; 1]%Z /\
    StronglySorted statOrder group.
Proof.
  intros stat stats.
  assert (Hsortable : Forall sortableStat stats).
  { repeat constructor. }
  pose proof (statsByRun_groups_stats stats 11%Z Hsortable) as H.
  destruct (Grouped.get (Dashboard.statsByRun stats) 11) as [group|] eqn:E.
  - exists group. split; [reflexivity|]. split; [|apply H].
    vm_compute in E. injection E as <-. reflexivity.
  - vm_compute in E. discriminate E.
Defined.

Lemma chartSeries_one_series_per_selected_run_witness :
  let stat (key : Z) (run : Z) (index elapsed : option number) :=
    Build_EmulatedPerSecondStat key run index elapsed None None None None None in
  let stats :=
    [stat 1%Z 11%Z None (Some (Fin 3));
     stat 2%Z 12%Z (Some (Fin 0)) (Some (Fin 0));
     stat 3%Z 11%Z (Some (Fin 1)) (Some (Fin 2))] in
  let runs :=
    [Page.mkRun 12 "b" (Some 3%Z) (Some (Fin 2)) None None (Some "cubic"%string);
     Page.mkRun 11 "a" (Some 3%Z) (Some (Fin 1)) None (Some 7%Z) None;
     Page.mkRun 13 "c" (Some 4%Z) (Some (Fin 1)) None None None] in
  map runId
    (Dashboard.chartSeries (fun _ => "10"%string) (fun _ => "7"%string)
       runs stats (Some 3%Z))
  = [11; 12]%Z.
Proof.
  intros stat stats runs.
  assert (Hsortable : Forall sortableStat stats).
  { repeat constructor. }
  destruct (chartSeries_one_series_per_selected_run
              (fun _ => "10"%string) (fun _ => "7"%string)
              runs stats (Some 3%Z) Hsortable) as [H _].
  rewrite H. reflexivity.
Defined.

Lemma totalSampleCount_counts_stats_of_selected_runs_witness :
  let stat (key : Z) (run : Z) (index elapsed : option number) :=
    Build_EmulatedPerSecondStat key run index elapsed None None None None None in
  let stats :=
    [stat 1%Z 11%Z None (Some (Fin 3));
     stat 2%Z 12%Z (Some (Fin 0)) (Some (Fin 0));
     stat 3%Z 13%Z (Some (Fin 1)) (Some (Fin 2));
     stat 4%Z 11%Z (Some (Fin 1)) (Some (Fin 2))] in
  let runs :=
    [Page.mkRun 12 "b" (Some 3%Z) (Some (Fin 2)) None None (Some "cubic"%string);
     Page.mkRun 11 "a" (Some 3%Z) (Some (Fin 1)) None (Some 7%Z) None;
     Page.mkRun 13 "c" (Some 4%Z) (Some (Fin 1)) None None None] in
  Dashboard.totalSampleCount
    (Dashboard.chartSeries (fun _ => "10"%string) (fun _ => "7"%string)
       runs stats (Some 3%Z))
  = 3%nat.
Proof.
  intros stat stats runs.
  assert (Hdistinct : NoDup (map Page.run_id runs)).
  { repeat constructor; simpl; intros H; repeat destruct H as [H | H];
      try discriminate H; exact H. }
  rewrite (totalSampleCount_counts_stats_of_selected_runs
             (fun _ => "10"%string) (fun _ => "7"%string)
             runs stats (Some 3%Z) Hdistinct).
  reflexivity.
Defined.

Lemma selectedParentRun_matches_selection_witness :
  let runs :=
    [Page.mkRun 12 "b" (Some 0%Z) (Some (Fin 2)) None None (Some "cubic"%string);
     Page.mkRun 11 "a" (Some 0%Z) (Some (Fin 1)) None (Some 7%Z) None] in
  let parentRuns := [Page.mkParentRun 0 (Some "2024-01-01"%string)] in
  exists option,
    Dashboard.selectedParentRun (fun _ => "10"%string) (fun _ => "7"%string)
      parentRuns runs (Some 0%Z) = Some option /\
    Dashboard.childRunCount option = 2%nat /\
    List.length (Dashboard.selectedRuns runs (Some 0%Z)) = 0%nat.
Proof.
  intros runs parentRuns.
  destruct (Dashboard.selectedParentRun (fun _ => "10"%string)
              (fun _ => "7"%string) parentRuns runs (Some 0%Z))
    as [option|] eqn:E.
  - exists option. split; [reflexivity|].
    destruct (selectedParentRun_matches_selection _ _ _ _ _ _ E)
      as [Hsel [_ Hlen]].
    injection Hsel as Hid. rewrite <- Hid in Hlen. split; [|exact Hlen].
    vm_compute in E. injection E as <-. reflexivity.
  - vm_compute in E. discriminate E.
Defined.

(** ** The parent-run lookup *)

Lemma Lookup_has_In (m : Page.Lookup.t) (key : Z) :
  Page.Lookup.has m key = true <-> In key (map fst m).
Proof.
  induction m as [|[k v] rest IH]; simpl; [split; [discriminate | intros []]|].
  destruct (k =? key)%Z eqn:E.
  - apply Z.eqb_eq in E. split; [left; exact E | reflexivity].
  - apply Z.eqb_neq in E. rewrite IH. split; [right; assumption|].
    intros [H | H]; [contradiction | exact H].
Qed.

Lemma Lookup_set_keys (m : Page.Lookup.t) (key : Z)
    (value : Page.EmulatedParentRun) :
  map fst (Page.Lookup.set m key value) =
  if Page.Lookup.has m key then map fst m else map fst m ++ [key].
Proof.
  induction m as [|[k v] rest IH]; simpl; [reflexivity|].
  destruct (k =? key)%Z eqn:E; simpl; [reflexivity|].
  rewrite IH. destruct (Page.Lookup.has rest key); reflexivity.
Qed.

Lemma Lookup_set_keyed (m : Page.Lookup.t) (key : Z)
    (value : Page.EmulatedParentRun) :
  Page.id value = key -> keyedById m ->
  keyedById (Page.Lookup.set m key value).
Proof.
  intros Hid [Hwf Hnd]. split.
  - clear Hnd. induction m as [|[k v] rest IH]; simpl.
    + constructor; [exact Hid | constructor].
    + apply Forall_cons_iff in Hwf. destruct Hwf as [Hhead Hrest].
      destruct (k =? key)%Z eqn:E.
      * apply Z.eqb_eq in E. constructor; [simpl; congruence | exact Hrest].
      * constructor; [exact Hhead | apply IH, Hrest].
  - rewrite Lookup_set_keys.
    destruct (Page.Lookup.has m key) eqn:E; [exact Hnd|].
    apply NoDup_app; [exact Hnd | repeat constructor; intros [] |].
    intros k Hk [<- | []].
    apply Lookup_has_In in Hk. congruence.
Qed.

Lemma Lookup_set_has (m : Page.Lookup.t) (key k : Z)
    (value : Page.EmulatedParentRun) :
  In k (map fst (Page.Lookup.set m key value)) <->
  In k (map fst m) \/ k = key.
Proof.
  rewrite Lookup_set_keys.
  destruct (Page.Lookup.has m key) eqn:E.
  - apply Lookup_has_In in E. split; [left; assumption|].
    intros [H | ->]; assumption.
  - rewrite in_app_iff. simpl. split.
    + intros [H | [<- | []]]; [left; exact H | right; reflexivity].
    + intros [H | ->]; [left; exact H | right; left; reflexivity].
Qed.

Lemma fold_left_invariant {A B : Type} (f : A -> B -> A) (P : A -> Prop)
    (l : list B) :
  (forall m x, In x l -> P m -> P (f m x)) ->
  forall init, P init -> P (fold_left f l init).
Proof.
  induction l as [|x rest IH]; intros Hstep init Hinit; simpl; [exact Hinit|].
  apply IH.
  - intros m y Hy. apply Hstep. right. exact Hy.
  - apply Hstep; [left; reflexivity | exact Hinit].
Qed.

Lemma fold_left_reaches {A B : Type} (f : A -> B -> A) (R : A -> Prop)
    (l : list B) (x : B) :
  In x l ->
  (forall m, R (f m x)) ->
  (forall m y, R m -> R (f m y)) ->
  forall init, R (fold_left f l init).
Proof.
  intros Hin Hadd Hkeep.
  induction l as [|y rest IH]; [destruct Hin|]. intros init. simpl.
  destruct Hin as [-> | Hin].
  - apply fold_left_invariant; [intros m z _; apply Hkeep | apply Hadd].
  - apply IH, Hin.
Qed.

Lemma keyedById_values_ids (m : Page.Lookup.t) :
  keyedById m -> map Page.id (Page.Lookup.values m) = map fst m.
Proof.
  intros [Hwf _]. unfold Page.Lookup.values. rewrite map_map.
  induction Hwf as [|entry rest Hentry Hrest IH]; simpl; [reflexivity|].
  rewrite Hentry, IH. reflexivity.
Qed.

Lemma parentRunLookup_keyed (parentRuns : list Page.EmulatedParentRun)
    (runs : list Page.EmulatedRun) :
  keyedById (Page.parentRunLookup parentRuns runs).
Proof.
  unfold Page.parentRunLookup.
  apply fold_left_invariant.
  - intros m run _ Hm.
    destruct (Page.parentRunId run) as [parent|]; [|exact Hm].
    destruct (negb (Page.Lookup.has m parent)); [|exact Hm].
    apply Lookup_set_keyed; [reflexivity | exact Hm].
  - apply fold_left_invariant.
    + intros m parentRun _ Hm. apply Lookup_set_keyed; [reflexivity | exact Hm].
    + split; constructor.
Qed.

Lemma parentRunLookup_keys (parentRuns : list Page.EmulatedParentRun)
    (runs : list Page.EmulatedRun) (parent : Z) :
  In parent (map fst (Page.parentRunLookup parentRuns runs)) <->
  In parent (map Page.id parentRuns) \/ referencedBy runs parent.
Proof.
  unfold Page.parentRunLookup.
  set (addParent := fun (lookup : Page.Lookup.t) parentRun =>
                      Page.Lookup.set lookup (Page.id parentRun) parentRun).
  set (addPlaceholder :=
         fun (lookup : Page.Lookup.t) run =>
           match Page.parentRunId run with
           | Some p =>
               if negb (Page.Lookup.has lookup p)
               then Page.Lookup.set lookup p (Page.mkParentRun p None)
               else lookup
           | None => lookup
           end).
  assert (Hkeep : forall m run,
             In parent (map fst m) -> In parent (map fst (addPlaceholder m run))).
  { intros m run H. unfold addPlaceholder.
    destruct (Page.parentRunId run) as [p|]; [|exact H].
    destruct (negb (Page.Lookup.has m p)); [|exact H].
    apply Lookup_set_has. left. exact H. }
  split.
  - revert parent Hkeep. intros parent _. revert parent.
    apply (fold_left_invariant addPlaceholder
             (fun m => forall parent,
                  In parent (map fst m) ->
                  In parent (map Page.id parentRuns) \/ referencedBy runs parent)).
    + intros m run Hrun Hm parent. unfold addPlaceholder.
      destruct (Page.parentRunId run) as [p|] eqn:Ep; [|apply Hm].
      destruct (negb (Page.Lookup.has m p)); [|apply Hm].
      rewrite Lookup_set_has. intros [H | ->]; [apply Hm, H|].
      right. exists run. split; assumption.
    + apply (fold_left_invariant addParent
               (fun m => forall parent,
                    In parent (map fst m) ->
                    In parent (map Page.id parentRuns) \/
                    referencedBy runs parent)).
      * intros m parentRun Hp Hm parent. unfold addParent.
        rewrite Lookup_set_has. intros [H | ->]; [apply Hm, H|].
        left. apply in_map, Hp.
      * intros parent [].
  - intros [H | [run [Hrun Hp]]].
    + apply (fold_left_invariant addPlaceholder
               (fun m => In parent (map fst m))).
      * intros m run _. apply Hkeep.
      * apply in_map_iff in H. destruct H as [parentRun [<- Hin]].
        apply (fold_left_reaches addParent
                 (fun m => In (Page.id parentRun) (map fst m))
                 parentRuns parentRun Hin).
        -- intros m. unfold addParent. apply Lookup_set_has. right. reflexivity.
        -- intros m other Hm. unfold addParent. apply Lookup_set_has.
           left. exact Hm.
    + apply (fold_left_reaches addPlaceholder
               (fun m => In parent (map fst m)) runs run Hrun).
      * intros m. unfold addPlaceholder. rewrite Hp.
        destruct (Page.Lookup.has m parent) eqn:E; cbn [negb].
        -- apply Lookup_has_In, E.
        -- apply Lookup_set_has. right. reflexivity.
      * intros m other. apply Hkeep.
Qed.

Lemma parentRunLookup_placeholders (parentRuns : list Page.EmulatedParentRun)
    (runs : list Page.EmulatedRun) (v : Page.EmulatedParentRun) :
  In v (Page.Lookup.values (Page.parentRunLookup parentRuns runs)) ->
  In v parentRuns \/
  (v = Page.mkParentRun (Page.id v) None /\
   ~ In (Page.id v) (map Page.id parentRuns) /\
   referencedBy runs (Page.id v)).
Proof.
  unfold Page.parentRunLookup.
  set (known := fun w : Page.EmulatedParentRun =>
                  In w parentRuns \/
                  (w = Page.mkParentRun (Page.id w) None /\
                   ~ In (Page.id w) (map Page.id parentRuns) /\
                   referencedBy runs (Page.id w))).
  set (addParent := fun (lookup : Page.Lookup.t) parentRun =>
                      Page.Lookup.set lookup (Page.id parentRun) parentRun).
  intros H.
  refine (proj2
            (fold_left_invariant _
               (fun m =>
                  (forall p, In p (map Page.id parentRuns) -> In p (map fst m)) /\
                  (forall w, In w (Page.Lookup.values m) -> known w))
               runs _ _ _) v H).
  - intros m run Hrun [Hids Hvalues].
    destruct (Page.parentRunId run) as [parent|] eqn:Ep;
      [|split; assumption].
    destruct (Page.Lookup.has m parent) eqn:Eh; cbn [negb];
      [split; assumption|].
    split.
    + intros p Hp. apply Lookup_set_has. left. apply Hids, Hp.
    + intros w Hw. destruct (Lookup_set_values _ _ _ _ Hw) as [I | ->];
        [apply Hvalues, I|].
      right. cbn [Page.id]. split; [reflexivity|]. split.
      * intros C. apply Hids in C. apply Lookup_has_In in C. congruence.
      * exists run. split; assumption.
  - split.
    + intros p Hp. apply in_map_iff in Hp. destruct Hp as [parentRun [<- Hin]].
      apply (fold_left_reaches addParent
               (fun m => In (Page.id parentRun) (map fst m))
               parentRuns parentRun Hin).
      * intros m. unfold addParent. apply Lookup_set_has. right. reflexivity.
      * intros m other Hm. unfold addParent. apply Lookup_set_has.
        left. exact Hm.
    + apply (fold_left_invariant addParent
               (fun m => forall w, In w (Page.Lookup.values m) -> known w)).
      * intros m parentRun Hp Hm w Hw. unfold addParent in Hw.
        destruct (Lookup_set_values _ _ _ _ Hw) as [I | ->];
          [apply Hm, I | left; exact Hp].
      * intros w [].
Qed.

Lemma mergedParentRuns_perm (Date_parse : string -> number)
    (parentRuns : list Page.EmulatedParentRun) (runs : list Page.EmulatedRun) :
  Permutation (Page.mergedParentRuns Date_parse parentRuns runs)
    (Page.Lookup.values (Page.parentRunLookup parentRuns runs)).
Proof.
  unfold Page.mergedParentRuns. apply Array_sort_perm.
Qed.

Lemma mergedParentRuns_ids (Date_parse : string -> number)
    (parentRuns : list Page.EmulatedParentRun) (runs : list Page.EmulatedRun) :
  NoDup (map Page.id (Page.mergedParentRuns Date_parse parentRuns runs)) /\
  forall parent,
    In parent (map Page.id (Page.mergedParentRuns Date_parse parentRuns runs))
    <-> In parent (map Page.id parentRuns) \/ referencedBy runs parent.
Proof.
  pose proof (Permutation_map Page.id
                (mergedParentRuns_perm Date_parse parentRuns runs)) as P.
  pose proof (parentRunLookup_keyed parentRuns runs) as K.
  rewrite (keyedById_values_ids _ K) in P.
  split.
  - apply (Permutation_NoDup (Permutation_sym P)). apply K.
  - intros parent. rewrite <- parentRunLookup_keys. split.
    + apply Permutation_in, P.
    + apply Permutation_in, Permutation_sym, P.
Qed.

(** X24: the merged parent runs have distinct ids; an id is among them
    exactly when it is the id of a loaded parent run or the [parentRunId] of
    a run; each merged entry is a loaded parent run or a placeholder without
    [createdAt] for an id that no loaded parent run has and that a run refers
    to; and the list is empty exactly when no parent run was loaded and no run
    has a parent. *)
Theorem mergedParentRuns_one_entry_per_parent (Date_parse : string -> number)
    (parentRuns : list Page.EmulatedParentRun) (runs : list Page.EmulatedRun) :
  let merged := Page.mergedParentRuns Date_parse parentRuns runs in
  NoDup (map Page.id merged) /\
  (forall parent,
      In parent (map Page.id merged) <->
      In parent (map Page.id parentRuns) \/ referencedBy runs parent) /\
  Forall
    (fun v =>
       In v parentRuns \/
       (v = Page.mkParentRun (Page.id v) None /\
        ~ In (Page.id v) (map Page.id parentRuns) /\
        referencedBy runs (Page.id v)))
    merged /\
  (merged = [] <->
   parentRuns = [] /\ Forall (fun run => Page.parentRunId run = None) runs).
Proof.
  intros merged.
  destruct (mergedParentRuns_ids Date_parse parentRuns runs) as [Hnd Hids].
  fold merged in Hnd, Hids.
  split; [exact Hnd|]. split; [exact Hids|]. split.
  - apply Forall_forall. intros v Hv.
    apply parentRunLookup_placeholders.
    apply (Permutation_in _ (mergedParentRuns_perm Date_parse parentRuns runs)).
    exact Hv.
  - split.
    + intros Hnil. rewrite Hnil in Hids. split.
      * destruct parentRuns as [|p rest]; [reflexivity|].
        exfalso. apply (proj2 (Hids (Page.id p))). left. left. reflexivity.
      * apply Forall_forall. intros run Hrun.
        destruct (Page.parentRunId run) as [parent|] eqn:E; [|reflexivity].
        exfalso. apply (proj2 (Hids parent)). right. exists run.
        split; assumption.
    + intros [-> Hnone].
      destruct merged as [|v rest]; [reflexivity|]. exfalso.
      destruct (proj1 (Hids (Page.id v)) (or_introl eq_refl))
        as [[] | [run [Hrun Hp]]].
      rewrite Forall_forall in Hnone. rewrite (Hnone run Hrun) in Hp.
      discriminate Hp.
Qed.

(** ** The rows of the stats *)

Lemma toNumber_finiteOrNull (Number_ofString : string -> number)
    (value : NumericLike) :
  finiteOrNull (toNumber Number_ofString value).
Proof.
  destruct value as [|n|s]; simpl; [exact I | |].
  - destruct n; exact I.
  - destruct (Number_ofString s); exact I.
Qed.

Lemma toStat_cells (Number_ofString : string -> number) (raw : RawStat) :
  cellsFiniteOrNull (toStat Number_ofString raw).
Proof.
  repeat split; apply toNumber_finiteOrNull.
Qed.

Lemma loadStats_sortable_aux (Number_ofString : string -> number)
    (runs : list Page.EmulatedRun) (statsData : option (list RawStat)) :
  Forall (fun raw => finiteOrNull (snapshot_index raw))
    (match statsData with Some rows => rows | None => [] end) ->
  Forall sortableStat (loadStats Number_ofString runs statsData).
Proof.
  intros H. unfold loadStats.
  destruct (0 <? List.length (map Page.run_id runs))%nat; [|constructor].
  apply Forall_map. eapply Forall_impl; [|exact H].
  intros raw Hraw. split; [exact Hraw | apply toNumber_finiteOrNull].
Qed.

(** X25: the five cells of a loaded stat that go through [toNumber] are
    finite or [null]; without runs no stat is loaded; otherwise the rows keep
    their order, [id], run id and snapshot index; [toNumber] yields a finite
    number exactly for that number or for a string that [Number] reads as it;
    and the loaded stats can be sorted when the snapshot indexes of the rows
    are finite or [null]. *)
Theorem loadStats_cells_finite_or_null (Number_ofString : string -> number)
    (runs : list Page.EmulatedRun) (statsData : option (list RawStat)) :
  let rows := match statsData with Some rows => rows | None => [] end in
  let stats := loadStats Number_ofString runs statsData in
  Forall cellsFiniteOrNull stats /\
  (runs = [] -> stats = []) /\
  (runs <> [] ->
   map id stats = map raw_id rows /\
   map emulatedRunId stats = map emulated_run_id rows /\
   map snapshotIndex stats = map snapshot_index rows) /\
  (forall value q,
      toNumber Number_ofString value = Some (Fin q) <->
      value = NumericNumber (Fin q) \/
      exists text, value = NumericString text /\ Number_ofString text = Fin q) /\
  (Forall (fun raw => finiteOrNull (snapshot_index raw)) rows ->
   Forall sortableStat stats).
Proof.
  intros rows stats. split; [|split; [|split; [|split]]].
  - unfold stats, loadStats.
    destruct (0 <? List.length (map Page.run_id runs))%nat; [|constructor].
    apply Forall_map, Forall_forall. intros raw _. apply toStat_cells.
  - intros ->. reflexivity.
  - intros Hne. unfold stats, loadStats.
    destruct runs as [|run rest]; [contradiction|]. cbn [map List.length Nat.ltb Nat.leb].
    fold rows. rewrite !map_map. repeat split.
  - intros value q. split.
    + destruct value as [|n|text]; simpl; [discriminate | |].
      * destruct n; intros H; try discriminate H. left. congruence.
      * destruct (Number_ofString text) eqn:E; intros H; try discriminate H.
        right. exists text. split; [reflexivity | congruence].
    + intros [-> | [text [-> E]]]; simpl; [reflexivity|].
      rewrite E. reflexivity.
  - apply loadStats_sortable_aux.
Qed.

(** X26: for each metric of [METRICS], a loaded stat whose snapshot index
    is finite or [null] is dropped by the normalizer exactly when the cell of
    the metric is [null]; a stat that is kept has the value of the cell as
    [yValue] and, as [xValue], its elapsed seconds, else its snapshot index,
    else its position in the data. *)
Theorem loaded_stat_dropped_only_for_missing_metric
    (Number_ofString : string -> number) (metric : MetricSpec.t)
    (raw : RawStat) (index : nat) :
  In metric METRICS ->
  finiteOrNull (snapshot_index raw) ->
  let stat := toStat Number_ofString raw in
  match MetricSpec.accessor metric stat with
  | Some (Fin y) =>
      exists x,
        normalizePoint (MetricSpec.accessor metric) stat index
        = Some (Pt.mk x y) /\
        (elapsedSeconds stat = Some (Fin x) \/
         elapsedSeconds stat = None /\ snapshotIndex stat = Some (Fin x) \/
         elapsedSeconds stat = None /\ snapshotIndex stat = None /\
         x = inject_Z (Z.of_nat index))
  | Some _ => False
  | None => normalizePoint (MetricSpec.accessor metric) stat index = None
  end.
Proof.
  intros Hmetric Hindex stat.
  assert (Hy : finiteOrNull (MetricSpec.accessor metric stat)).
  { destruct Hmetric as [<- | [<- | [<- | []]]]; apply toNumber_finiteOrNull. }
  assert (Hx : finiteOrNull (elapsedSeconds stat)).
  { apply toNumber_finiteOrNull. }
  unfold normalizePoint.
  change (snapshotIndex stat) with (snapshot_index raw).
  destruct (MetricSpec.accessor metric stat) as [[y| | |]|];
    try destruct Hy.
  - destruct (elapsedSeconds stat) as [[x| | |]|] eqn:Ex; try destruct Hx.
    + exists x. split; [reflexivity | left; reflexivity].
    + destruct (snapshot_index raw) as [[x| | |]|]; try destruct Hindex.
      * exists x. split; [reflexivity | right; left; split; reflexivity].
      * exists (inject_Z (Z.of_nat index)).
        split; [reflexivity | right; right; repeat split].
  - destruct (nullish _ _) as [[x| | |]|]; reflexivity.
Qed.

(** ** From the page to the dropdown *)

Lemma children_of_distinct_parents (runs : list Page.EmulatedRun)
    (parents : list Z) :
  NoDup parents ->
  list_sum (map (fun parent => List.length (childrenOf parent runs)) parents)
  = List.length (filter (childOfAny parents) runs).
Proof.
  induction parents as [|parent rest IH]; intros Hnd.
  - simpl. induction runs as [|run runs' IHr]; simpl; [reflexivity|].
    unfold childOfAny at 1. destruct (Page.parentRunId run); exact IHr.
  - inversion Hnd as [|? ? Hnotin Hrest]; subst.
    specialize (IH Hrest). unfold list_sum in *. cbn [map fold_right].
    rewrite IH. unfold childrenOf.
    rewrite <- (filter_disjoint_length
                  (fun run =>
                     match Page.parentRunId run with
                     | Some p => (p =? parent)%Z
                     | None => false
                     end)
                  (childOfAny rest)).
    + f_equal. apply filter_ext. intros run. unfold childOfAny.
      destruct (Page.parentRunId run); reflexivity.
    + intros run _ Hp. unfold childOfAny.
      destruct (Page.parentRunId run) as [p|]; [|reflexivity].
      apply Z.eqb_eq in Hp. subst p.
      destruct (existsb _ rest) eqn:E; [|reflexivity].
      apply existsb_exists in E. destruct E as [other [Hin Heq]].
      apply Z.eqb_eq in Heq. subst other. contradiction.
Qed.

Lemma parentOptions_counts (numberText : number -> string)
    (idText : Z -> string) (parentRuns : list Page.EmulatedParentRun)
    (runs : list Page.EmulatedRun) :
  map Dashboard.childRunCount
    (Dashboard.parentOptions numberText idText parentRuns runs)
  = map (fun parent => List.length (childrenOf parent runs))
      (map Page.id parentRuns).
Proof.
  unfold Dashboard.parentOptions. rewrite !map_map. apply map_ext.
  intros parentRun. cbn [Dashboard.childRunCount].
  rewrite runsByParent_children. apply Permutation_length, Array_sort_perm.
Qed.

(** X27: the dropdown built from the merged parent runs has distinct ids;
    every run with a parent has an option with the id of its parent, whose
    [childRunCount] is at least 1; and the counts of the options add up to the
    number of runs with a parent. *)
Theorem dropdown_counts_every_child_run (numberText : number -> string)
    (idText : Z -> string) (Date_parse : string -> number)
    (parentRuns : list Page.EmulatedParentRun) (runs : list Page.EmulatedRun) :
  let options :=
    Dashboard.parentOptions numberText idText
      (Page.mergedParentRuns Date_parse parentRuns runs) runs in
  NoDup (map Dashboard.id options) /\
  (forall run parent,
      In run runs -> Page.parentRunId run = Some parent ->
      exists option,
        In option options /\ Dashboard.id option = parent /\
        (1 <= Dashboard.childRunCount option)%nat) /\
  list_sum (map Dashboard.childRunCount options)
  = List.length (filter hasParent runs).
Proof.
  intros options.
  destruct (mergedParentRuns_ids Date_parse parentRuns runs) as [Hnd Hids].
  assert (Hoptions :
            map Dashboard.id options
            = map Page.id (Page.mergedParentRuns Date_parse parentRuns runs)).
  { unfold options, Dashboard.parentOptions. rewrite map_map. reflexivity. }
  split; [rewrite Hoptions; exact Hnd|]. split.
  - intros run parent Hrun Hparent.
    assert (Hin : In parent
                    (map Page.id
                       (Page.mergedParentRuns Date_parse parentRuns runs))).
    { apply Hids. right. exists run. split; assumption. }
    apply in_map_iff in Hin. destruct Hin as [parentRun [Hid HinP]].
    set (f := fun parentRun : Page.EmulatedParentRun =>
                let childRuns :=
                  match Grouped.get (Dashboard.runsByParent runs)
                          (Page.id parentRun) with
                  | Some children => children
                  | None => []
                  end in
                {| Dashboard.id := Page.id parentRun;
                   Dashboard.createdAt := Page.createdAt parentRun;
                   Dashboard.childRunCount := List.length childRuns;
                   Dashboard.client1Summary :=
                     Dashboard.formatClientDropdownSummary numberText idText
                       (Dashboard.findClient 1 childRuns);
                   Dashboard.client2Summary :=
                     Dashboard.formatClientDropdownSummary numberText idText
                       (Dashboard.findClient 2 childRuns) |}).
    exists (f parentRun). split; [|split].
    + unfold options, Dashboard.parentOptions. apply (in_map f), HinP.
    + exact Hid.
    + unfold f. cbn [Dashboard.childRunCount]. rewrite runsByParent_children.
      rewrite (Permutation_length (Array_sort_perm _ _)). rewrite Hid.
      assert (Hchild : In run (childrenOf parent runs)).
      { unfold childrenOf. apply filter_In. split; [exact Hrun|].
        rewrite Hparent. apply Z.eqb_refl. }
      destruct (childrenOf parent runs); [destruct Hchild | simpl; lia].
  - unfold options. rewrite parentOptions_counts.
    rewrite (children_of_distinct_parents runs _ Hnd).
    f_equal. apply filter_ext_in. intros run Hrun.
    unfold childOfAny, hasParent.
    destruct (Page.parentRunId run) as [parent|] eqn:E; [|reflexivity].
    apply existsb_exists. exists parent. split; [|apply Z.eqb_refl].
    apply Hids. right. exists run. split; assumption.
Qed.

Lemma loaded_stat_dropped_only_for_missing_metric_witness :
  let Number_ofString := fun text : string =>
    if String.eqb text "12.5" then Fin (25 # 2) else NaN in
  let raw :=
    {| raw_id := 1; emulated_run_id := 7; snapshot_index := Some (Fin 3);
       elapsed_seconds := NumericString "n/a";
       megabits_per_second := NumericNumber (Fin 80);
       round_trip_time_ms := NumericString "12.5";
       bottleneck_queuing_delay_ms := NumericNull;
       in_flight_packets := None;
       congestion_window_bytes := NumericNumber PosInf |} in
  (exists x,
      normalizePoint roundTripTimeMs (toStat Number_ofString raw) 0
      = Some (Pt.mk x (25 # 2)) /\
      (elapsedSeconds (toStat Number_ofString raw) = Some (Fin x) \/
       elapsedSeconds (toStat Number_ofString raw) = None /\
       snapshotIndex (toStat Number_ofString raw) = Some (Fin x) \/
       elapsedSeconds (toStat Number_ofString raw) = None /\
       snapshotIndex (toStat Number_ofString raw) = None /\
       x = inject_Z (Z.of_nat 0))) /\
  normalizePoint bottleneckQueuingDelayMs (toStat Number_ofString raw) 0 = None.
Proof.
  intros Number_ofString raw. split.
  - assert (Hmetric : In (MetricSpec.mk "rtt" "Round-trip Time" "ms"
                            roundTripTimeMs) METRICS).
    { right. left. reflexivity. }
    exact (loaded_stat_dropped_only_for_missing_metric Number_ofString _
             raw 0%nat Hmetric I).
  - assert (Hmetric : In (MetricSpec.mk "queue" "Queueing Delay" "ms"
                            bottleneckQueuingDelayMs) METRICS).
    { right. right. left. reflexivity. }
    exact (loaded_stat_dropped_only_for_missing_metric Number_ofString _
             raw 0%nat Hmetric I).
Defined.

Lemma Storage_getItem_setItem (items : Theme.Storage.t) (key k value : string) :
  Theme.Storage.getItem (Theme.Storage.setItem items key value) k =
  if String.eqb key k then Some value else Theme.Storage.getItem items k.
Proof.
  induction items as [|[k0 v0] rest IH]; simpl.
  - reflexivity.
  - destruct (String.eqb k0 key) eqn:E0; simpl.
    + apply String.eqb_eq in E0. subst k0.
      destruct (String.eqb key k); reflexivity.
    + rewrite IH. destruct (String.eqb key k) eqn:E1; [|reflexivity].
      apply String.eqb_eq in E1. subst k. rewrite E0. reflexivity.
Qed.

Lemma Storage_getItem_removeItem (items : Theme.Storage.t) (key k : string) :
  String.eqb key k = false ->
  Theme.Storage.getItem (Theme.Storage.removeItem items key) k
  = Theme.Storage.getItem items k.
Proof.
  intros E. induction items as [|[k0 v0] rest IH]; simpl; [reflexivity|].
  destruct (String.eqb k0 key) eqn:E0; simpl.
  - apply String.eqb_eq in E0. subst k0. rewrite E. exact IH.
  - destruct (String.eqb k0 k); [reflexivity | exact IH].
Qed.

Lemma parsePreference_toString (preference : Theme.ThemePreference) :
  Theme.parsePreference (Some (Theme.toString preference)) = preference.
Proof.
  destruct preference; reflexivity.
Qed.

Lemma applyTheme_themed (preference : Theme.ThemePreference) (w : Theme.Window) :
  Theme.readPreference (Some w) = preference ->
  Theme.themed (Theme.applyTheme preference w).
Proof.
  intros H. unfold Theme.themed, Theme.applyTheme, Theme.readPreference in *.
  cbn [Theme.localStorage Theme.darkClass Theme.colorScheme].
  rewrite H. split; [|reflexivity].
  destruct preference; reflexivity.
Qed.

Lemma setThemePreference_window (next : Theme.ThemePreference)
    (w : Theme.Window) :
  exists w',
    Theme.setThemePreference next (Some w) = Some w' /\
    Theme.readPreference (Some w') = next /\
    Theme.themed w' /\
    Theme.darkClass w' = Theme.resolveDarkMode next w /\
    Theme.prefersDark w' = Theme.prefersDark w /\
    forall key,
      key <> Theme.STORAGE_KEY ->
      Theme.Storage.getItem (Theme.localStorage w') key
      = Theme.Storage.getItem (Theme.localStorage w) key.
Proof.
  eexists. split; [reflexivity|].
  assert (Hread :
            Theme.readPreference
              (Some
                 (Theme.applyTheme next
                    {| Theme.localStorage :=
                         Theme.Storage.setItem (Theme.localStorage w)
                           Theme.STORAGE_KEY (Theme.toString next);
                       Theme.prefersDark := Theme.prefersDark w;
                       Theme.darkClass := Theme.darkClass w;
                       Theme.colorScheme := Theme.colorScheme w |}))
            = next).
  { unfold Theme.readPreference, Theme.applyTheme.
    cbn [Theme.localStorage]. rewrite Storage_getItem_setItem.
    rewrite String.eqb_refl. apply parsePreference_toString. }
  split; [exact Hread|]. split.
  - apply applyTheme_themed. unfold Theme.readPreference.
    cbn [Theme.localStorage]. rewrite Storage_getItem_setItem.
    rewrite String.eqb_refl. apply parsePreference_toString.
  - split; [destruct next; reflexivity|]. split; [reflexivity|].
    intros key Hkey. unfold Theme.applyTheme. cbn [Theme.localStorage].
    rewrite Storage_getItem_setItem.
    destruct (String.eqb Theme.STORAGE_KEY key) eqn:E; [|reflexivity].
    apply String.eqb_eq in E. congruence.
Qed.

(** X28: in a browser, [setThemePreference] stores the preference so that
    [readPreference] returns it, gives the root element the class [dark]
    exactly when the preference resolves to dark, with the matching color
    scheme (an explicit preference does not look at the system theme), and
    leaves the other items of the storage and the media query alone; on the
    server it does nothing, and the preference read is the server
    snapshot. *)
Theorem setThemePreference_stores_and_applies (next : Theme.ThemePreference)
    (window : option Theme.Window) :
  match window, Theme.setThemePreference next window with
  | Some w, Some w' =>
      Theme.readPreference (Some w') = next /\
      Theme.darkClass w' = Theme.resolveDarkMode next w /\
      Theme.colorScheme w'
      = (if Theme.darkClass w' then "dark" else "light")%string /\
      (next <> Theme.system ->
       Theme.darkClass w' = match next with Theme.dark => true | _ => false end) /\
      Theme.prefersDark w' = Theme.prefersDark w /\
      (forall key,
          key <> Theme.STORAGE_KEY ->
          Theme.Storage.getItem (Theme.localStorage w') key
          = Theme.Storage.getItem (Theme.localStorage w) key)
  | None, None => Theme.readPreference None = Theme.getServerSnapshot
  | _, _ => False
  end.
Proof.
  destruct window as [w|]; [|reflexivity].
  destruct (setThemePreference_window next w)
    as [w' [-> [Hread [[_ Hscheme] [Hdark [Hsystem Hkeys]]]]]].
  split; [exact Hread|]. split; [exact Hdark|]. split; [exact Hscheme|].
  split; [|split; assumption].
  intros Hne. rewrite Hdark. destruct next; try reflexivity. contradiction.
Qed.

Lemma step_themed (w : Theme.Window) (e : Theme.ThemeEvent) :
  e <> Theme.StorageCleared ->
  Theme.themed w -> Theme.themed (Theme.step w e).
Proof.
  intros Hcleared Hthemed. destruct e as [p | matches | key value | key |].
  - cbn [Theme.step].
    destruct (setThemePreference_window p w) as [w' [-> [_ [H _]]]]. exact H.
  - cbn [Theme.step]. unfold Theme.handleSystemThemeChange.
    destruct (Theme.readPreference (Some (Theme.withPrefersDark matches w)))
      eqn:E.
    + destruct Hthemed as [H1 H2]. split; [|exact H2].
      cbn [Theme.darkClass Theme.withPrefersDark].
      change (Theme.readPreference (Some (Theme.withPrefersDark matches w)))
        with (Theme.readPreference (Some w)) in *.
      rewrite H1, E. reflexivity.
    + destruct Hthemed as [H1 H2]. split; [|exact H2].
      cbn [Theme.darkClass Theme.withPrefersDark].
      change (Theme.readPreference (Some (Theme.withPrefersDark matches w)))
        with (Theme.readPreference (Some w)) in *.
      rewrite H1, E. reflexivity.
    + apply applyTheme_themed, E.
  - cbn [Theme.step Theme.handleStorageChange].
    destruct (String.eqb key Theme.STORAGE_KEY) eqn:E.
    + apply applyTheme_themed. reflexivity.
    + destruct Hthemed as [H1 H2]. split; [|exact H2].
      cbn [Theme.darkClass Theme.withLocalStorage].
      rewrite H1. unfold Theme.readPreference.
      cbn [Theme.localStorage Theme.withLocalStorage].
      rewrite Storage_getItem_setItem, E. reflexivity.
  - cbn [Theme.step Theme.handleStorageChange].
    destruct (String.eqb key Theme.STORAGE_KEY) eqn:E.
    + apply applyTheme_themed. reflexivity.
    + destruct Hthemed as [H1 H2]. split; [|exact H2].
      cbn [Theme.darkClass Theme.withLocalStorage].
      rewrite H1. unfold Theme.readPreference.
      cbn [Theme.localStorage Theme.withLocalStorage].
      rewrite Storage_getItem_removeItem by exact E. reflexivity.
  - contradiction.
Qed.

Lemma setThemePreference_stores_and_applies_witness :
  let w := Theme.mkWindow [("other", "1")]%string true false "light" in
  match Theme.setThemePreference Theme.system (Some w) with
  | Some w' =>
      Theme.readPreference (Some w') = Theme.system /\
      Theme.darkClass w' = true /\ Theme.colorScheme w' = "dark"%string
  | None => False
  end.
Proof.
  intros w.
  pose proof (setThemePreference_stores_and_applies Theme.system (Some w)) as H.
  unfold Theme.setThemePreference in *. cbv beta iota in H. cbv beta iota.
  destruct H as [Hread [Hdark [Hscheme _]]].
  split; [exact Hread|]. split; [exact Hdark|].
  rewrite Hscheme, Hdark. reflexivity.
Defined.

(** X29: once the page shows the theme of the stored preference, it does so
    after every sequence of clicks, system theme changes and storage events
    for single items: the theme follows the stored preference and, under
    [system], the media query. *)
Theorem theme_follows_stored_preference (w : Theme.Window)
    (events : list Theme.ThemeEvent) :
  Theme.themed w ->
  ~ In Theme.StorageCleared events ->
  Theme.themed (fold_left Theme.step events w).
Proof.
  revert w. induction events as [|e rest IH]; intros w Hthemed Hcleared;
    [exact Hthemed|].
  cbn [fold_left]. apply IH.
  - apply step_themed; [|exact Hthemed].
    intros ->. apply Hcleared. left. reflexivity.
  - intros C. apply Hcleared. right. exact C.
Qed.

Lemma theme_follows_stored_preference_witness :
  Theme.themed
    (fold_left Theme.step
       [Theme.SystemThemeChanged true;
        Theme.ItemSet "theme-preference" "dark";
        Theme.ItemRemoved "theme-preference";
        Theme.Click Theme.light]
       (Theme.mkWindow [] false false "light")).
Proof.
  apply theme_follows_stored_preference.
  - split; reflexivity.
  - intros H. repeat destruct H as [H | H]; try discriminate H. exact H.
Defined.

Lemma storage_clear_goes_unnoticed :
  let w := Theme.mkWindow [("theme-preference", "dark")]%string false true
             "dark" in
  Theme.themed w /\ ~ Theme.themed (Theme.step w Theme.StorageCleared).
Proof.
  intros w. split; [split; reflexivity|].
  intros [H _]. discriminate H.
Qed.
